(** * puppeteer-cluster: the worker, the dispatch loop and the facade

    A shallow embedding of [src/Worker.ts] and [src/Cluster.ts].  Asynchronous
    code is written in state-passing style: every [await] on a collaborator
    (the concurrency implementation, the user task, the page) reads its
    outcome from an explicit environment record, and every call made to a
    collaborator is appended to a trace. *)

From Stdlib Require Import ZArith.
From stdpp Require Import base option list strings gmap.

Local Open Scope Z_scope.

(** ** JavaScript values that the model distinguishes *)

(** A value that was thrown, or that a promise was rejected with.  The
    source tests such a value for truthiness ([if (errorState)]) and reads
    its [message] in the [catch] blocks, so the model keeps three kinds
    apart: the truthy values ([ErrorObject], with what [.message] gives),
    the falsy values that have properties ([0], the empty string, [false],
    [NaN]), and [null] and [undefined], of which no property can be read. *)
Inductive Thrown : Type :=
| ErrorObject (message : string)
| FalsyValue
| Nullish (null : bool).

Definition truthy (e : Thrown) : bool :=
  match e with
  | ErrorObject _ => true
  | FalsyValue | Nullish _ => false
  end.

Definition nullish (e : Thrown) : bool :=
  match e with
  | Nullish _ => true
  | ErrorObject _ | FalsyValue => false
  end.

(** The [TypeError] of reading [property] of [null] or of [undefined]. *)
Definition typeError (null : bool) (property : string) : Thrown :=
  ErrorObject
    ("Cannot read properties of " +:+ (if null then "null" else "undefined")
     +:+ " (reading '" +:+ property +:+ "')").

(** [e.message], as every [catch] block of the sources evaluates it for
    its log line: what the access throws, if it throws. *)
Definition readMessage (e : Thrown) : option Thrown :=
  match e with
  | Nullish null => Some (typeError null "message")
  | ErrorObject _ | FalsyValue => None
  end.

(** What a call that may throw produces.  [OutOfFuel] only exists because
    the acquisition loop of [Worker.handle] is written with fuel; it is shown
    unreachable below. *)
Inductive Completion (A : Type) : Type :=
| Returned (a : A)
| Threw (e : Thrown)
| OutOfFuel.

Arguments Returned {A} a.
Arguments Threw {A} e.
Arguments OutOfFuel {A}.

(** The payload of a job, the value a task returns, a task function, a
    page: all opaque to the cluster. *)
Definition JobData : Type := Z.
Definition ReturnData : Type := Z.
Definition TaskFunction : Type := nat.
Definition Page : Type := nat.
Definition Timer : Type := nat.

(** ** Job *)

Module Job.

(** Modelled from the spec: class [Job] ([src/Job.ts]) is not among the
    sources.  [jid] stands for the identity of the JavaScript object (the
    queue and [activeJobs] compare jobs by reference); [url] and [domain] are
    what [getUrl()] and [getDomain()] return; [executeCallbacks] tells
    whether the job carries the [{resolve, reject}] pair of an [execute]
    call. *)
Record t : Type := Build {
  jid : nat;
  data : JobData;
  url : option string;
  domain : option string;
  taskFunction : option TaskFunction;
  executeCallbacks : bool;
  tries : Z;
  errors : list Thrown
}.

Definition getUrl (j : t) : option string := url j.
Definition getDomain (j : t) : option string := domain j.

(** Modelled from the spec: [Job.addError] is not among the sources.  The
    spec says that the error is appended to [job.errors] and that [tries]
    is the number of attempts so far, one more with every attempt; [doWork]
    assigns [tries] nowhere and reads it right after [addError], so the
    attempt that failed is counted here ([this.tries += 1]). *)
Definition addError (j : t) (e : Thrown) : t :=
  {| jid := jid j; data := data j; url := url j; domain := domain j;
     taskFunction := taskFunction j; executeCallbacks := executeCallbacks j;
     tries := tries j + 1; errors := errors j ++ [e] |}.

(** Reference equality of two job objects. *)
Definition same (a b : t) : bool := Nat.eqb (jid a) (jid b).

End Job.

(** ** Queue *)

Module Queue.

(** Modelled from the spec: class [Queue] ([src/Queue.ts]) is not among the
    sources.  The spec describes an ordered sequence of entries
    [{item, delayUntil?}]: [push] appends, [remove] removes the first
    matching entry, [peek] returns the first entry whose [delayUntil] is
    absent or not after now, [size] counts every entry. *)
Record entry : Type := Entry {
  item : Job.t;
  delayUntil : option Z
}.

Definition t : Type := list entry.

Definition push (j : Job.t) (d : option Z) (q : t) : t := q ++ [Entry j d].

Fixpoint remove (j : Job.t) (q : t) : t :=
  match q with
  | [] => []
  | e :: q' => if Job.same (item e) j then q' else e :: remove j q'
  end.

Definition ready (now : Z) (e : entry) : bool :=
  match delayUntil e with
  | None => true
  | Some t => t <=? now
  end.

Fixpoint peek (now : Z) (q : t) : option Job.t :=
  match q with
  | [] => None
  | e :: q' => if ready now e then Some (item e) else peek now q'
  end.

Definition size (q : t) : nat := length q.

Definition jids (q : t) : list nat := map (fun e => Job.jid (item e)) q.

End Queue.

(** ** Worker ([src/Worker.ts]) *)

Module Worker.

Definition BROWSER_INSTANCE_TRIES : nat := 10.

(** [WorkResult = WorkError | WorkData]; [data] is [None] when the variable
    [result] of [handle] is still [undefined]. *)
Inductive WorkResult : Type :=
| WorkError (error : Thrown)
| WorkData (data : option ReturnData).

(** The part of a [WorkerInstance] that the worker inspects synchronously:
    the optional [canHandle] hook. *)
Record WorkerInstance : Type := Build_WorkerInstance {
  wi_canHandle : option (JobData -> bool)
}.

Record JobInstance : Type := Build_JobInstance {
  page : Page
}.

Record t : Type := Build {
  id : nat;
  browser : WorkerInstance;
  activeJobs : list Job.t
}.

Definition set_activeJobs (l : list Job.t) (w : t) : t :=
  {| id := id w; browser := browser w; activeJobs := l |}.

(** [this.browser.canHandle?.(job.data) || this.activeJobs.length === 0] *)
Definition canHandle (w : t) (job : Job.t) : bool :=
  match wi_canHandle (browser w) with
  | Some f => f (Job.data job) || Nat.eqb (length (activeJobs w)) 0
  | None => Nat.eqb (length (activeJobs w)) 0
  end.

Definition isIdle (w : t) : bool := Nat.eqb (length (activeJobs w)) 0.

(** How the collaborators answer during one call of [handle]. *)
Inductive TaskOutcome : Type :=
| TaskResolved (v : ReturnData)
| TaskRejected (e : Thrown).

Record Env : Type := Build_Env {
  (** the n-th call of [browser.jobInstance(job.data)]: [None] when it rejects *)
  jobInstanceAt : nat -> JobData -> option JobInstance;
  (** the value that the n-th call of [jobInstance] rejects with, when it
      rejects *)
  jobInstanceError : nat -> JobData -> Thrown;
  (** the n-th call of [browser.repair()]: [Some e] when it rejects with [e] *)
  repairAt : nat -> option Thrown;
  (** [timeoutExecute(timeout, task({page, data, worker: {id}}))] *)
  taskRun : TaskFunction -> Page -> JobData -> nat -> Z -> TaskOutcome;
  (** the last ["error"] event of the page while the task is awaited *)
  pageErrorInTask : option Thrown;
  (** [jobInstance.close()]: [Some e] when it rejects with [e] *)
  closeOutcome : option Thrown;
  (** the last ["error"] event of the page while the release is awaited *)
  pageErrorInRelease : option Thrown
}.


(** The calls that [handle] makes, in order. *)
Inductive Call : Type :=
| CallJobInstance (d : JobData)
| CallRepair
| CallTask (f : TaskFunction) (p : Page) (d : JobData) (workerId : nat) (timeout : Z)
| CallClose (p : Page).

Inductive Acquired : Type :=
| GotInstance (ji : JobInstance) (tries : nat) (calls : list Call)
| AcquireThrew (e : Thrown) (calls : list Call)
| AcquireOutOfFuel.

(** [while (jobInstance === null) { try { ... } catch { ... } }] with the
    counter [tries]; each failed attempt is the [tries]-th call of
    [jobInstance]; its [catch] reads [err.message] and then makes the
    [tries]-th call of [repair]. *)
Fixpoint acquire (env : Env) (d : JobData) (fuel tries : nat) (calls : list Call)
  : Acquired :=
  match fuel with
  | O => AcquireOutOfFuel
  | S fuel' =>
    match jobInstanceAt env tries d with
    | Some ji => GotInstance ji tries (calls ++ [CallJobInstance d])
    | None =>
      match readMessage (jobInstanceError env tries d) with
      | Some e => AcquireThrew e (calls ++ [CallJobInstance d])
      | None =>
        let calls := calls ++ [CallJobInstance d; CallRepair] in
        match repairAt env tries with
        | Some e => AcquireThrew e calls
        | None =>
          let tries := S tries in
          if (BROWSER_INSTANCE_TRIES <=? tries)%nat
          then AcquireThrew (ErrorObject "Unable to get browser page") calls
          else acquire env d fuel' tries calls
        end
      end
    end
  end.

Fixpoint indexOf (j : Job.t) (l : list Job.t) : option nat :=
  match l with
  | [] => None
  | x :: l' => if Job.same x j then Some O else S <$> indexOf j l'
  end.

(** [this.activeJobs.splice(this.activeJobs.indexOf(job), 1)]: when
    [indexOf] is [-1], [splice(-1, 1)] removes the last element. *)
Definition spliceJob (j : Job.t) (l : list Job.t) : list Job.t :=
  match indexOf j l with
  | Some i => delete i l
  | None => delete (length l - 1)%nat l
  end.

(** [this.activeJobs.push(job)], the synchronous prefix of [handle]. *)
Definition handleBegin (job : Job.t) (w : t) : t :=
  set_activeJobs (activeJobs w ++ [job]) w.

(** What the [try] around the task leaves: the variables [result] and
    [errorState], or what its [catch] throws when it reads [err.message]. *)
Definition runTask (env : Env) (task : TaskFunction) (page : Page)
    (job : Job.t) (timeout : Z) (w : t)
  : Completion (option ReturnData * option Thrown) :=
  match taskRun env task page (Job.data job) (id w) timeout with
  | TaskResolved v => Returned (Some v, pageErrorInTask env)
  | TaskRejected e =>
    match readMessage e with
    | Some e' => Threw e'
    | None => Returned (None, Some e)
    end
  end.

(** What the [try] around [jobInstance.close()] throws, if it throws, and
    the calls made by then: its [catch] reads [e.message] and then awaits
    [repair], the [tries]-th call of it. *)
Definition release (env : Env) (tries : nat) (calls : list Call)
  : option Thrown * list Call :=
  match closeOutcome env with
  | None => (None, calls)
  | Some e =>
    match readMessage e with
    | Some e' => (Some e', calls)
    | None => (repairAt env tries, calls ++ [CallRepair])
    end
  end.

(** The rest of [handle], on the worker as it is when the call proceeds. *)
Definition handleRest (env : Env) (task : TaskFunction) (job : Job.t)
    (timeout : Z) (w : t) : Completion WorkResult * t * list Call :=
  match acquire env (Job.data job) BROWSER_INSTANCE_TRIES 0 [] with
  | AcquireOutOfFuel => (OutOfFuel, w, [])
  | AcquireThrew e calls => (Threw e, w, calls)
  | GotInstance ji tries calls =>
    let page := page ji in
    let calls := calls ++ [CallTask task page (Job.data job) (id w) timeout] in
    match runTask env task page job timeout w with
    | Threw e => (Threw e, w, calls)
    | OutOfFuel => (OutOfFuel, w, calls)
    | Returned (result, errorState) =>
      let '(released, calls) :=
        release env tries (calls ++ [CallClose page]) in
      let errorState :=
        match pageErrorInRelease env with
        | Some e => Some e
        | None => errorState
        end in
      match released with
      | Some e => (Threw e, w, calls)
      | None =>
        let w := set_activeJobs (spliceJob job (activeJobs w)) w in
        match errorState with
        | Some e =>
          if truthy e then (Returned (WorkError e), w, calls)
          else (Returned (WorkData result), w, calls)
        | None => (Returned (WorkData result), w, calls)
        end
      end
    end
  end.

Definition handle (env : Env) (task : TaskFunction) (job : Job.t)
    (timeout : Z) (w : t) : Completion WorkResult * t * list Call :=
  handleRest env task job timeout (handleBegin job w).

End Worker.

(** ** Workers *)

Module Workers.

(** Modelled from the spec: class [Workers] ([src/Workers.ts]) is not among
    the sources.  The pool is the sequence of live workers, a worker being
    named by its position; [getWorker] returns the first worker for which
    [canHandle] holds, the pool can handle a job when some worker can, and a
    worker is busy when its [activeJobs] is not empty. *)
Definition t : Type := list Worker.t.

Definition isAnyJobActive (ws : t) : bool :=
  existsb (fun w => negb (Worker.isIdle w)) ws.

Definition busyCount (ws : t) : nat :=
  length (List.filter (fun w => (0 <? length (Worker.activeJobs w))%nat) ws).

Definition canHandle (ws : t) (job : Job.t) : bool :=
  existsb (fun w => Worker.canHandle w job) ws.

Fixpoint getWorker (ws : t) (job : Job.t) : option nat :=
  match ws with
  | [] => None
  | w :: ws' =>
    if Worker.canHandle w job then Some O else S <$> getWorker ws' job
  end.

End Workers.

(** ** Cluster ([src/Cluster.ts]) *)

Module Cluster.

Definition CHECK_FOR_WORK_INTERVAL : Z := 100.
Definition WORK_CALL_INTERVAL_LIMIT : Z := 10.

Record ClusterOptions : Type := Build_ClusterOptions {
  maxConcurrency : Z;
  workerCreationDelay : Z;
  monitor : bool;
  timeout : Z;
  retryLimit : Z;
  retryDelay : Z;
  skipDuplicateUrls : bool;
  sameDomainDelay : Z
}.

Definition DEFAULT_OPTIONS : ClusterOptions :=
  {| maxConcurrency := 1; workerCreationDelay := 0; monitor := false;
     timeout := 30 * 1000; retryLimit := 0; retryDelay := 0;
     skipDuplicateUrls := false; sameDomainDelay := 0 |}.

(** What the cluster does to the outside, in order: events emitted,
    promise callbacks invoked, calls to the collaborators. *)
Inductive Effect : Type :=
| EmitQueue (d : JobData) (f : option TaskFunction)
| EmitTaskError (e : Thrown) (d : JobData) (willRetry : bool)
| CallbackResolve (jid : nat) (d : option ReturnData)
| CallbackReject (jid : nat) (e : Thrown)
| IdleResolved (r : nat)
| WaitForOneResolved (r : nat) (d : JobData)
| HandleCalled (worker : nat) (job : Job.t) (f : TaskFunction) (timeout : Z)
| LaunchWorkerCalled (job : Job.t)
| WorkersClose
| BrowserClose
| MonitorDrawn
| DisplayClose
| SystemMonitorClose.

(** A call of [doWork] that is suspended at [await worker.handle(...)]. *)
Record Pending : Type := Build_Pending {
  p_job : Job.t;
  p_worker : nat;
  p_jobFunction : TaskFunction
}.

(** The fields of the class, followed by the state of the event loop that
    the class relies on: the timers that are armed, the counters that name
    fresh timers and fresh job objects, the number of [doWork] calls
    suspended at [await launchWorker], the calls suspended at
    [await worker.handle], and the effects so far. *)
Record t : Type := Build {
  options : ClusterOptions;
  workers : Workers.t;
  allTargetCount : Z;
  jobQueue : Queue.t;
  errorCount : Z;
  taskFunction : option TaskFunction;
  idleResolvers : list nat;
  waitForOneResolvers : list nat;
  isClosed : bool;
  monitoringInterval : option Timer;
  display : bool;
  duplicateCheckUrls : gset string;
  lastDomainAccesses : gmap string Z;
  checkForWorkInterval : option Timer;
  nextWorkCall : Z;
  workCallTimeout : option Timer;
  armed : gset Timer;
  nextTimer : Timer;
  nextJid : nat;
  launching : nat;
  inFlight : list Pending;
  log : list Effect
}.

Definition set_workers (x : Workers.t) (c : t) : t :=
  {| options := options c; workers := x; allTargetCount := allTargetCount c;
     jobQueue := jobQueue c; errorCount := errorCount c;
     taskFunction := taskFunction c; idleResolvers := idleResolvers c;
     waitForOneResolvers := waitForOneResolvers c; isClosed := isClosed c;
     monitoringInterval := monitoringInterval c; display := display c;
     duplicateCheckUrls := duplicateCheckUrls c;
     lastDomainAccesses := lastDomainAccesses c;
     checkForWorkInterval := checkForWorkInterval c;
     nextWorkCall := nextWorkCall c; workCallTimeout := workCallTimeout c;
     armed := armed c; nextTimer := nextTimer c; nextJid := nextJid c;
     launching := launching c; inFlight := inFlight c; log := log c |}.

Definition set_allTargetCount (x : Z) (c : t) : t :=
  {| options := options c; workers := workers c; allTargetCount := x;
     jobQueue := jobQueue c; errorCount := errorCount c;
     taskFunction := taskFunction c; idleResolvers := idleResolvers c;
     waitForOneResolvers := waitForOneResolvers c; isClosed := isClosed c;
     monitoringInterval := monitoringInterval c; display := display c;
     duplicateCheckUrls := duplicateCheckUrls c;
     lastDomainAccesses := lastDomainAccesses c;
     checkForWorkInterval := checkForWorkInterval c;
     nextWorkCall := nextWorkCall c; workCallTimeout := workCallTimeout c;
     armed := armed c; nextTimer := nextTimer c; nextJid := nextJid c;
     launching := launching c; inFlight := inFlight c; log := log c |}.

Definition set_jobQueue (x : Queue.t) (c : t) : t :=
  {| options := options c; workers := workers c;
     allTargetCount := allTargetCount c; jobQueue := x;
     errorCount := errorCount c; taskFunction := taskFunction c;
     idleResolvers := idleResolvers c;
     waitForOneResolvers := waitForOneResolvers c; isClosed := isClosed c;
     monitoringInterval := monitoringInterval c; display := display c;
     duplicateCheckUrls := duplicateCheckUrls c;
     lastDomainAccesses := lastDomainAccesses c;
     checkForWorkInterval := checkForWorkInterval c;
     nextWorkCall := nextWorkCall c; workCallTimeout := workCallTimeout c;
     armed := armed c; nextTimer := nextTimer c; nextJid := nextJid c;
     launching := launching c; inFlight := inFlight c; log := log c |}.

Definition set_errorCount (x : Z) (c : t) : t :=
  {| options := options c; workers := workers c;
     allTargetCount := allTargetCount c; jobQueue := jobQueue c;
     errorCount := x; taskFunction := taskFunction c;
     idleResolvers := idleResolvers c;
     waitForOneResolvers := waitForOneResolvers c; isClosed := isClosed c;
     monitoringInterval := monitoringInterval c; display := display c;
     duplicateCheckUrls := duplicateCheckUrls c;
     lastDomainAccesses := lastDomainAccesses c;
     checkForWorkInterval := checkForWorkInterval c;
     nextWorkCall := nextWorkCall c; workCallTimeout := workCallTimeout c;
     armed := armed c; nextTimer := nextTimer c; nextJid := nextJid c;
     launching := launching c; inFlight := inFlight c; log := log c |}.

Definition set_taskFunction (x : option TaskFunction) (c : t) : t :=
  {| options := options c; workers := workers c;
     allTargetCount := allTargetCount c; jobQueue := jobQueue c;
     errorCount := errorCount c; taskFunction := x;
     idleResolvers := idleResolvers c;
     waitForOneResolvers := waitForOneResolvers c; isClosed := isClosed c;
     monitoringInterval := monitoringInterval c; display := display c;
     duplicateCheckUrls := duplicateCheckUrls c;
     lastDomainAccesses := lastDomainAccesses c;
     checkForWorkInterval := checkForWorkInterval c;
     nextWorkCall := nextWorkCall c; workCallTimeout := workCallTimeout c;
     armed := armed c; nextTimer := nextTimer c; nextJid := nextJid c;
     launching := launching c; inFlight := inFlight c; log := log c |}.

Definition set_idleResolvers (x : list nat) (c : t) : t :=
  {| options := options c; workers := workers c;
     allTargetCount := allTargetCount c; jobQueue := jobQueue c;
     errorCount := errorCount c; taskFunction := taskFunction c;
     idleResolvers := x; waitForOneResolvers := waitForOneResolvers c;
     isClosed := isClosed c; monitoringInterval := monitoringInterval c;
     display := display c; duplicateCheckUrls := duplicateCheckUrls c;
     lastDomainAccesses := lastDomainAccesses c;
     checkForWorkInterval := checkForWorkInterval c;
     nextWorkCall := nextWorkCall c; workCallTimeout := workCallTimeout c;
     armed := armed c; nextTimer := nextTimer c; nextJid := nextJid c;
     launching := launching c; inFlight := inFlight c; log := log c |}.

Definition set_waitForOneResolvers (x : list nat) (c : t) : t :=
  {| options := options c; workers := workers c;
     allTargetCount := allTargetCount c; jobQueue := jobQueue c;
     errorCount := errorCount c; taskFunction := taskFunction c;
     idleResolvers := idleResolvers c; waitForOneResolvers := x;
     isClosed := isClosed c; monitoringInterval := monitoringInterval c;
     display := display c; duplicateCheckUrls := duplicateCheckUrls c;
     lastDomainAccesses := lastDomainAccesses c;
     checkForWorkInterval := checkForWorkInterval c;
     nextWorkCall := nextWorkCall c; workCallTimeout := workCallTimeout c;
     armed := armed c; nextTimer := nextTimer c; nextJid := nextJid c;
     launching := launching c; inFlight := inFlight c; log := log c |}.

Definition set_isClosed (x : bool) (c : t) : t :=
  {| options := options c; workers := workers c;
     allTargetCount := allTargetCount c; jobQueue := jobQueue c;
     errorCount := errorCount c; taskFunction := taskFunction c;
     idleResolvers := idleResolvers c;
     waitForOneResolvers := waitForOneResolvers c; isClosed := x;
     monitoringInterval := monitoringInterval c; display := display c;
     duplicateCheckUrls := duplicateCheckUrls c;
     lastDomainAccesses := lastDomainAccesses c;
     checkForWorkInterval := checkForWorkInterval c;
     nextWorkCall := nextWorkCall c; workCallTimeout := workCallTimeout c;
     armed := armed c; nextTimer := nextTimer c; nextJid := nextJid c;
     launching := launching c; inFlight := inFlight c; log := log c |}.

Definition set_display (x : bool) (c : t) : t :=
  {| options := options c; workers := workers c;
     allTargetCount := allTargetCount c; jobQueue := jobQueue c;
     errorCount := errorCount c; taskFunction := taskFunction c;
     idleResolvers := idleResolvers c;
     waitForOneResolvers := waitForOneResolvers c; isClosed := isClosed c;
     monitoringInterval := monitoringInterval c; display := x;
     duplicateCheckUrls := duplicateCheckUrls c;
     lastDomainAccesses := lastDomainAccesses c;
     checkForWorkInterval := checkForWorkInterval c;
     nextWorkCall := nextWorkCall c; workCallTimeout := workCallTimeout c;
     armed := armed c; nextTimer := nextTimer c; nextJid := nextJid c;
     launching := launching c; inFlight := inFlight c; log := log c |}.

Definition set_duplicateCheckUrls (x : gset string) (c : t) : t :=
  {| options := options c; workers := workers c;
     allTargetCount := allTargetCount c; jobQueue := jobQueue c;
     errorCount := errorCount c; taskFunction := taskFunction c;
     idleResolvers := idleResolvers c;
     waitForOneResolvers := waitForOneResolvers c; isClosed := isClosed c;
     monitoringInterval := monitoringInterval c; display := display c;
     duplicateCheckUrls := x; lastDomainAccesses := lastDomainAccesses c;
     checkForWorkInterval := checkForWorkInterval c;
     nextWorkCall := nextWorkCall c; workCallTimeout := workCallTimeout c;
     armed := armed c; nextTimer := nextTimer c; nextJid := nextJid c;
     launching := launching c; inFlight := inFlight c; log := log c |}.

Definition set_lastDomainAccesses (x : gmap string Z) (c : t) : t :=
  {| options := options c; workers := workers c;
     allTargetCount := allTargetCount c; jobQueue := jobQueue c;
     errorCount := errorCount c; taskFunction := taskFunction c;
     idleResolvers := idleResolvers c;
     waitForOneResolvers := waitForOneResolvers c; isClosed := isClosed c;
     monitoringInterval := monitoringInterval c; display := display c;
     duplicateCheckUrls := duplicateCheckUrls c; lastDomainAccesses := x;
     checkForWorkInterval := checkForWorkInterval c;
     nextWorkCall := nextWorkCall c; workCallTimeout := workCallTimeout c;
     armed := armed c; nextTimer := nextTimer c; nextJid := nextJid c;
     launching := launching c; inFlight := inFlight c; log := log c |}.

Definition set_nextWorkCall (x : Z) (c : t) : t :=
  {| options := options c; workers := workers c;
     allTargetCount := allTargetCount c; jobQueue := jobQueue c;
     errorCount := errorCount c; taskFunction := taskFunction c;
     idleResolvers := idleResolvers c;
     waitForOneResolvers := waitForOneResolvers c; isClosed := isClosed c;
     monitoringInterval := monitoringInterval c; display := display c;
     duplicateCheckUrls := duplicateCheckUrls c;
     lastDomainAccesses := lastDomainAccesses c;
     checkForWorkInterval := checkForWorkInterval c; nextWorkCall := x;
     workCallTimeout := workCallTimeout c; armed := armed c;
     nextTimer := nextTimer c; nextJid := nextJid c;
     launching := launching c; inFlight := inFlight c; log := log c |}.

Definition set_workCallTimeout (x : option Timer) (c : t) : t :=
  {| options := options c; workers := workers c;
     allTargetCount := allTargetCount c; jobQueue := jobQueue c;
     errorCount := errorCount c; taskFunction := taskFunction c;
     idleResolvers := idleResolvers c;
     waitForOneResolvers := waitForOneResolvers c; isClosed := isClosed c;
     monitoringInterval := monitoringInterval c; display := display c;
     duplicateCheckUrls := duplicateCheckUrls c;
     lastDomainAccesses := lastDomainAccesses c;
     checkForWorkInterval := checkForWorkInterval c;
     nextWorkCall := nextWorkCall c; workCallTimeout := x; armed := armed c;
     nextTimer := nextTimer c; nextJid := nextJid c;
     launching := launching c; inFlight := inFlight c; log := log c |}.

Definition set_armed (x : gset Timer) (c : t) : t :=
  {| options := options c; workers := workers c;
     allTargetCount := allTargetCount c; jobQueue := jobQueue c;
     errorCount := errorCount c; taskFunction := taskFunction c;
     idleResolvers := idleResolvers c;
     waitForOneResolvers := waitForOneResolvers c; isClosed := isClosed c;
     monitoringInterval := monitoringInterval c; display := display c;
     duplicateCheckUrls := duplicateCheckUrls c;
     lastDomainAccesses := lastDomainAccesses c;
     checkForWorkInterval := checkForWorkInterval c;
     nextWorkCall := nextWorkCall c; workCallTimeout := workCallTimeout c;
     armed := x; nextTimer := nextTimer c; nextJid := nextJid c;
     launching := launching c; inFlight := inFlight c; log := log c |}.

Definition set_nextTimer (x : Timer) (c : t) : t :=
  {| options := options c; workers := workers c;
     allTargetCount := allTargetCount c; jobQueue := jobQueue c;
     errorCount := errorCount c; taskFunction := taskFunction c;
     idleResolvers := idleResolvers c;
     waitForOneResolvers := waitForOneResolvers c; isClosed := isClosed c;
     monitoringInterval := monitoringInterval c; display := display c;
     duplicateCheckUrls := duplicateCheckUrls c;
     lastDomainAccesses := lastDomainAccesses c;
     checkForWorkInterval := checkForWorkInterval c;
     nextWorkCall := nextWorkCall c; workCallTimeout := workCallTimeout c;
     armed := armed c; nextTimer := x; nextJid := nextJid c;
     launching := launching c; inFlight := inFlight c; log := log c |}.

Definition set_nextJid (x : nat) (c : t) : t :=
  {| options := options c; workers := workers c;
     allTargetCount := allTargetCount c; jobQueue := jobQueue c;
     errorCount := errorCount c; taskFunction := taskFunction c;
     idleResolvers := idleResolvers c;
     waitForOneResolvers := waitForOneResolvers c; isClosed := isClosed c;
     monitoringInterval := monitoringInterval c; display := display c;
     duplicateCheckUrls := duplicateCheckUrls c;
     lastDomainAccesses := lastDomainAccesses c;
     checkForWorkInterval := checkForWorkInterval c;
     nextWorkCall := nextWorkCall c; workCallTimeout := workCallTimeout c;
     armed := armed c; nextTimer := nextTimer c; nextJid := x;
     launching := launching c; inFlight := inFlight c; log := log c |}.

Definition set_launching (x : nat) (c : t) : t :=
  {| options := options c; workers := workers c;
     allTargetCount := allTargetCount c; jobQueue := jobQueue c;
     errorCount := errorCount c; taskFunction := taskFunction c;
     idleResolvers := idleResolvers c;
     waitForOneResolvers := waitForOneResolvers c; isClosed := isClosed c;
     monitoringInterval := monitoringInterval c; display := display c;
     duplicateCheckUrls := duplicateCheckUrls c;
     lastDomainAccesses := lastDomainAccesses c;
     checkForWorkInterval := checkForWorkInterval c;
     nextWorkCall := nextWorkCall c; workCallTimeout := workCallTimeout c;
     armed := armed c; nextTimer := nextTimer c; nextJid := nextJid c;
     launching := x; inFlight := inFlight c; log := log c |}.

Definition set_inFlight (x : list Pending) (c : t) : t :=
  {| options := options c; workers := workers c;
     allTargetCount := allTargetCount c; jobQueue := jobQueue c;
     errorCount := errorCount c; taskFunction := taskFunction c;
     idleResolvers := idleResolvers c;
     waitForOneResolvers := waitForOneResolvers c; isClosed := isClosed c;
     monitoringInterval := monitoringInterval c; display := display c;
     duplicateCheckUrls := duplicateCheckUrls c;
     lastDomainAccesses := lastDomainAccesses c;
     checkForWorkInterval := checkForWorkInterval c;
     nextWorkCall := nextWorkCall c; workCallTimeout := workCallTimeout c;
     armed := armed c; nextTimer := nextTimer c; nextJid := nextJid c;
     launching := launching c; inFlight := x; log := log c |}.

Definition set_log (x : list Effect) (c : t) : t :=
  {| options := options c; workers := workers c;
     allTargetCount := allTargetCount c; jobQueue := jobQueue c;
     errorCount := errorCount c; taskFunction := taskFunction c;
     idleResolvers := idleResolvers c;
     waitForOneResolvers := waitForOneResolvers c; isClosed := isClosed c;
     monitoringInterval := monitoringInterval c; display := display c;
     duplicateCheckUrls := duplicateCheckUrls c;
     lastDomainAccesses := lastDomainAccesses c;
     checkForWorkInterval := checkForWorkInterval c;
     nextWorkCall := nextWorkCall c; workCallTimeout := workCallTimeout c;
     armed := armed c; nextTimer := nextTimer c; nextJid := nextJid c;
     launching := launching c; inFlight := inFlight c; log := x |}.
Definition emit (es : list Effect) (c : t) : t := set_log (log c ++ es) c.

(** [launch(options)]: the constructor followed by [init()]. *)
Definition launch (o : ClusterOptions) : t :=
  let mon := if monitor o then Some O else None in
  let chk := if monitor o then 1%nat else O in
  {| options := o; workers := []; allTargetCount := 0; jobQueue := [];
     errorCount := 0; taskFunction := None; idleResolvers := [];
     waitForOneResolvers := []; isClosed := false;
     monitoringInterval := mon; display := false;
     duplicateCheckUrls := ∅; lastDomainAccesses := ∅;
     checkForWorkInterval := Some chk; nextWorkCall := 0;
     workCallTimeout := None;
     armed := (if monitor o then {[O]} else ∅) ∪ {[chk]};
     nextTimer := S chk; nextJid := O; launching := O; inFlight := [];
     log := [] |}.

Definition task (f : TaskFunction) (c : t) : t := set_taskFunction (Some f) c.

(** [work()]: arm the throttle timer unless one is pending. *)
Definition work (now : Z) (c : t) : t :=
  match workCallTimeout c with
  | Some _ => c
  | None =>
    let next := Z.max (nextWorkCall c + WORK_CALL_INTERVAL_LIMIT) now in
    let h := nextTimer c in
    set_armed ({[h]} ∪ armed c)
      (set_nextTimer (S h)
        (set_workCallTimeout (Some h) (set_nextWorkCall next c)))
  end.

(** The answers of the pool that depend on code outside the sources. *)
Record DispatchEnv : Type := Build_DispatchEnv {
  canLaunchWorker : bool;
  hasFreeCapacity : bool
}.

Definition isDuplicate (c : t) (url : option string) : bool :=
  skipDuplicateUrls (options c) &&
  match url with
  | Some u => bool_decide (u ∈ duplicateCheckUrls c)
  | None => false
  end.

(** The end of the same-domain delay that still holds the job back, if any. *)
Definition domainDelay (now : Z) (c : t) (domain : option string) : option Z :=
  if sameDomainDelay (options c) =? 0 then None
  else match domain with
       | None => None
       | Some d =>
         match lastDomainAccesses c !! d with
         | None => None
         | Some lastDomainAccess =>
           if now <? lastDomainAccess + sameDomainDelay (options c)
           then Some (lastDomainAccess + sameDomainDelay (options c))
           else None
         end
       end.

Definition recordUrl (url : option string) (c : t) : t :=
  match url with
  | Some u =>
    if skipDuplicateUrls (options c)
    then set_duplicateCheckUrls ({[u]} ∪ duplicateCheckUrls c) c
    else c
  | None => c
  end.

Definition recordDomain (now : Z) (domain : option string) (c : t) : t :=
  match domain with
  | Some d =>
    if sameDomainDelay (options c) =? 0 then c
    else set_lastDomainAccesses (<[d := now]> (lastDomainAccesses c)) c
  | None => c
  end.

(** [scheduleNextWork()] *)
Definition scheduleNextWork (env : DispatchEnv) (now : Z) (c : t) : t :=
  if hasFreeCapacity env then work now c else c.

(** [doWork()] up to [await worker.handle(...)].  The result is the state
    at that point and, when [doWork] throws, what it throws.  [Date.now()]
    is read as [now] throughout.  The awaits on the pool ([canHandle],
    [canLaunchWorker], [getWorker]) are taken not to let another [doWork]
    in: from the peek to the hand-over the function is one step, as the
    single dispatch fiber of the spec; [await launchWorker] and
    [await worker.handle] do suspend, and their continuations are steps of
    their own ([launched], [handled]). *)
Definition doWorkAdmit (env : DispatchEnv) (now : Z) (c : t)
  : t * option Thrown :=
  if Nat.eqb (Queue.size (jobQueue c)) 0 then
    if negb (Workers.isAnyJobActive (workers c))
    then (emit (map IdleResolved (idleResolvers c)) c, None)
    else (c, None)
  else
    match Queue.peek now (jobQueue c) with
    | None => (c, None)
    | Some job =>
      let url := Job.getUrl job in
      let domain := Job.getDomain job in
      if isDuplicate c url then
        (work now (set_jobQueue (Queue.remove job (jobQueue c)) c), None)
      else
        match domainDelay now c domain with
        | Some until =>
          (work now
             (set_jobQueue
                (Queue.push job (Some until) (Queue.remove job (jobQueue c)))
                c), None)
        | None =>
          if negb (Workers.canHandle (workers c) job) then
            if canLaunchWorker env
            then (set_launching (S (launching c))
                    (emit [LaunchWorkerCalled job] c), None)
            else (c, None)
          else
            match Workers.getWorker (workers c) job with
            | None => (c, None)
            | Some worker =>
              let c := set_jobQueue (Queue.remove job (jobQueue c)) c in
              let c := recordUrl url c in
              let c := recordDomain now domain c in
              let c := scheduleNextWork env now c in
              let jobFunction :=
                match Job.taskFunction job with
                | Some f => Some f
                | None => taskFunction c
                end in
              match jobFunction with
              | None => (c, Some (ErrorObject "No task function defined!"))
              | Some f =>
                let c :=
                  set_workers
                    (alter (Worker.handleBegin job) worker (workers c)) c in
                let c :=
                  emit [HandleCalled worker job f (timeout (options c))] c in
                (set_inFlight (inFlight c ++ [Build_Pending job worker f]) c,
                 None)
              end
            end
        end
    end.

(** The end of every path of [doWork] that went through [worker.handle]. *)
Definition doWorkFinish (now : Z) (job : Job.t) (c : t) : t :=
  let c :=
    emit (map (fun r => WaitForOneResolved r (Job.data job))
              (waitForOneResolvers c)) c in
  work now (set_waitForOneResolvers [] c).

(** [doWork()] from the point where [worker.handle(...)] has settled.  When
    [handle] threw, the [catch] reads [err.message] for its log line and
    leaves [result] at [null], and reading [result.type] throws. *)
Definition doWorkSettle (now : Z) (job : Job.t)
    (res : Completion Worker.WorkResult) (c : t) : t * option Thrown :=
  match res with
  | Returned (Worker.WorkError error) =>
    if Job.executeCallbacks job then
      let c := emit [CallbackReject (Job.jid job) error] c in
      let c := set_errorCount (errorCount c + 1) c in
      (doWorkFinish now job c, None)
    else
      let job := Job.addError job error in
      let jobWillRetry := Job.tries job <=? retryLimit (options c) in
      let c := emit [EmitTaskError error (Job.data job) jobWillRetry] c in
      if jobWillRetry then
        let delayUntil :=
          if retryDelay (options c) =? 0 then None
          else Some (now + retryDelay (options c)) in
        let c := set_jobQueue (Queue.push job delayUntil (jobQueue c)) c in
        (doWorkFinish now job c, None)
      else
        let c := set_errorCount (errorCount c + 1) c in
        (doWorkFinish now job c, None)
  | Returned (Worker.WorkData data) =>
    if Job.executeCallbacks job then
      let c := emit [CallbackResolve (Job.jid job) data] c in
      (doWorkFinish now job c, None)
    else (doWorkFinish now job c, None)
  | Threw e =>
    (c, Some (default (typeError true "type") (readMessage e)))
  | OutOfFuel => (c, Some (typeError true "type"))
  end.

(** [queueJob(data, taskFunction, callbacks)]; [url] and [domain] are what
    the new job answers to [getUrl()] and [getDomain()]. *)
Definition queueJob (now : Z) (data : JobData) (url domain : option string)
    (taskFunction : option TaskFunction) (callbacks : bool) (c : t) : t :=
  let job :=
    Job.Build (nextJid c) data url domain taskFunction callbacks 0 [] in
  let c := set_nextJid (S (nextJid c)) c in
  let c := set_allTargetCount (allTargetCount c + 1) c in
  let c := set_jobQueue (Queue.push job None (jobQueue c)) c in
  let c := emit [EmitQueue data taskFunction] c in
  work now c.

Definition queue (now : Z) (data : JobData) (url domain : option string)
    (taskFunction : option TaskFunction) (c : t) : t :=
  queueJob now data url domain taskFunction false c.

Definition execute (now : Z) (data : JobData) (url domain : option string)
    (taskFunction : option TaskFunction) (c : t) : t :=
  queueJob now data url domain taskFunction true c.

Definition idle (resolve : nat) (c : t) : t :=
  set_idleResolvers (idleResolvers c ++ [resolve]) c.

Definition waitForOne (resolve : nat) (c : t) : t :=
  set_waitForOneResolvers (waitForOneResolvers c ++ [resolve]) c.

(** [monitor()], as far as the state goes: the display is created. *)
Definition drawMonitor (c : t) : t := emit [MonitorDrawn] (set_display true c).

Definition clearTimer (h : option Timer) (c : t) : t :=
  match h with
  | Some h => set_armed (armed c ∖ {[h]}) c
  | None => c
  end.

Record CloseEnv : Type := Build_CloseEnv {
  (** [workers.close()]: [Some e] when it rejects with [e] *)
  workersCloseOutcome : option Thrown;
  (** [browser.close()]: [Some e] when it rejects with [e] *)
  browserCloseOutcome : option Thrown
}.

(** [close()]: the state it leaves and, when it rejects, with what.
    [await this.workers.close()] is outside the [try]; the [catch] around
    [browser.close()] reads [err.message] for its log line. *)
Definition close (env : CloseEnv) (c : t) : t * option Thrown :=
  let c := set_isClosed true c in
  let c := clearTimer (checkForWorkInterval c) c in
  let c := clearTimer (workCallTimeout c) c in
  let c := emit [WorkersClose] c in
  match workersCloseOutcome env with
  | Some e => (c, Some e)
  | None =>
    let c := emit [BrowserClose] c in
    match browserCloseOutcome env ≫= readMessage with
    | Some e => (c, Some e)
    | None =>
      let c :=
        match monitoringInterval c with
        | Some h => clearTimer (Some h) (drawMonitor c)
        | None => c
        end in
      let c := if display c then emit [DisplayClose] c else c in
      (emit [SystemMonitorClose] c, None)
    end
  end.

(** *** The cluster as a transition system *)

(** What can happen next: a call of the public interface, a timer that
    fires, or an awaited collaborator that settles. *)
Inductive Action : Type :=
| ActTask (f : TaskFunction)
| ActQueue (now : Z) (data : JobData) (url domain : option string)
    (f : option TaskFunction)
| ActExecute (now : Z) (data : JobData) (url domain : option string)
    (f : option TaskFunction)
| ActIdle (resolve : nat)
| ActWaitForOne (resolve : nat)
| ActPoll (now : Z)
| ActWorkTimeout (env : DispatchEnv) (now : Z)
| ActLaunched (now : Z) (browser : Worker.WorkerInstance)
| ActLaunchFailed
| ActHandled (k : nat) (env : Worker.Env) (now : Z)
| ActMonitor
| ActClose (env : CloseEnv).

Definition isArmed (h : option Timer) (c : t) : bool :=
  match h with
  | Some h => bool_decide (h ∈ armed c)
  | None => false
  end.

(** [launchWorker] has resolved: the new worker joins the pool and the
    suspended [doWork] calls [work()].  When it rejects instead
    ([ActLaunchFailed]), the suspended [doWork] ends there. *)
Definition launched (now : Z) (browser : Worker.WorkerInstance) (c : t) : t :=
  let w := Worker.Build (length (workers c)) browser [] in
  work now (set_launching (pred (launching c)) (set_workers (workers c ++ [w]) c)).

(** [worker.handle] settles for the [k]-th suspended [doWork]. *)
Definition handled (k : nat) (env : Worker.Env) (now : Z) (c : t) : option t :=
  p ← inFlight c !! k;
  w ← workers c !! p_worker p;
  let '(res, w', _) :=
    Worker.handleRest env (p_jobFunction p) (p_job p) (timeout (options c)) w in
  let c := set_workers (<[p_worker p := w']> (workers c)) c in
  let c := set_inFlight (delete k (inFlight c)) c in
  Some (doWorkSettle now (p_job p) res c).1.

Definition step (a : Action) (c : t) : option t :=
  match a with
  | ActTask f => Some (task f c)
  | ActQueue now d u dm f => Some (queue now d u dm f c)
  | ActExecute now d u dm f => Some (execute now d u dm f c)
  | ActIdle r => Some (idle r c)
  | ActWaitForOne r => Some (waitForOne r c)
  | ActPoll now =>
    if isArmed (checkForWorkInterval c) c then Some (work now c) else None
  | ActWorkTimeout env now =>
    if isArmed (workCallTimeout c) c
    then Some (doWorkAdmit env now
                 (set_workCallTimeout None (clearTimer (workCallTimeout c) c))).1
    else None
  | ActLaunched now b =>
    if (0 <? launching c)%nat then Some (launched now b c) else None
  | ActLaunchFailed =>
    if (0 <? launching c)%nat
    then Some (set_launching (pred (launching c)) c) else None
  | ActHandled k env now => handled k env now c
  | ActMonitor =>
    if isArmed (monitoringInterval c) c then Some (drawMonitor c) else None
  | ActClose env => Some (close env c).1
  end.

Fixpoint run (acts : list Action) (c : t) : option t :=
  match acts with
  | [] => Some c
  | a :: acts' => c' ← step a c; run acts' c'
  end.

Definition reachable (o : ClusterOptions) (c : t) : Prop :=
  ∃ acts, run acts (launch o) = Some c.

(** Views of the effects. *)
Definition settlement (e : Effect) : option nat :=
  match e with
  | CallbackResolve j _ | CallbackReject j _ => Some j
  | _ => None
  end.

Definition settled (l : list Effect) : list nat := omap settlement l.

Definition dispatchedUrl (e : Effect) : option string :=
  match e with
  | HandleCalled _ job _ _ => Job.getUrl job
  | _ => None
  end.

Definition dispatchedUrls (l : list Effect) : list string :=
  omap dispatchedUrl l.

Definition idleResolution (e : Effect) : option nat :=
  match e with
  | IdleResolved r => Some r
  | _ => None
  end.

Definition inFlightIds (c : t) : list nat :=
  map (fun p => Job.jid (p_job p)) (inFlight c).

(** The jobs that the cluster still holds: queued, or being handled. *)
Definition liveIds (c : t) : list nat :=
  Queue.jids (jobQueue c) ++ inFlightIds c.

(** *** Views used to state the properties *)

Definition isCallback (e : Effect) : bool :=
  match e with
  | CallbackResolve _ _ | CallbackReject _ _ => true
  | _ => false
  end.

(** What one call of [close()] does to the outside when it resolves. *)
Definition closeEffects (c : t) : list Effect :=
  [WorkersClose; BrowserClose]
  ++ match monitoringInterval c with
     | Some _ => [MonitorDrawn; DisplayClose]
     | None => if display c then [DisplayClose] else []
     end
  ++ [SystemMonitorClose].

Definition timerSet (h : option Timer) : gset Timer :=
  match h with
  | Some h => {[h]}
  | None => ∅
  end.

(** The state that a resolved [close()] leaves. *)
Definition closed (c : t) : t :=
  set_log (log c ++ closeEffects c)
    (set_armed
       (armed c ∖ (timerSet (checkForWorkInterval c)
                   ∪ timerSet (workCallTimeout c)
                   ∪ timerSet (monitoringInterval c)))
       (set_display
          (if monitoringInterval c is Some _ then true else display c)
          (set_isClosed true c))).

(** How one step moves the identities of jobs: [gone] leave the cluster,
    [new] enter it, [s] are settled through their callbacks. *)
Definition accounted (c c' : t) : Prop :=
  ∃ kept gone new s,
    liveIds c ≡ₚ gone ++ kept ∧
    liveIds c' ≡ₚ kept ++ new ∧
    (new = [] ∧ nextJid c' = nextJid c ∨
     new = [nextJid c] ∧ nextJid c' = S (nextJid c)) ∧
    settled (log c') = settled (log c) ++ s ∧
    (s = [] ∨ ∃ j, s = [j] ∧ gone = [j]).

Definition jobsAccounted (c : t) : Prop :=
  NoDup (liveIds c) ∧
  (∀ i, i ∈ liveIds c → (i < nextJid c)%nat) ∧
  NoDup (settled (log c)) ∧
  (∀ i, i ∈ settled (log c) → (i < nextJid c)%nat ∧ (i ∉ liveIds c)).

(** A job that was created, that the cluster no longer holds, and whose
    callbacks were not invoked. *)
Definition dropped (i : nat) (c : t) : Prop :=
  (i < nextJid c)%nat ∧ (i ∉ liveIds c) ∧ (i ∉ settled (log c)).

Definition dispatchedOnce (c : t) : Prop :=
  NoDup (dispatchedUrls (log c)) ∧
  (∀ u, u ∈ dispatchedUrls (log c) → u ∈ duplicateCheckUrls c).

(** What one step does to the options, to the set of known URLs and to the
    URLs handed to a worker. *)
Definition dispatching (c c' : t) : Prop :=
  options c' = options c ∧
  duplicateCheckUrls c ⊆ duplicateCheckUrls c' ∧
  (dispatchedUrls (log c') = dispatchedUrls (log c) ∨
   ∃ u, dispatchedUrls (log c') = dispatchedUrls (log c) ++ [u] ∧
        (skipDuplicateUrls (options c) = true →
         (u ∉ duplicateCheckUrls c) ∧ u ∈ duplicateCheckUrls c')).

(** The identities of the jobs in a worker's [activeJobs], and in the
    whole pool. *)
Definition workerIds (w : Worker.t) : list nat :=
  map Job.jid (Worker.activeJobs w).

(** A job object is in the queue or among the active jobs of one worker,
    never both and never twice; the calls in flight are for distinct jobs,
    each active in the worker it was handed to. *)
Definition held (q : Queue.t) (ws : list Worker.t) (fl : list Pending)
    (n : nat) : Prop :=
  NoDup (Queue.jids q ++ (ws ≫= workerIds)) ∧
  NoDup (map (λ p, Job.jid (p_job p)) fl) ∧
  (∀ i, i ∈ Queue.jids q ++ (ws ≫= workerIds) → (i < n)%nat) ∧
  (∀ p, p ∈ fl →
     ∃ w, ws !! p_worker p = Some w ∧ Job.jid (p_job p) ∈ workerIds w).

Definition heldOnce (c : t) : Prop :=
  held (jobQueue c) (workers c) (inFlight c) (nextJid c).

End Cluster.

(** ** Concrete situations *)

Module Scenario.

Definition exampleJob (n : nat) : Job.t :=
  Job.Build n 5 None None None false 0 [].

Definition executeJob (n : nat) : Job.t :=
  Job.Build n 5 None None None true 0 [].

Definition idleWorker (b : Worker.WorkerInstance) : Worker.t :=
  Worker.Build 0 b [].

(** A provider that never yields a job instance. *)
Definition envNoInstance : Worker.Env :=
  {| Worker.jobInstanceAt := λ _ _, None;
     Worker.jobInstanceError := λ _ _, ErrorObject "Target closed";
     Worker.repairAt := λ _, None;
     Worker.taskRun := λ _ _ d _ _, Worker.TaskResolved (2 * d);
     Worker.pageErrorInTask := None;
     Worker.closeOutcome := None;
     Worker.pageErrorInRelease := None |}.

(** A provider whose job instances fail to close. *)
Definition envCloseFails : Worker.Env :=
  {| Worker.jobInstanceAt := λ _ _, Some (Worker.Build_JobInstance 7%nat);
     Worker.jobInstanceError := λ _ _, ErrorObject "Target closed";
     Worker.repairAt := λ _, None;
     Worker.taskRun := λ _ _ d _ _, Worker.TaskResolved (2 * d);
     Worker.pageErrorInTask := None;
     Worker.closeOutcome := Some (ErrorObject "Protocol error: target closed");
     Worker.pageErrorInRelease := None |}.


(** A provider and a task that never fail. *)
Definition envDoubles : Worker.Env :=
  {| Worker.jobInstanceAt := λ _ _, Some (Worker.Build_JobInstance 7%nat);
     Worker.jobInstanceError := λ _ _, ErrorObject "Target closed";
     Worker.repairAt := λ _, None;
     Worker.taskRun := λ _ _ d _ _, Worker.TaskResolved (2 * d);
     Worker.pageErrorInTask := None;
     Worker.closeOutcome := None;
     Worker.pageErrorInRelease := None |}.

Definition envQuiet : Cluster.DispatchEnv :=
  {| Cluster.canLaunchWorker := false; Cluster.hasFreeCapacity := false |}.

Definition envLaunch : Cluster.DispatchEnv :=
  {| Cluster.canLaunchWorker := true; Cluster.hasFreeCapacity := false |}.

Definition envCloseOk : Cluster.CloseEnv :=
  {| Cluster.workersCloseOutcome := None;
     Cluster.browserCloseOutcome := None |}.

(** A fresh cluster on which [idle()] was called once. *)
Definition oneIdleWaiter : Cluster.t :=
  Cluster.idle 1 (Cluster.launch Cluster.DEFAULT_OPTIONS).

Definition optionsSkipDuplicates : Cluster.ClusterOptions :=
  {| Cluster.maxConcurrency := 1; Cluster.workerCreationDelay := 0;
     Cluster.monitor := false; Cluster.timeout := 30 * 1000;
     Cluster.retryLimit := 0; Cluster.retryDelay := 0;
     Cluster.skipDuplicateUrls := true; Cluster.sameDomainDelay := 0 |}.

Definition optionsRetry : Cluster.ClusterOptions :=
  {| Cluster.maxConcurrency := 1; Cluster.workerCreationDelay := 0;
     Cluster.monitor := false; Cluster.timeout := 30 * 1000;
     Cluster.retryLimit := 2; Cluster.retryDelay := 50;
     Cluster.skipDuplicateUrls := false; Cluster.sameDomainDelay := 0 |}.

(** Two [execute] calls for the same URL: a worker is launched, the first
    job runs and resolves, the second job is peeked and found a duplicate. *)
Definition runSameUrlTwice : list Cluster.Action :=
  [Cluster.ActTask 1%nat;
   Cluster.ActExecute 0 5 (Some "https://a") None None;
   Cluster.ActExecute 0 6 (Some "https://a") None None;
   Cluster.ActWorkTimeout envLaunch 10;
   Cluster.ActLaunched 11 (Worker.Build_WorkerInstance None);
   Cluster.ActWorkTimeout envLaunch 21;
   Cluster.ActHandled 0%nat envDoubles 30;
   Cluster.ActWorkTimeout envLaunch 40].

End Scenario.

(** ** Further views *)

Module Trace.

(** The page that a call of the task, or of [jobInstance.close()], is
    about. *)
Definition taskPage (c : Worker.Call) : option Page :=
  match c with
  | Worker.CallTask _ p _ _ _ => Some p
  | _ => None
  end.

Definition closePage (c : Worker.Call) : option Page :=
  match c with
  | Worker.CallClose p => Some p
  | _ => None
  end.

Definition isJobInstance (c : Worker.Call) : bool :=
  match c with
  | Worker.CallJobInstance _ => true
  | _ => false
  end.

Definition isRepair (c : Worker.Call) : bool :=
  match c with
  | Worker.CallRepair => true
  | _ => false
  end.

(** How often a trace calls [jobInstance] and [repair]. *)
Definition jobInstanceCalls (l : list Worker.Call) : nat :=
  length (List.filter isJobInstance l).

Definition repairCalls (l : list Worker.Call) : nat :=
  length (List.filter isRepair l).

End Trace.

Module Timers.
Import Cluster.

(** The part of the state that [setInterval], [setTimeout], [clearInterval]
    and [clearTimeout] read and write, with [nextWorkCall]. *)
Definition timers (c : t)
  : gset Timer * Timer * option Timer * option Timer * option Timer * Z :=
  (armed c, nextTimer c, checkForWorkInterval c, workCallTimeout c,
   monitoringInterval c, nextWorkCall c).

(** The timer handles that the fields of the cluster hold. *)
Definition handles (c : t) : gset Timer :=
  timerSet (checkForWorkInterval c) ∪ timerSet (workCallTimeout c)
  ∪ timerSet (monitoringInterval c).

(** Every armed timer is one whose handle the cluster holds; the handles
    were all handed out already; and the handle of the dispatch timeout is
    neither interval's. *)
Definition timersHeld (c : t) : Prop :=
  armed c ⊆ handles c ∧
  (∀ h, h ∈ handles c → (h < nextTimer c)%nat) ∧
  timerSet (workCallTimeout c)
  ## timerSet (checkForWorkInterval c) ∪ timerSet (monitoringInterval c).

(** [workCallTimeout] holds the handle of a timer that is no longer
    armed. *)
Definition stalled (c : t) : Prop :=
  ∃ h, workCallTimeout c = Some h ∧ h ∉ armed c.


(** What one step may do to the timers: nothing, or what [work()] does. *)
Definition timerMove (c c' : t) : Prop :=
  timers c' = timers c ∨ ∃ now, timers c' = timers (work now c).

(** The jobs handed to a worker so far, with the worker. *)
Definition handOver (e : Effect) : option (nat * Job.t) :=
  match e with
  | HandleCalled w job _ _ => Some (w, job)
  | _ => None
  end.

(** The effects by which [doWork] answers the queue: a job handed to a
    worker, a worker launch asked for, an idle waiter resolved. *)
Definition isDispatch (e : Effect) : bool :=
  match e with
  | HandleCalled _ _ _ _ | LaunchWorkerCalled _ | IdleResolved _ => true
  | _ => false
  end.

End Timers.

Module Progress.
Import Cluster.


(** The identities of the jobs in the [activeJobs] of the pool. *)
Definition activeIds (c : t) : list nat :=
  (workers c : list Worker.t) ≫= workerIds.

(** A job that is among the active jobs of a worker although no call of
    [worker.handle] is in flight for it. *)
Definition stuck (j : nat) (c : t) : Prop :=
  j ∈ activeIds c ∧ j ∉ inFlightIds c.

(** [monitor()]: the number shown as done,
    [allTargetCount - jobQueue.size() - workers.busyWorkersCount()]. *)
Definition doneTargets (c : t) : Z :=
  allTargetCount c - Z.of_nat (Queue.size (jobQueue c))
  - Z.of_nat (Workers.busyCount (workers c)).

(** The jobs that are accounted for: queued, active in a worker, or counted
    as failed. *)
Definition counted (c : t) : Prop :=
  0 ≤ errorCount c ∧
  allTargetCount c = Z.of_nat (nextJid c) ∧
  Z.of_nat (Queue.size (jobQueue c)) + Z.of_nat (length (activeIds c))
  + errorCount c ≤ allTargetCount c.

(** With [skipDuplicateUrls], the URL of every job that a worker is
    handling, and of every queued job that failed before, is in the
    duplicate set. *)
Definition retriesKnown (c : t) : Prop :=
  skipDuplicateUrls (options c) = true →
  (∀ p u, p ∈ inFlight c → Job.getUrl (p_job p) = Some u →
          u ∈ duplicateCheckUrls c) ∧
  (∀ en u, en ∈ jobQueue c → Job.errors (Queue.item en) ≠ [] →
           Job.getUrl (Queue.item en) = Some u → u ∈ duplicateCheckUrls c).





(** The state in which the callback of the dispatch timeout calls
    [doWork]: [this.workCallTimeout = null], the timer having fired. *)
Definition atTimeout (c : t) : t :=
  set_workCallTimeout None (clearTimer (workCallTimeout c) c).

End Progress.

Module Scenario2.
Import Cluster Scenario.

(** One [execute] call whose job is handed to a worker that never gets a
    page: [worker.handle] throws. *)
Definition runHandleThrows : list Action :=
  [ActTask 1%nat;
   ActExecute 0 5 None None None;
   ActWorkTimeout envLaunch 10;
   ActLaunched 11 (Worker.Build_WorkerInstance None);
   ActWorkTimeout envLaunch 21]
  ++ ActHandled 0%nat envNoInstance 30
     :: [ActIdle 1%nat; ActPoll 40; ActWorkTimeout envLaunch 50].

(** An [execute] call on a cluster that was given no task function, up to
    the launch of the first worker. *)
Definition runNoTask : list Action :=
  [ActExecute 0 5 None None None;
   ActWorkTimeout envLaunch 10;
   ActLaunched 11 (Worker.Build_WorkerInstance None)].

Definition optionsRetrySkip : ClusterOptions :=
  {| maxConcurrency := 1; workerCreationDelay := 0; monitor := false;
     timeout := 30 * 1000; retryLimit := 2; retryDelay := 0;
     skipDuplicateUrls := true; sameDomainDelay := 0 |}.

Definition envTaskFails : Worker.Env :=
  {| Worker.jobInstanceAt := λ _ _, Some (Worker.Build_JobInstance 7%nat);
     Worker.jobInstanceError := λ _ _, ErrorObject "Target closed";
     Worker.repairAt := λ _, None;
     Worker.taskRun := λ _ _ _ _ _,
       Worker.TaskRejected (ErrorObject "net::ERR_FAILED");
     Worker.pageErrorInTask := None;
     Worker.closeOutcome := None;
     Worker.pageErrorInRelease := None |}.

(** A queued job with a URL whose task fails once, under a retry limit of
    two and [skipDuplicateUrls]. *)
Definition runRetryUrl : list Action :=
  [ActTask 1%nat;
   ActQueue 0 5 (Some "https://a") None None;
   ActWorkTimeout envLaunch 10;
   ActLaunched 11 (Worker.Build_WorkerInstance None);
   ActWorkTimeout envLaunch 21;
   ActHandled 0%nat envTaskFails 30].



End Scenario2.

Module Scenario3.
Import Cluster Scenario.

Definition optionsSameDomain : ClusterOptions :=
  {| maxConcurrency := 1; workerCreationDelay := 0; monitor := false;
     timeout := 30 * 1000; retryLimit := 0; retryDelay := 0;
     skipDuplicateUrls := false; sameDomainDelay := 1000 |}.

(** A cluster with one queued job for a domain that was accessed at time
    [100], under a same-domain delay of one second. *)
Definition domainSeen : t :=
  set_lastDomainAccesses {[ "a.example" := 100 ]}
    (queue 0 5 (Some "https://a.example/x") (Some "a.example") None
       (launch optionsSameDomain)).

End Scenario3.

(** ** [monitor()], the lines about the workers *)

Module Monitor.

(** [workerUrl]: the targets of the active jobs, to be joined with [", "],
    or the text "NO TARGET (should not be happening)". *)
Inductive WorkerUrl : Type :=
| Targets (urls : list string)
| NoTarget.

(** What [monitor()] prints about one worker: [workOrIdle]; [jobCount],
    which is the text "n JOBS: " when it is [Some n] and empty otherwise;
    and [workerUrl], empty when it is [None]. *)
Record WorkerLine : Type := Build_WorkerLine {
  workOrIdle : string;
  jobCount : option nat;
  workerUrl : option WorkerUrl
}.

(** [j.getUrl() || "UNKNOWN TARGET"] *)
Definition target (j : Job.t) : string :=
  match Job.getUrl j with
  | Some (String a u) => String a u
  | Some EmptyString | None => "UNKNOWN TARGET"
  end.

Definition workerLine (w : Worker.t) : WorkerLine :=
  if Worker.isIdle w then Build_WorkerLine "IDLE" None None
  else
    let jobs := Worker.activeJobs w in
    Build_WorkerLine "WORK"
      (if (1 <? length jobs)%nat then Some (length jobs) else None)
      (Some (if (0 <? length jobs)%nat
             then Targets (map target jobs) else NoTarget)).

End Monitor.

(** ** [Cluster.launch]: the constructor and [init()] *)

Module Launch.
Import Cluster.








End Launch.

Module Scenario4.
Import Cluster.



End Scenario4.

(** ** The built-in implementation [Context]
    ([dist/concurrency/built-in/Context.js]) *)

Module Concurrency.

Definition BrowserContext : Type := nat.

(** What [createResources] returns, [{context, page}]; [context] is
    [None] on resources that carry none. *)
Record ResourceData : Type := Build_ResourceData {
  context : option BrowserContext;
  page : Page
}.

(** The calls made to puppeteer, in order:
    [browser.createIncognitoBrowserContext()], [context.newPage()],
    [context.close()]. *)
Inductive BrowserCall : Type :=
| CallCreateIncognitoBrowserContext
| CallNewPage (ctx : BrowserContext)
| CallContextClose (ctx : BrowserContext).

(** How puppeteer answers: the page or context it yields, or the value it
    rejects with. *)
Record BrowserEnv : Type := Build_BrowserEnv {
  createIncognitoBrowserContext : BrowserContext + Thrown;
  newPage : BrowserContext -> Page + Thrown;
  contextClose : BrowserContext -> option Thrown
}.

Definition settle (r : option Thrown) : Completion unit :=
  match r with
  | None => Returned tt
  | Some e => Threw e
  end.

Module Context.

Definition createResources (env : BrowserEnv)
  : Completion ResourceData * list BrowserCall :=
  match createIncognitoBrowserContext env with
  | inr e => (Threw e, [CallCreateIncognitoBrowserContext])
  | inl context =>
    let calls := [CallCreateIncognitoBrowserContext; CallNewPage context] in
    match newPage env context with
    | inl page => (Returned (Build_ResourceData (Some context) page), calls)
    | inr e => (Threw e, calls)
    end
  end.

(** [resources.context.close()]; on resources without a context, reading
    [close] of [undefined] throws. *)
Definition freeResources (env : BrowserEnv) (resources : ResourceData)
  : Completion unit * list BrowserCall :=
  match context resources with
  | Some ctx => (settle (contextClose env ctx), [CallContextClose ctx])
  | None =>
    (Threw (ErrorObject
              "Cannot read properties of undefined (reading 'close')"), [])
  end.

End Context.

(** The contexts that a trace closes. *)
Definition closedContext (c : BrowserCall) : option BrowserContext :=
  match c with
  | CallContextClose ctx => Some ctx
  | _ => None
  end.

End Concurrency.

Module Scenario5.
Import Concurrency.

(** A browser that creates the context [3] and then fails to open a page
    in it. *)
Definition envNoPageInContext : BrowserEnv :=
  {| createIncognitoBrowserContext := inl 3%nat;
     newPage := λ _, inr (ErrorObject "Target closed");
     contextClose := λ _, None |}.

End Scenario5.

(** * Properties *)

(** ** The worker *)

Section WorkerFacts.
Import Worker Scenario.

(** *** The acquisition loop *)

Lemma readMessage_readable e : nullish e = false → readMessage e = None.
Proof. by destruct e. Qed.

Lemma readMessage_nullish e e' :
  readMessage e = Some e' →
  ∃ null, e = Nullish null ∧ e' = typeError null "message".
Proof. destruct e as [m| |null]; [done..|]. intros [= <-]. by exists null. Qed.

Lemma acquire_never_out_of_fuel env d fuel tries calls :
  (tries < BROWSER_INSTANCE_TRIES)%nat →
  (BROWSER_INSTANCE_TRIES ≤ fuel + tries)%nat →
  acquire env d fuel tries calls ≠ AcquireOutOfFuel.
Proof.
  revert tries calls.
  induction fuel as [|fuel IH]; intros tries calls Hlt Hfuel; [lia|].
  cbn [acquire]. destruct (jobInstanceAt env tries d); [discriminate|].
  destruct (readMessage (jobInstanceError env tries d)); [discriminate|].
  destruct (repairAt env tries); [discriminate|].
  destruct (Nat.leb_spec BROWSER_INSTANCE_TRIES (S tries)); [discriminate|].
  apply IH; lia.
Qed.

Lemma acquire_exhausted env d fuel tries calls :
  (tries < BROWSER_INSTANCE_TRIES)%nat →
  (BROWSER_INSTANCE_TRIES ≤ fuel + tries)%nat →
  (∀ n, (n < BROWSER_INSTANCE_TRIES)%nat → jobInstanceAt env n d = None) →
  (∀ n, nullish (jobInstanceError env n d) = false) →
  (∀ n, repairAt env n = None) →
  acquire env d fuel tries calls =
    AcquireThrew (ErrorObject "Unable to get browser page")
      (calls ++ mjoin (replicate (BROWSER_INSTANCE_TRIES - tries)
                         [CallJobInstance d; CallRepair])).
Proof.
  intros Hlt Hfuel Hfail Hread Hrep. revert tries calls Hlt Hfuel.
  induction fuel as [|fuel IH]; intros tries calls Hlt Hfuel; [lia|].
  cbn [acquire]. rewrite Hfail by done.
  rewrite readMessage_readable by done. rewrite Hrep.
  destruct (Nat.leb_spec BROWSER_INSTANCE_TRIES (S tries)) as [Hge|Hlt'].
  - replace (BROWSER_INSTANCE_TRIES - tries)%nat with 1%nat by lia.
    reflexivity.
  - rewrite IH by lia.
    replace (BROWSER_INSTANCE_TRIES - tries)%nat
      with (S (BROWSER_INSTANCE_TRIES - S tries)) by lia.
    simpl. by rewrite <- app_assoc.
Qed.

Lemma acquire_succeeds env d fuel tries calls :
  (tries < BROWSER_INSTANCE_TRIES)%nat →
  (BROWSER_INSTANCE_TRIES ≤ fuel + tries)%nat →
  (∀ n, nullish (jobInstanceError env n d) = false) →
  (∀ n, repairAt env n = None) →
  (∃ n, (tries ≤ n < BROWSER_INSTANCE_TRIES)%nat ∧
        jobInstanceAt env n d ≠ None) →
  ∃ ji k calls', acquire env d fuel tries calls = GotInstance ji k calls'.
Proof.
  intros Hlt Hfuel Hread Hrep. revert tries calls Hlt Hfuel.
  induction fuel as [|fuel IH]; intros tries calls Hlt Hfuel [n [Hn Hsome]];
    [lia|].
  cbn [acquire]. destruct (jobInstanceAt env tries d) eqn:Hji; [by eauto|].
  rewrite readMessage_readable by done. rewrite Hrep.
  assert (n ≠ tries) by congruence.
  destruct (Nat.leb_spec BROWSER_INSTANCE_TRIES (S tries)); [lia|].
  apply IH; [lia..|]. exists n. split; [lia|done].
Qed.


(** The fuel given to the loop is never used up: [handle] returns or
    throws. *)
Lemma handle_never_out_of_fuel env task job timeout w :
  (handle env task job timeout w).1.1 ≠ OutOfFuel.
Proof.
  unfold handle, handleRest, runTask, release.
  pose proof (acquire_never_out_of_fuel env (Job.data job)
                BROWSER_INSTANCE_TRIES 0 []) as Hfuel.
  destruct (acquire env (Job.data job) BROWSER_INSTANCE_TRIES 0 [])
    as [ji k calls| |]; [|done|].
  - repeat case_match; by simplify_eq/=.
  - exfalso. apply Hfuel; [|lia|done]. unfold BROWSER_INSTANCE_TRIES. lia.
Qed.

Lemma handle_returns env task job timeout w :
  (∀ n, repairAt env n = None) →
  (∀ n, nullish (jobInstanceError env n (Job.data job)) = false) →
  (∃ n, (n < BROWSER_INSTANCE_TRIES)%nat ∧
        jobInstanceAt env n (Job.data job) ≠ None) →
  (∀ p e, taskRun env task p (Job.data job) (id w) timeout = TaskRejected e →
          nullish e = false) →
  (∀ e, closeOutcome env = Some e → nullish e = false) →
  ∃ r, (handle env task job timeout w).1.1 = Returned r.
Proof.
  intros Hrep Hread [n [Hn Hsome]] Htask Hclose.
  destruct (acquire_succeeds env (Job.data job) BROWSER_INSTANCE_TRIES 0 [])
    as (ji & k & calls & Hacq);
    [unfold BROWSER_INSTANCE_TRIES; lia..|done|done| |].
  { exists n. split; [lia|done]. }
  unfold handle, handleRest, runTask, release. rewrite Hacq.
  cbn [handleBegin id set_activeJobs].
  destruct (taskRun env task (page ji) (Job.data job) (id w) timeout)
    as [v|e] eqn:Ht;
    [|rewrite (readMessage_readable e) by eauto];
    (destruct (closeOutcome env) as [e'|] eqn:Hc;
     [rewrite (readMessage_readable e') by eauto; rewrite Hrep|]);
    repeat case_match; simplify_eq/=; eauto.
Qed.

(** C1, as amended.  As long as no call of [provider.repair()] rejects and
    no call of [provider.jobInstance] rejects with [null] or [undefined],
    [Worker.handle] returns a [WorkResult] whenever one of the
    [BROWSER_INSTANCE_TRIES = 10] calls of [provider.jobInstance] yields an
    instance and neither the task nor [jobInstance.close()] rejects with
    [null] or [undefined] (every [catch] block reads [err.message]); when
    all ten calls fail, [repair] having been called after each failure,
    [handle] does not return an error result: it throws an [Error] whose
    message is "Unable to get browser page". *)
Theorem handle_returns_or_throws_unable env task job timeout w :
  (∀ n, repairAt env n = None) →
  (∀ n, nullish (jobInstanceError env n (Job.data job)) = false) →
  ((∃ n, (n < BROWSER_INSTANCE_TRIES)%nat ∧
         jobInstanceAt env n (Job.data job) ≠ None) →
   (∀ p e, taskRun env task p (Job.data job) (id w) timeout = TaskRejected e →
           nullish e = false) →
   (∀ e, closeOutcome env = Some e → nullish e = false) →
   ∃ r, (handle env task job timeout w).1.1 = Returned r) ∧
  ((∀ n, (n < BROWSER_INSTANCE_TRIES)%nat →
         jobInstanceAt env n (Job.data job) = None) →
   (handle env task job timeout w).1.1
     = Threw (ErrorObject "Unable to get browser page") ∧
   (handle env task job timeout w).2
     = mjoin (replicate BROWSER_INSTANCE_TRIES
                [CallJobInstance (Job.data job); CallRepair])).
Proof.
  intros Hrep Hread. split; [by apply handle_returns|].
  intros Hnone. unfold handle, handleRest.
  rewrite (acquire_exhausted env (Job.data job) BROWSER_INSTANCE_TRIES 0 [])
    by (done || unfold BROWSER_INSTANCE_TRIES; lia).
  rewrite Nat.sub_0_r. done.
Qed.

Lemma handle_returns_or_throws_unable_witness :
  (∃ r, (handle envCloseFails 0%nat (exampleJob 0) 30000
           (idleWorker (Build_WorkerInstance None))).1.1 = Returned r) ∧
  (handle envNoInstance 0%nat (exampleJob 0) 30000
     (idleWorker (Build_WorkerInstance None))).1.1
  = Threw (ErrorObject "Unable to get browser page").
Proof.
  split.
  - apply (handle_returns_or_throws_unable envCloseFails); [done|done| | |].
    + exists 0%nat. split; [unfold BROWSER_INSTANCE_TRIES; lia|done].
    + intros p e. discriminate.
    + by intros e [= <-].
  - apply (handle_returns_or_throws_unable envNoInstance); [done|done|].
    intros n _. reflexivity.
Defined.

(** C1, as stated, fails: with a provider whose [jobInstance] always
    rejects, [handle] throws after ten repairs and returns no result. *)
Lemma handle_throws_after_ten_failed_acquisitions :
  let out := handle envNoInstance 0%nat (exampleJob 0) 30000
               (idleWorker (Build_WorkerInstance None)) in
  out.1.1 = Threw (ErrorObject "Unable to get browser page") ∧
  (¬ ∃ r, out.1.1 = Returned r) ∧
  length (List.filter (λ c, match c with CallRepair => true | _ => false end)
            out.2) = 10%nat.
Proof.
  vm_compute. split; [done|]. split; [|done]. intros [r Hr]. discriminate.
Qed.

(** *** Routing *)

(** C3, as amended.  [Worker.canHandle(job)] is true when the provider
    defines [canHandle] and it answers true for [job.data]; when the
    provider's [canHandle] answers false, and when the provider does not
    define it, the result is whether [activeJobs] is empty. *)
Theorem canHandle_hook_or_idle w job :
  canHandle w job =
    match wi_canHandle (browser w) with
    | Some f => if f (Job.data job) then true else isIdle w
    | None => isIdle w
    end.
Proof. unfold canHandle, isIdle. by destruct (wi_canHandle _) as [f|]. Qed.

(** C3, as stated, fails: an idle worker whose provider defines
    [canHandle] and answers false can still handle the job. *)
Lemma canHandle_true_although_hook_false :
  let w := idleWorker (Build_WorkerInstance (Some (λ _, false))) in
  ∃ f, wi_canHandle (browser w) = Some f ∧
       f (Job.data (exampleJob 0)) = false ∧
       canHandle w (exampleJob 0) = true.
Proof. eexists. split; [reflexivity|]. split; reflexivity. Qed.

(** *** Active jobs *)

Lemma same_refl j : Job.same j j = true.
Proof. apply Nat.eqb_refl. Qed.

Lemma indexOf_bound j l i : indexOf j l = Some i → (i < length l)%nat.
Proof.
  revert i. induction l as [|x l IH]; intros i; simpl; [done|].
  destruct (Job.same x j); [intros [= <-]; lia|].
  destruct (indexOf j l) as [k|]; simpl; [|done].
  intros [= <-]. specialize (IH k eq_refl). lia.
Qed.

Lemma indexOf_pushed j l : ∃ i, indexOf j (l ++ [j]) = Some i.
Proof.
  induction l as [|x l [i IH]]; simpl.
  - rewrite same_refl. eauto.
  - destruct (Job.same x j); [eauto|]. rewrite IH. simpl. eauto.
Qed.

Lemma indexOf_pushed_fresh j l :
  indexOf j l = None → indexOf j (l ++ [j]) = Some (length l).
Proof.
  induction l as [|x l IH]; simpl.
  - by rewrite same_refl.
  - destruct (Job.same x j); [done|].
    destruct (indexOf j l); simpl; [done|]. intros _. by rewrite IH.
Qed.

Lemma delete_pushed {A} (l : list A) x : delete (length l) (l ++ [x]) = l.
Proof. induction l as [|y l IH]; simpl; [done|]. by rewrite IH. Qed.

Lemma spliceJob_pushed_fresh j l :
  indexOf j l = None → spliceJob j (l ++ [j]) = l.
Proof.
  intros H. unfold spliceJob. rewrite indexOf_pushed_fresh by done.
  apply delete_pushed.
Qed.

Lemma spliceJob_pushed_length j l :
  length (spliceJob j (l ++ [j])) = length l.
Proof.
  unfold spliceJob. destruct (indexOf_pushed j l) as [i Hi]. rewrite Hi.
  apply indexOf_bound in Hi.
  rewrite length_delete; [|by apply lookup_lt_is_Some_2].
  rewrite length_app. simpl. lia.
Qed.

Lemma handleRest_returned_worker env task job timeout w r w' calls :
  handleRest env task job timeout w = (Returned r, w', calls) →
  w' = set_activeJobs (spliceJob job (activeJobs w)) w.
Proof.
  unfold handleRest, runTask, release.
  destruct (acquire env (Job.data job) BROWSER_INSTANCE_TRIES 0 [])
    as [ji k calls0| |]; [|done..].
  repeat case_match; intros; by simplify_eq/=.
Qed.







(** Whatever the active jobs were, a returning call leaves their number,
    hence [isIdle], unchanged. *)
Lemma handle_keeps_activeJobs_length env task job timeout w r w' calls :
  handle env task job timeout w = (Returned r, w', calls) →
  length (activeJobs w') = length (activeJobs w) ∧ isIdle w' = isIdle w.
Proof.
  intros H. apply handleRest_returned_worker in H.
  assert (length (activeJobs w') = length (activeJobs w)) as Hlen.
  { rewrite H. simpl. apply spliceJob_pushed_length. }
  unfold isIdle. by rewrite Hlen.
Qed.

(** *** The calls that [handle] makes *)

Lemma acquire_after_failures env d ji k fuel tries calls :
  (k < BROWSER_INSTANCE_TRIES)%nat →
  (tries ≤ k)%nat →
  (BROWSER_INSTANCE_TRIES ≤ fuel + tries)%nat →
  (∀ n, (tries ≤ n < k)%nat →
        jobInstanceAt env n d = None ∧
        nullish (jobInstanceError env n d) = false ∧
        repairAt env n = None) →
  jobInstanceAt env k d = Some ji →
  acquire env d fuel tries calls
  = GotInstance ji k
      (calls ++ mjoin (replicate (k - tries) [CallJobInstance d; CallRepair])
             ++ [CallJobInstance d]).
Proof.
  intros Hk. revert tries calls.
  induction fuel as [|fuel IH]; intros tries calls Hle Hfuel Hfail Hgot;
    [lia|].
  cbn [acquire]. destruct (decide (tries = k)) as [->|Hne].
  - rewrite Hgot, Nat.sub_diag. done.
  - destruct (Hfail tries) as (-> & Hread & ->); [lia|].
    rewrite readMessage_readable by done.
    destruct (Nat.leb_spec BROWSER_INSTANCE_TRIES (S tries)); [lia|].
    rewrite IH; [|lia..| |done].
    + replace (k - tries)%nat with (S (k - S tries)) by lia.
      simpl. by rewrite <- !app_assoc.
    + intros n Hn. apply Hfail. lia.
Qed.

(** X1.  When the first [k < 10] calls of [jobInstance] fail, none of them
    with [null] or [undefined], each followed by a [repair] that resolves,
    and the next call yields an instance, when the task does not reject
    with [null] or [undefined], and when [close], if it fails, does not
    reject with [null] or [undefined] and is followed by a [repair] that
    resolves, [handle] returns a result after exactly these calls: [k] times
    [jobInstance] and [repair], then [jobInstance], the task once on the
    page of the instance, [close] once, and one more [repair] only when the
    close failed. *)
Theorem handle_after_failed_attempts env task job timeout w k ji :
  (k < BROWSER_INSTANCE_TRIES)%nat →
  (∀ n, (n < k)%nat →
        jobInstanceAt env n (Job.data job) = None ∧
        nullish (jobInstanceError env n (Job.data job)) = false ∧
        repairAt env n = None) →
  jobInstanceAt env k (Job.data job) = Some ji →
  (∀ e, taskRun env task (page ji) (Job.data job) (id w) timeout
        = TaskRejected e → nullish e = false) →
  (∀ e, closeOutcome env = Some e →
        nullish e = false ∧ repairAt env k = None) →
  (∃ r, (handle env task job timeout w).1.1 = Returned r) ∧
  (handle env task job timeout w).2
  = mjoin (replicate k [CallJobInstance (Job.data job); CallRepair])
    ++ [CallJobInstance (Job.data job);
        CallTask task (page ji) (Job.data job) (id w) timeout;
        CallClose (page ji)]
    ++ (if closeOutcome env is Some _ then [CallRepair] else []).
Proof.
  intros Hk Hfail Hgot Htask Hrep. unfold handle, handleRest, runTask, release.
  assert (acquire env (Job.data job) BROWSER_INSTANCE_TRIES 0 []
          = GotInstance ji k
              ([] ++ mjoin (replicate (k - 0)
                              [CallJobInstance (Job.data job); CallRepair])
                  ++ [CallJobInstance (Job.data job)])) as ->.
  { apply acquire_after_failures;
      [done|lia|lia| |done]. intros n Hn. apply Hfail. lia. }
  rewrite Nat.sub_0_r. cbn [app handleBegin id set_activeJobs page].
  destruct (closeOutcome env) as [e|];
    [destruct (Hrep e eq_refl) as [Hread ->];
     rewrite (readMessage_readable e Hread)|];
    (destruct (taskRun env _ _ _ _ _) as [v|e0];
     [|rewrite (readMessage_readable e0) by eauto]);
    destruct (pageErrorInRelease env) as [e1|];
    try destruct (pageErrorInTask env) as [e2|];
    repeat match goal with |- context [truthy ?x] => destruct (truthy x) end;
    cbn [fst snd]; (split; [by eauto|]); by rewrite <- ?app_assoc.
Qed.

Lemma handle_after_failed_attempts_witness :
  (handle
     {| jobInstanceAt := λ n _,
          if (n <? 9)%nat then None else Some (Build_JobInstance 7%nat);
        jobInstanceError := λ _ _, ErrorObject "Target closed";
        repairAt := λ _, None;
        taskRun := λ _ _ d _ _, TaskResolved (2 * d);
        pageErrorInTask := None; closeOutcome := None;
        pageErrorInRelease := None |}
     0%nat (exampleJob 0) 30000 (idleWorker (Build_WorkerInstance None))).2
  = mjoin (replicate 9 [CallJobInstance 5; CallRepair])
    ++ [CallJobInstance 5; CallTask 0%nat 7%nat 5 0%nat 30000;
        CallClose 7%nat].
Proof.
  pose proof (handle_after_failed_attempts
    {| jobInstanceAt := λ n _,
         if (n <? 9)%nat then None else Some (Build_JobInstance 7%nat);
       jobInstanceError := λ _ _, ErrorObject "Target closed";
       repairAt := λ _, None;
       taskRun := λ _ _ d _ _, TaskResolved (2 * d);
       pageErrorInTask := None; closeOutcome := None;
       pageErrorInRelease := None |}
    0%nat (exampleJob 0) 30000 (idleWorker (Build_WorkerInstance None))
    9%nat (Build_JobInstance 7%nat)) as H.
  destruct H as [_ H].
  - unfold BROWSER_INSTANCE_TRIES. lia.
  - intros n Hn. simpl. destruct (Nat.ltb_spec n 9); [done|lia].
  - done.
  - intros e. discriminate.
  - intros e. discriminate.
  - rewrite H. reflexivity.
Defined.

(** What the acquisition loop did, read off its outcome. *)
Lemma acquire_calls env d fuel tries calls :
  match acquire env d fuel tries calls with
  | GotInstance ji k calls' =>
    (tries ≤ k < tries + fuel)%nat ∧
    jobInstanceAt env k d = Some ji ∧
    (∀ n, (tries ≤ n < k)%nat →
          jobInstanceAt env n d = None ∧ repairAt env n = None) ∧
    calls' = calls
             ++ mjoin (replicate (k - tries) [CallJobInstance d; CallRepair])
             ++ [CallJobInstance d]
  | AcquireThrew e calls' =>
    ∃ k, (tries ≤ k < tries + fuel)%nat ∧
         (∀ n, (tries ≤ n ≤ k)%nat → jobInstanceAt env n d = None) ∧
         (∀ n, (tries ≤ n < k)%nat → repairAt env n = None) ∧
         (readMessage (jobInstanceError env k d) = Some e ∧
          calls' = calls
                   ++ mjoin (replicate (k - tries)
                               [CallJobInstance d; CallRepair])
                   ++ [CallJobInstance d] ∨
          calls' = calls
                   ++ mjoin (replicate (S k - tries)
                               [CallJobInstance d; CallRepair]) ∧
          (repairAt env k = Some e ∨
           (repairAt env k = None ∧ (BROWSER_INSTANCE_TRIES ≤ S k)%nat ∧
            e = ErrorObject "Unable to get browser page")))
  | AcquireOutOfFuel => True
  end.
Proof.
  revert tries calls. induction fuel as [|fuel IH]; intros tries calls;
    [done|].
  cbn [acquire]. destruct (jobInstanceAt env tries d) as [ji|] eqn:Hji.
  { split; [lia|]. split; [done|]. split; [intros; lia|].
    by rewrite Nat.sub_diag. }
  destruct (readMessage (jobInstanceError env tries d)) as [e|] eqn:Hread.
  { exists tries. split; [lia|]. split.
    { intros n Hn. by replace n with tries by lia. }
    split; [intros; lia|]. left. split; [done|]. by rewrite Nat.sub_diag. }
  destruct (repairAt env tries) as [e|] eqn:Hrep.
  { exists tries. split; [lia|]. split.
    { intros n Hn. by replace n with tries by lia. }
    split; [intros; lia|]. right. split; [|by left].
    by replace (S tries - tries)%nat with 1%nat by lia. }
  destruct (Nat.leb_spec BROWSER_INSTANCE_TRIES (S tries)) as [Hge|Hlt].
  { exists tries. split; [lia|]. split.
    { intros n Hn. by replace n with tries by lia. }
    split; [intros; lia|]. right. split; [|by right].
    by replace (S tries - tries)%nat with 1%nat by lia. }
  specialize (IH (S tries) (calls ++ [CallJobInstance d; CallRepair])).
  destruct (acquire env d fuel (S tries)
              (calls ++ [CallJobInstance d; CallRepair]))
    as [ji k calls'|e calls'|]; [| |done].
  - destruct IH as (Hk & Hgot & Hfail & ->).
    split; [lia|]. split; [done|]. split.
    + intros n Hn. destruct (decide (n = tries)) as [->|]; [done|].
      apply Hfail. lia.
    + replace (k - tries)%nat with (S (k - S tries)) by lia.
      simpl. by rewrite <- !app_assoc.
  - destruct IH as (k & Hk & Hfail & Hrepair & Hcause).
    exists k. split; [lia|]. split.
    { intros n Hn. destruct (decide (n = tries)) as [->|]; [done|].
      apply Hfail. lia. }
    split.
    { intros n Hn. destruct (decide (n = tries)) as [->|]; [done|].
      apply Hrepair. lia. }
    destruct Hcause as [[Hnull ->]|[-> Hcause]]; [left|right].
    + split; [done|].
      replace (k - tries)%nat with (S (k - S tries)) by lia.
      simpl. by rewrite <- !app_assoc.
    + split; [|done].
      replace (S k - tries)%nat with (S (S k - S tries)) by lia.
      simpl. by rewrite <- !app_assoc.
Qed.

Lemma attempts_pages d n :
  omap Trace.taskPage (mjoin (replicate n [CallJobInstance d; CallRepair]))
  = [] ∧
  omap Trace.closePage (mjoin (replicate n [CallJobInstance d; CallRepair]))
  = [].
Proof.
  induction n as [|n [IH1 IH2]]; [done|].
  change (mjoin (replicate (S n) [CallJobInstance d; CallRepair]))
    with ([CallJobInstance d; CallRepair]
          ++ mjoin (replicate n [CallJobInstance d; CallRepair])).
  by rewrite !omap_app, IH1, IH2.
Qed.

Lemma attempts_count d n :
  Trace.jobInstanceCalls
    (mjoin (replicate n [CallJobInstance d; CallRepair])) = n ∧
  Trace.repairCalls
    (mjoin (replicate n [CallJobInstance d; CallRepair])) = n.
Proof.
  unfold Trace.jobInstanceCalls, Trace.repairCalls.
  induction n as [|n [IH1 IH2]]; [done|].
  change (mjoin (replicate (S n) [CallJobInstance d; CallRepair]))
    with ([CallJobInstance d; CallRepair]
          ++ mjoin (replicate n [CallJobInstance d; CallRepair])).
  by rewrite !List.filter_app, !length_app, IH1, IH2.
Qed.

Lemma handle_acquisition env task job timeout w :
  (∃ ji k calls,
     acquire env (Job.data job) BROWSER_INSTANCE_TRIES 0 []
     = GotInstance ji k calls ∧
     (k < BROWSER_INSTANCE_TRIES)%nat ∧
     jobInstanceAt env k (Job.data job) = Some ji ∧
     calls = mjoin (replicate k [CallJobInstance (Job.data job); CallRepair])
             ++ [CallJobInstance (Job.data job)]) ∨
  (∃ e k calls,
     handle env task job timeout w = (Threw e, handleBegin job w, calls) ∧
     (k < BROWSER_INSTANCE_TRIES)%nat ∧
     (∀ n, (n ≤ k)%nat → jobInstanceAt env n (Job.data job) = None) ∧
     (readMessage (jobInstanceError env k (Job.data job)) = Some e ∧
      calls = mjoin (replicate k
                       [CallJobInstance (Job.data job); CallRepair])
              ++ [CallJobInstance (Job.data job)] ∨
      calls = mjoin (replicate (S k)
                       [CallJobInstance (Job.data job); CallRepair]) ∧
      (repairAt env k = Some e ∨
       (S k = BROWSER_INSTANCE_TRIES ∧
        e = ErrorObject "Unable to get browser page")))).
Proof.
  pose proof (acquire_calls env (Job.data job) BROWSER_INSTANCE_TRIES 0 [])
    as Hacq.
  pose proof (acquire_never_out_of_fuel env (Job.data job)
                BROWSER_INSTANCE_TRIES 0 []) as Hfuel.
  unfold handle, handleRest.
  destruct (acquire env (Job.data job) BROWSER_INSTANCE_TRIES 0 [])
    as [ji k calls|e calls|].
  - left. destruct Hacq as (Hk & Hgot & _ & ->). exists ji, k.
    rewrite Nat.sub_0_r. eexists. split; [done|]. split; [lia|]. done.
  - right. destruct Hacq as (k & Hk & Hfail & _ & Hcause).
    exists e, k, calls. rewrite Nat.sub_0_r in Hcause.
    split; [done|]. split; [lia|].
    split; [intros n Hn; apply Hfail; lia|].
    destruct Hcause as [[? ->]|[-> [?|(_ & ? & ?)]]];
      [by left|right; split; [done|by left]|right; split; [done|right]].
    split; [lia|done].
  - exfalso. apply Hfuel; [|lia|done]. unfold BROWSER_INSTANCE_TRIES. lia.
Qed.


Lemma handle_calls env task job timeout w :
  ∃ k, (k < BROWSER_INSTANCE_TRIES)%nat ∧
  ((∃ ji tail,
      (handle env task job timeout w).2
      = mjoin (replicate k [CallJobInstance (Job.data job); CallRepair])
        ++ [CallJobInstance (Job.data job);
            CallTask task (page ji) (Job.data job) (id w) timeout;
            CallClose (page ji)] ++ tail ∧
      (tail = [] ∨ tail = [CallRepair])) ∨
   (∃ ji e,
      taskRun env task (page ji) (Job.data job) (id w) timeout
      = TaskRejected e ∧ nullish e = true ∧
      (handle env task job timeout w).2
      = mjoin (replicate k [CallJobInstance (Job.data job); CallRepair])
        ++ [CallJobInstance (Job.data job);
            CallTask task (page ji) (Job.data job) (id w) timeout]) ∨
   (handle env task job timeout w).2
   = mjoin (replicate k [CallJobInstance (Job.data job); CallRepair])
     ++ [CallJobInstance (Job.data job)] ∨
   (handle env task job timeout w).2
   = mjoin (replicate (S k) [CallJobInstance (Job.data job); CallRepair])).
Proof.
  destruct (handle_acquisition env task job timeout w)
    as [(ji & k & calls & Hacq & Hk & _ & ->)
       |(e & k & calls & -> & Hk & _ & [[_ ->]|[-> _]])].
  - exists k. split; [done|].
    unfold handle, handleRest. rewrite Hacq.
    cbn [handleBegin id set_activeJobs page].
    destruct (runTask env task (page ji) job timeout (handleBegin job w))
      as [[result errorState]|e|] eqn:Hrun.
    + left. exists ji. unfold release.
      destruct (closeOutcome env) as [e|];
        [destruct (readMessage e); [|destruct (repairAt env k)]|];
        destruct (pageErrorInRelease env), errorState;
        repeat match goal with
               | |- context [truthy ?x] => destruct (truthy x)
               end;
        cbn [fst snd]; rewrite <- ?app_assoc; eauto.
    + right. left. unfold runTask in Hrun.
      cbn [id handleBegin set_activeJobs] in Hrun.
      destruct (taskRun env task (page ji) (Job.data job) (id w) timeout)
        as [v|e0] eqn:Htask; [done|].
      destruct (readMessage e0) as [e1|] eqn:Hread; [|done].
      apply readMessage_nullish in Hread as (null & -> & _).
      exists ji, (Nullish null). cbn [fst snd]. by rewrite <- app_assoc.
    + unfold runTask in Hrun. by repeat case_match.
  - exists k. split; [done|]. right. right. by left.
  - exists k. split; [done|]. right. right. by right.
Qed.

(** When the task rejects with [null] or [undefined], the [catch] around
    it throws at [err.message]: [handle] throws a [TypeError], the instance
    is not closed and the job stays in [activeJobs]. *)
Lemma handle_throws_on_nullish_task_rejection env task job timeout w ji k
    calls null :
  acquire env (Job.data job) BROWSER_INSTANCE_TRIES 0 []
  = GotInstance ji k calls →
  taskRun env task (page ji) (Job.data job) (id w) timeout
  = TaskRejected (Nullish null) →
  handle env task job timeout w
  = (Threw (typeError null "message"), handleBegin job w,
     calls ++ [CallTask task (page ji) (Job.data job) (id w) timeout]).
Proof.
  intros Hacq Htask. unfold handle, handleRest, runTask. rewrite Hacq.
  cbn [handleBegin id set_activeJobs]. by rewrite Htask.
Qed.

(** *** Release *)




(** X2.  Whatever the collaborators answer, as long as the task rejects
    with a truthy value if it rejects (the [catch] reads [err.message]), one
    call of [handle] runs the task at most once, closes exactly the page it
    ran the task on, calls [jobInstance] at least once and at most
    [BROWSER_INSTANCE_TRIES = 10] times, and calls [repair] at most ten
    times. *)
Theorem handle_releases_instance env task job timeout w :
  (∀ p e, taskRun env task p (Job.data job) (id w) timeout = TaskRejected e →
          truthy e = true) →
  omap Trace.taskPage (handle env task job timeout w).2
  = omap Trace.closePage (handle env task job timeout w).2 ∧
  (length (omap Trace.closePage (handle env task job timeout w).2) ≤ 1)%nat ∧
  (1 ≤ Trace.jobInstanceCalls (handle env task job timeout w).2
     ≤ BROWSER_INSTANCE_TRIES)%nat ∧
  (Trace.repairCalls (handle env task job timeout w).2
   ≤ BROWSER_INSTANCE_TRIES)%nat.
Proof.
  intros Htask.
  destruct (handle_calls env task job timeout w)
    as (k & Hk & [(ji & tail & -> & Htail)
                 |[(ji & e & Ht & He & _)|[-> | ->]]]).
  all: unfold BROWSER_INSTANCE_TRIES in *.
  - destruct (attempts_pages (Job.data job) k) as [Htp Hcp].
    destruct (attempts_count (Job.data job) k) as [Hji Hrp].
    unfold Trace.jobInstanceCalls, Trace.repairCalls in *.
    rewrite !omap_app, !List.filter_app, !length_app, Htp, Hcp, Hji, Hrp.
    destruct Htail as [-> | ->]; cbn; (split; [done|]); (split; [lia|]); lia.
  - apply Htask in Ht. by destruct e.
  - destruct (attempts_pages (Job.data job) k) as [Htp Hcp].
    destruct (attempts_count (Job.data job) k) as [Hji Hrp].
    unfold Trace.jobInstanceCalls, Trace.repairCalls in *.
    rewrite !omap_app, !List.filter_app, !length_app, Htp, Hcp, Hji, Hrp.
    cbn. split; [done|]. split; [lia|]. lia.
  - destruct (attempts_pages (Job.data job) (S k)) as [-> ->].
    destruct (attempts_count (Job.data job) (S k)) as [-> ->].
    cbn. split; [done|]. split; [lia|]. lia.
Qed.

Lemma handle_releases_instance_witness :
  omap Trace.taskPage
    (handle envDoubles 0%nat (exampleJob 0) 30000
       (idleWorker (Build_WorkerInstance None))).2
  = omap Trace.closePage
      (handle envDoubles 0%nat (exampleJob 0) 30000
         (idleWorker (Build_WorkerInstance None))).2.
Proof.
  apply (handle_releases_instance envDoubles 0%nat (exampleJob 0) 30000
           (idleWorker (Build_WorkerInstance None))).
  intros p e. discriminate.
Defined.

(** X3.  A task that rejects with a truthy value (a thrown error, or the
    rejection of [timeoutExecute] when the timeout elapses) makes [handle]
    return the error result carrying that value, unless the page emits an
    ["error"] event while the instance is released. *)
Theorem handle_task_rejection_is_error_result env task job timeout w e r :
  (∀ p, taskRun env task p (Job.data job) (id w) timeout = TaskRejected e) →
  truthy e = true →
  pageErrorInRelease env = None →
  (handle env task job timeout w).1.1 = Returned r →
  r = WorkError e.
Proof.
  intros Htask He Hrel.
  destruct (handle_acquisition env task job timeout w)
    as [(ji & k & calls & Hacq & _)|(e' & k & calls & -> & _)]; [|done].
  unfold handle, handleRest, runTask, release. rewrite Hacq, Hrel.
  cbn [handleBegin id set_activeJobs page]. rewrite Htask.
  destruct e as [m| |null]; [|done..]. cbn [readMessage truthy].
  destruct (closeOutcome env) as [e0|];
    [destruct (readMessage e0); [|destruct (repairAt env k)]|];
    cbn [fst snd]; congruence.
Qed.

Lemma handle_task_rejection_is_error_result_witness :
  (handle
     {| jobInstanceAt := λ _ _, Some (Build_JobInstance 7%nat);
        jobInstanceError := λ _ _, ErrorObject "Target closed";
        repairAt := λ _, None;
        taskRun := λ _ _ _ _ _, TaskRejected (ErrorObject "Timeout hit: 30000");
        pageErrorInTask := None; closeOutcome := None;
        pageErrorInRelease := None |}
     0%nat (exampleJob 0) 30000 (idleWorker (Build_WorkerInstance None))).1.1
  = Returned (WorkError (ErrorObject "Timeout hit: 30000")).
Proof.
  destruct (handle _ _ _ _ _).1.1 as [r|e|] eqn:H;
    [|vm_compute in H; discriminate..].
  f_equal. revert H.
  apply (handle_task_rejection_is_error_result
    {| jobInstanceAt := λ _ _, Some (Build_JobInstance 7%nat);
       jobInstanceError := λ _ _, ErrorObject "Target closed";
       repairAt := λ _, None;
       taskRun := λ _ _ _ _ _, TaskRejected (ErrorObject "Timeout hit: 30000");
       pageErrorInTask := None; closeOutcome := None;
       pageErrorInRelease := None |}
    0%nat (exampleJob 0) 30000 (idleWorker (Build_WorkerInstance None))
    (ErrorObject "Timeout hit: 30000") r); reflexivity.
Defined.




End WorkerFacts.

(** ** The cluster *)

Section ClusterFacts.
Import Cluster Scenario.

(** *** Frames of the small operations *)

Lemma work_shape now c :
  ∃ a nt wct nwc,
    work now c
    = set_armed a (set_nextTimer nt (set_workCallTimeout wct
        (set_nextWorkCall nwc c))).
Proof.
  unfold work. destruct (workCallTimeout c) eqn:H.
  - exists (armed c), (nextTimer c), (workCallTimeout c), (nextWorkCall c).
    by destruct c.
  - by eexists _, _, _, _.
Qed.

Lemma scheduleNextWork_shape env now c :
  ∃ a nt wct nwc,
    scheduleNextWork env now c
    = set_armed a (set_nextTimer nt (set_workCallTimeout wct
        (set_nextWorkCall nwc c))).
Proof.
  unfold scheduleNextWork. destruct (hasFreeCapacity env).
  - apply work_shape.
  - exists (armed c), (nextTimer c), (workCallTimeout c), (nextWorkCall c).
    by destruct c.
Qed.

Lemma recordUrl_shape url c :
  ∃ d, recordUrl url c = set_duplicateCheckUrls d c.
Proof.
  unfold recordUrl. destruct url, (skipDuplicateUrls (options c));
    try by eexists.
  all: exists (duplicateCheckUrls c); by destruct c.
Qed.

Lemma recordDomain_shape now domain c :
  ∃ m, recordDomain now domain c = set_lastDomainAccesses m c.
Proof.
  unfold recordDomain. destruct domain, (sameDomainDelay (options c) =? 0);
    try by eexists.
  all: exists (lastDomainAccesses c); by destruct c.
Qed.

(** Replace the timer and bookkeeping operations of the goal by the
    setters they amount to. *)
Ltac shapes :=
  repeat match goal with
  | |- context [work ?now ?c] =>
    let H := fresh "Hshape" in
    destruct (work_shape now c) as (? & ? & ? & ? & H); rewrite H; clear H
  | |- context [scheduleNextWork ?env ?now ?c] =>
    let H := fresh "Hshape" in
    destruct (scheduleNextWork_shape env now c) as (? & ? & ? & ? & H);
    rewrite H; clear H
  | |- context [recordDomain ?now ?d ?c] =>
    let H := fresh "Hshape" in
    destruct (recordDomain_shape now d c) as (? & H); rewrite H; clear H
  | |- context [recordUrl ?u ?c] =>
    let H := fresh "Hshape" in
    destruct (recordUrl_shape u c) as (? & H); rewrite H; clear H
  end.

(** Evaluate setters and projections innermost first. *)
Ltac fields :=
  cbv beta iota zeta delta
    [options workers allTargetCount jobQueue errorCount taskFunction
     idleResolvers waitForOneResolvers isClosed monitoringInterval display
     duplicateCheckUrls lastDomainAccesses checkForWorkInterval nextWorkCall
     workCallTimeout armed nextTimer nextJid launching inFlight log
     set_workers set_allTargetCount set_jobQueue set_errorCount
     set_taskFunction set_idleResolvers set_waitForOneResolvers set_isClosed
     set_display set_duplicateCheckUrls set_lastDomainAccesses
     set_nextWorkCall set_workCallTimeout set_armed set_nextTimer set_nextJid
     set_launching set_inFlight set_log emit clearTimer drawMonitor timerSet].

Lemma filter_isCallback_waitForOne d l :
  List.filter isCallback (map (λ r, WaitForOneResolved r d) l) = [].
Proof. by induction l. Qed.

(** *** The outcome of a handled job *)

(** C6.  For a job that carries execute callbacks, an error result makes
    [doWork] invoke [callbacks.reject] with the error exactly once and no
    other callback, adds one to [errorCount], and leaves the queue as it
    is: the job is not pushed again, whatever [retryLimit] is. *)
Theorem execute_error_rejects_once now job error c :
  Job.executeCallbacks job = true →
  let c' := (doWorkSettle now job (Returned (Worker.WorkError error)) c).1 in
  (∃ es, log c' = log c ++ es ∧
         List.filter isCallback es = [CallbackReject (Job.jid job) error]) ∧
  errorCount c' = errorCount c + 1 ∧
  jobQueue c' = jobQueue c ∧
  inFlight c' = inFlight c.
Proof.
  intros Hcb. unfold doWorkSettle, doWorkFinish. rewrite Hcb. simpl.
  shapes. simpl. split; [|done].
  eexists. rewrite <- app_assoc. split; [done|].
  simpl. by rewrite filter_isCallback_waitForOne.
Qed.

Lemma execute_error_rejects_once_witness :
  errorCount
    (doWorkSettle 0 (executeJob 0)
       (Returned (Worker.WorkError (ErrorObject "boom")))
       (launch optionsRetry)).1
  = errorCount (launch optionsRetry) + 1.
Proof.
  by destruct (execute_error_rejects_once 0 (executeJob 0)
                 (ErrorObject "boom") (launch optionsRetry) eq_refl)
    as (_ & H & _).
Defined.



(** *** Idle waiters *)

Lemma busyCount_isAnyJobActive ws :
  Workers.isAnyJobActive ws = false ↔ Workers.busyCount ws = 0%nat.
Proof.
  unfold Workers.isAnyJobActive, Workers.busyCount, Worker.isIdle.
  induction ws as [|w ws IH]; simpl; [done|].
  destruct (length (Worker.activeJobs w)); simpl; [done|].
  split; [done|lia].
Qed.

Lemma omap_idleResolution_resolved l :
  omap idleResolution (map IdleResolved l) = l.
Proof. induction l; simpl; [done|]. by f_equal. Qed.

(** The waiters of [idle()] are resolved by [doWork] only when the queue is
    empty and no worker is busy, and then all of them are. *)
Lemma doWorkAdmit_idle_resolution env now c :
  let c' := (doWorkAdmit env now c).1 in
  ∃ es, log c' = log c ++ es ∧
    (omap idleResolution es = [] ∨
     omap idleResolution es = idleResolvers c ∧
     Queue.size (jobQueue c) = 0%nat ∧
     Workers.busyCount (workers c) = 0%nat).
Proof.
  unfold doWorkAdmit, scheduleNextWork, recordUrl, recordDomain, emit.
  destruct (Nat.eqb_spec (Queue.size (jobQueue c)) 0) as [Hsize|_].
  - destruct (Workers.isAnyJobActive (workers c)) eqn:Hact; simpl.
    + exists []. rewrite app_nil_r. auto.
    + eexists. split; [done|]. right.
      rewrite omap_idleResolution_resolved.
      by rewrite <- busyCount_isAnyJobActive.
  - repeat case_match; simpl; shapes; simpl;
      try (exists []; rewrite app_nil_r; by auto);
      try (rewrite <- ?app_assoc; eexists; split; [done|]; by left).
Qed.

(** No path of [doWork] up to the hand-over to a worker changes the list of
    idle waiters. *)
Lemma doWorkAdmit_keeps_idleResolvers env now c :
  idleResolvers (doWorkAdmit env now c).1 = idleResolvers c.
Proof.
  unfold doWorkAdmit, scheduleNextWork, recordUrl, recordDomain, emit.
  repeat case_match; simpl; shapes; by simpl.
Qed.

(** C4, on the code.  With an empty queue, no active job and one pending
    idle waiter, [doWork] resolves the waiter and leaves it in
    [idleResolvers]: the list is not cleared, unlike
    [waitForOneResolvers]. *)
Theorem doWork_resolves_idle_waiters_without_clearing :
  let c' := (doWorkAdmit envQuiet 0 oneIdleWaiter).1 in
  Queue.size (jobQueue oneIdleWaiter) = 0%nat ∧
  Workers.isAnyJobActive (workers oneIdleWaiter) = false ∧
  idleResolvers oneIdleWaiter = [1%nat] ∧
  log c' = [IdleResolved 1] ∧
  idleResolvers c' = [1%nat].
Proof. by vm_compute. Qed.

(** *** Closing *)

(** What every call of [close()] does, however it ends. *)
Lemma close_frame env c :
  isClosed (close env c).1 = true ∧
  idleResolvers (close env c).1 = idleResolvers c ∧
  isArmed (checkForWorkInterval c) (close env c).1 = false ∧
  isArmed (workCallTimeout c) (close env c).1 = false ∧
  checkForWorkInterval (close env c).1 = checkForWorkInterval c ∧
  workCallTimeout (close env c).1 = workCallTimeout c.
Proof.
  unfold close, isArmed.
  destruct (workersCloseOutcome env), (browserCloseOutcome env ≫= readMessage);
  destruct c as [? ? ? ? ? ? ? ? ? [mon|] [] ? ? [chk|] ? [wct|] ? ? ? ? ? ?];
    fields; cbn [fst snd];
    rewrite ?bool_decide_eq_false; repeat split; try done; set_solver.
Qed.

(** What the call does to the outside, and how it ends. *)
Lemma close_outcome env c :
  match workersCloseOutcome env, browserCloseOutcome env ≫= readMessage with
  | Some e, _ =>
    (close env c).2 = Some e ∧ log (close env c).1 = log c ++ [WorkersClose]
  | None, Some e =>
    (close env c).2 = Some e ∧
    log (close env c).1 = log c ++ [WorkersClose; BrowserClose]
  | None, None =>
    (close env c).2 = None ∧ log (close env c).1 = log c ++ closeEffects c
  end.
Proof.
  unfold close, closeEffects.
  destruct (workersCloseOutcome env), (browserCloseOutcome env ≫= readMessage);
  destruct c as [? ? ? ? ? ? ? ? ? [mon|] [] ? ? [chk|] ? [wct|] ? ? ? ? ? ?];
    fields; cbn [fst snd]; by rewrite <- ?app_assoc.
Qed.

Lemma close_resolved env c :
  workersCloseOutcome env = None →
  browserCloseOutcome env ≫= readMessage = None →
  (close env c).2 = None ∧
  log (close env c).1 = log c ++ closeEffects c ∧
  isClosed (close env c).1 = true ∧
  idleResolvers (close env c).1 = idleResolvers c ∧
  isArmed (checkForWorkInterval c) (close env c).1 = false ∧
  isArmed (workCallTimeout c) (close env c).1 = false ∧
  checkForWorkInterval (close env c).1 = checkForWorkInterval c ∧
  workCallTimeout (close env c).1 = workCallTimeout c.
Proof.
  intros Hw Hb. pose proof (close_outcome env c) as Hout.
  rewrite Hw, Hb in Hout. destruct Hout as [-> ->].
  split; [done|]. split; [done|]. apply close_frame.
Qed.


Lemma closed_again c : set_log (log (closed c)) (closed (closed c)) = closed c.
Proof.
  unfold closed, closeEffects.
  destruct c as [? ? ? ? ? ? ? ? ? [mon|] [] ? ? [chk|] ? [wct|] ? ? ? ? ? ?];
    fields; f_equal; set_solver.
Qed.





(** *** Job identities *)

Lemma jids_push j d q :
  Queue.jids (Queue.push j d q) = Queue.jids q ++ [Job.jid j].
Proof. unfold Queue.jids, Queue.push. by rewrite map_app. Qed.

Lemma peek_in now q j : Queue.peek now q = Some j → Job.jid j ∈ Queue.jids q.
Proof.
  induction q as [|e q IH]; simpl; [done|].
  destruct (Queue.ready now e).
  - intros [= <-]. left.
  - intros H. right. by apply IH.
Qed.

Lemma jids_remove j q :
  Job.jid j ∈ Queue.jids q →
  Queue.jids q ≡ₚ Job.jid j :: Queue.jids (Queue.remove j q).
Proof.
  induction q as [|e q IH]; simpl.
  - by intros ?%elem_of_nil.
  - unfold Job.same.
    destruct (Nat.eqb_spec (Job.jid (Queue.item e)) (Job.jid j)) as [->|Hne].
    + done.
    + intros [?|Hin]%elem_of_cons; [done|].
      simpl. rewrite (IH Hin) at 1. apply Permutation_swap.
Qed.

Lemma inFlightIds_delete c k p :
  inFlight c !! k = Some p →
  inFlightIds c ≡ₚ Job.jid (p_job p)
    :: map (λ p, Job.jid (p_job p)) (delete k (inFlight c)).
Proof.
  intros H. unfold inFlightIds.
  by rewrite (delete_Permutation _ _ _ H) at 1.
Qed.

Lemma settled_app l l' : settled (l ++ l') = settled l ++ settled l'.
Proof. apply omap_app. Qed.

Lemma settled_idle l : settled (map IdleResolved l) = [].
Proof. by induction l. Qed.

Lemma settled_waitForOne d l :
  settled (map (λ r, WaitForOneResolved r d) l) = [].
Proof. by induction l. Qed.

Lemma accounted_quiet c c' :
  jobQueue c' = jobQueue c → inFlight c' = inFlight c →
  nextJid c' = nextJid c → settled (log c') = settled (log c) →
  accounted c c'.
Proof.
  intros Hq Hf Hn Hs. exists (liveIds c), [], [], [].
  unfold liveIds, inFlightIds. rewrite Hq, Hf, Hs, !app_nil_r.
  repeat split; auto.
Qed.

Lemma accounted_from c0 c c' :
  jobQueue c0 = jobQueue c → inFlight c0 = inFlight c →
  nextJid c0 = nextJid c → log c0 = log c →
  accounted c0 c' → accounted c c'.
Proof.
  unfold accounted, liveIds, inFlightIds.
  by intros -> -> -> ->.
Qed.

(** Closes a goal [accounted c c'] once the four lists are given; [H] is
    the permutation that is known of the queue or of the calls in flight. *)
Ltac accounted_with H :=
  unfold liveIds, inFlightIds in *; simpl;
  rewrite ?settled_app, ?settled_waitForOne, ?settled_idle, ?jids_push,
    ?map_app;
  simpl; rewrite ?app_nil_r;
  repeat split; eauto;
  try (rewrite H; solve_Permutation).

Lemma doWorkAdmit_accounted env now c : accounted c (doWorkAdmit env now c).1.
Proof.
  unfold doWorkAdmit.
  destruct (Queue.size (jobQueue c) =? 0)%nat.
  { destruct (negb _); simpl; apply accounted_quiet; try done.
    simpl. by rewrite settled_app, settled_idle, app_nil_r. }
  destruct (Queue.peek now (jobQueue c)) as [job|] eqn:Hpeek;
    [|by apply accounted_quiet].
  apply peek_in, jids_remove in Hpeek.
  destruct (isDuplicate c (Job.getUrl job)).
  { shapes.
    exists (Queue.jids (Queue.remove job (jobQueue c)) ++ inFlightIds c),
      [Job.jid job], [], [].
    accounted_with Hpeek. }
  destruct (domainDelay now c (Job.getDomain job)).
  { shapes. exists (liveIds c), [], [], []. accounted_with Hpeek. }
  destruct (negb (Workers.canHandle (workers c) job)).
  { destruct (canLaunchWorker env); simpl; apply accounted_quiet; try done.
    simpl. by rewrite settled_app, app_nil_r. }
  destruct (Workers.getWorker (workers c) job) as [worker|];
    [|by apply accounted_quiet].
  shapes. simpl.
  destruct (match Job.taskFunction job with
            | Some f => Some f
            | None => taskFunction c
            end) as [f|]; unfold emit.
  - exists (liveIds c), [], [], []. accounted_with Hpeek.
  - exists (Queue.jids (Queue.remove job (jobQueue c)) ++ inFlightIds c),
      [Job.jid job], [], [].
    accounted_with Hpeek.
Qed.

Lemma doWorkSettle_accounted now p k res c :
  inFlight c !! k = Some p →
  ∀ ws, accounted c
    (doWorkSettle now (p_job p) res
       (set_inFlight (delete k (inFlight c)) (set_workers ws c))).1.
Proof.
  intros Hk ws. apply inFlightIds_delete in Hk.
  set (rest := map (λ p, Job.jid (p_job p)) (delete k (inFlight c))) in *.
  unfold doWorkSettle, doWorkFinish, emit.
  destruct res as [[error|data]| |]; simpl.
  - destruct (Job.executeCallbacks (p_job p)); simpl.
    + shapes.
      exists (Queue.jids (jobQueue c) ++ rest), [Job.jid (p_job p)], [],
        [Job.jid (p_job p)].
      accounted_with Hk.
    + destruct (Job.tries (p_job p) + 1 <=? retryLimit (options c)); simpl;
        shapes.
      * exists (liveIds c), [], [], []. accounted_with Hk.
      * exists (Queue.jids (jobQueue c) ++ rest), [Job.jid (p_job p)], [], [].
        accounted_with Hk.
  - destruct (Job.executeCallbacks (p_job p)); simpl; shapes.
    + exists (Queue.jids (jobQueue c) ++ rest), [Job.jid (p_job p)], [],
        [Job.jid (p_job p)].
      accounted_with Hk.
    + exists (Queue.jids (jobQueue c) ++ rest), [Job.jid (p_job p)], [], [].
      accounted_with Hk.
  - exists (Queue.jids (jobQueue c) ++ rest), [Job.jid (p_job p)], [], [].
    accounted_with Hk.
  - exists (Queue.jids (jobQueue c) ++ rest), [Job.jid (p_job p)], [], [].
    accounted_with Hk.
Qed.

Lemma queueJob_accounted now d u dm f cb c :
  accounted c (queueJob now d u dm f cb c).
Proof.
  unfold queueJob, emit. shapes.
  exists (liveIds c), [], [nextJid c], [].
  unfold liveIds, inFlightIds. simpl.
  rewrite settled_app, jids_push, !app_nil_r. simpl.
  repeat split; eauto. solve_Permutation.
Qed.

Lemma close_accounted env c : accounted c (close env c).1.
Proof.
  unfold close, emit.
  set (c1 := clearTimer _ (clearTimer _ (set_isClosed true c))).
  assert (jobQueue c1 = jobQueue c ∧ inFlight c1 = inFlight c ∧
          nextJid c1 = nextJid c ∧ log c1 = log c)
    as (Hq & Hf & Hn & Hl).
  { unfold c1, clearTimer. by repeat case_match. }
  clearbody c1.
  destruct (workersCloseOutcome env).
  { apply accounted_quiet; simpl; try done.
    by rewrite settled_app, Hl, app_nil_r. }
  unfold drawMonitor, emit, clearTimer. simpl.
  destruct (monitoringInterval c1); simpl; repeat case_match;
    apply accounted_quiet; simpl;
    rewrite ?settled_app, ?Hl, ?app_nil_r; done.
Qed.

Lemma step_accounted a c c' : step a c = Some c' → accounted c c'.
Proof.
  destruct a; simpl.
  - intros [= <-]. by apply accounted_quiet.
  - intros [= <-]. apply queueJob_accounted.
  - intros [= <-]. apply queueJob_accounted.
  - intros [= <-]. by apply accounted_quiet.
  - intros [= <-]. by apply accounted_quiet.
  - destruct (isArmed _ _); [|done]. intros [= <-].
    shapes. by apply accounted_quiet.
  - destruct (isArmed _ _); [|done]. intros [= <-].
    eapply accounted_from; [..|apply doWorkAdmit_accounted];
      by destruct (workCallTimeout c).
  - destruct (0 <? launching c)%nat; [|done]. intros [= <-].
    unfold launched. shapes. by apply accounted_quiet.
  - destruct (0 <? launching c)%nat; [|done]. intros [= <-].
    by apply accounted_quiet.
  - unfold handled.
    destruct (inFlight c !! k) as [p|] eqn:Hk; simpl; [|done].
    destruct (workers c !! p_worker p) as [w|]; simpl; [|done].
    destruct (Worker.handleRest _ _ _ _ _) as [[res w'] calls].
    intros [= <-]. by apply doWorkSettle_accounted.
  - destruct (isArmed _ _); [|done]. intros [= <-].
    apply accounted_quiet; try done. simpl.
    by rewrite settled_app, app_nil_r.
  - intros [= <-]. apply close_accounted.
Qed.

Lemma run_invariant (P : t → Prop) :
  (∀ a c c', step a c = Some c' → P c → P c') →
  ∀ acts c c', run acts c = Some c' → P c → P c'.
Proof.
  intros Hstep acts. induction acts as [|a acts IH]; intros c c'; simpl.
  - by intros [= <-].
  - destruct (step a c) as [c1|] eqn:Ha; simpl; [|done].
    intros Hrun Hc. eapply IH; [done|]. by eapply Hstep.
Qed.

Lemma accounted_preserves c c' :
  accounted c c' → jobsAccounted c → jobsAccounted c'.
Proof.
  intros (kept & gone & new & s & Hc & Hc' & Hnew & Hs & Hgone).
  intros (Hnd & Hlt & Hsnd & Hsl).
  rewrite Hc in Hnd. apply NoDup_app in Hnd as (Hgnd & Hgk & Hknd).
  assert (∀ i, i ∈ kept → (i < nextJid c)%nat) as Hklt.
  { intros i Hi. apply Hlt. rewrite Hc. set_solver. }
  assert (∀ i, i ∈ gone → (i < nextJid c)%nat) as Hglt.
  { intros i Hi. apply Hlt. rewrite Hc. set_solver. }
  assert (nextJid c ≤ nextJid c')%nat as Hmono
    by (destruct Hnew as [[]|[]]; lia).
  assert (∀ i, i ∈ new → i = nextJid c) as Hnew'.
  { destruct Hnew as [[-> _]|[-> _]]; set_solver. }
  assert (∀ i, i ∈ new → (i < nextJid c')%nat) as Hnlt.
  { destruct Hnew as [[-> _]|[-> ?]]; [by intros i ?%elem_of_nil|].
    intros i Hi. apply list_elem_of_singleton in Hi. lia. }
  assert (NoDup new) as Hnnd.
  { destruct Hnew as [[-> _]|[-> _]]; [constructor|apply NoDup_singleton]. }
  split; [|split; [|split]].
  - rewrite Hc'. apply NoDup_app. split; [done|]. split; [|done].
    intros i Hi Hin. apply Hnew' in Hin. apply Hklt in Hi. lia.
  - intros i. rewrite Hc'. intros [Hi|Hi]%elem_of_app.
    + apply Hklt in Hi. lia.
    + by apply Hnlt.
  - rewrite Hs. apply NoDup_app. split; [done|].
    destruct Hgone as [->|(j & -> & ->)]; [split; [set_solver|constructor]|].
    split; [|apply NoDup_singleton].
    intros i Hi Hj. apply list_elem_of_singleton in Hj. subst i.
    apply Hsl in Hi as [_ Hi]. apply Hi. rewrite Hc. set_solver.
  - intros i. rewrite Hs, Hc'. intros [Hi|Hi]%elem_of_app.
    + apply Hsl in Hi as [Hi1 Hi2]. split; [lia|].
      intros [Hk|Hn]%elem_of_app.
      * apply Hi2. rewrite Hc. set_solver.
      * apply Hnew' in Hn. lia.
    + destruct Hgone as [->|(j & -> & ->)]; [set_solver|].
      apply list_elem_of_singleton in Hi as ->.
      assert (j < nextJid c)%nat by (apply Hglt; set_solver).
      split; [lia|].
      intros [Hk|Hn]%elem_of_app.
      * apply (Hgk j); set_solver.
      * apply Hnew' in Hn. lia.
Qed.

Lemma launch_jobsAccounted o : jobsAccounted (launch o).
Proof.
  unfold jobsAccounted, liveIds, inFlightIds. simpl.
  repeat split; try constructor; set_solver.
Qed.

Lemma reachable_jobsAccounted o acts c :
  run acts (launch o) = Some c → jobsAccounted c.
Proof.
  intros Hrun. eapply (run_invariant jobsAccounted); [|done|].
  - intros a c0 c1 Ha. apply accounted_preserves. by eapply step_accounted.
  - apply launch_jobsAccounted.
Qed.

Lemma accounted_dropped i c c' : accounted c c' → dropped i c → dropped i c'.
Proof.
  intros (kept & gone & new & s & Hc & Hc' & Hnew & Hs & Hgone).
  intros (Hlt & Hlive & Hset). rewrite Hc in Hlive.
  split; [destruct Hnew as [[]|[]]; lia|]. split.
  - rewrite Hc'. intros [Hk|Hn]%elem_of_app; [set_solver|].
    destruct Hnew as [[-> _]|[-> _]]; [set_solver|].
    apply list_elem_of_singleton in Hn. lia.
  - rewrite Hs. intros [?|Hi]%elem_of_app; [done|].
    destruct Hgone as [->|(j & -> & ->)]; set_solver.
Qed.

Lemma dropped_forever i acts c c' :
  run acts c = Some c' → dropped i c → dropped i c'.
Proof.
  apply (run_invariant (dropped i)).
  intros a c0 c1 Ha. apply accounted_dropped. by eapply step_accounted.
Qed.

Lemma doWorkSettle_callbacks now job r c :
  Job.executeCallbacks job = true →
  let c' := (doWorkSettle now job (Returned r) c).1 in
  (∃ es, log c' = log c ++ es ∧
     List.filter isCallback es =
       [match r with
        | Worker.WorkData data => CallbackResolve (Job.jid job) data
        | Worker.WorkError error => CallbackReject (Job.jid job) error
        end]) ∧
  jobQueue c' = jobQueue c.
Proof.
  intros Hcb. unfold doWorkSettle, doWorkFinish, emit. rewrite Hcb.
  destruct r; shapes; simpl; (split; [|done]);
    rewrite <- app_assoc; eexists; (split; [done|]); simpl;
    by rewrite filter_isCallback_waitForOne.
Qed.

(** When [worker.handle] throws, [doWork] swallows the error, reads
    [result.type] on [null] and throws itself: no callback is invoked and
    nothing else changes.  When the value thrown is [null] or [undefined],
    the [catch] itself throws, at [err.message]. *)
Lemma doWorkSettle_after_throw now job e c :
  doWorkSettle now job (Threw e) c
  = (c, Some (match e with
              | Nullish null => typeError null "message"
              | ErrorObject _ | FalsyValue =>
                ErrorObject "Cannot read properties of null (reading 'type')"
              end)).
Proof. by destruct e. Qed.

Lemma runSameUrlTwice_result :
  (λ c, (log c, jobQueue c, inFlight c, nextJid c))
    <$> run runSameUrlTwice (launch optionsSkipDuplicates)
  = Some ([EmitQueue 5 None; EmitQueue 6 None;
           LaunchWorkerCalled
             (Job.Build 0%nat 5 (Some "https://a") None None true 0 []);
           HandleCalled 0%nat
             (Job.Build 0%nat 5 (Some "https://a") None None true 0 [])
             1%nat 30000;
           CallbackResolve 0%nat (Some 10)], [], [], 2%nat).
Proof. vm_compute. reflexivity. Qed.

(** C2, as amended.  In every state that the cluster reaches, no job had
    its execute callbacks invoked more than once; once [worker.handle] has
    returned a [WorkResult] for a job that carries callbacks, [doWork]
    invokes exactly one of them, [resolve(data)] on success and
    [reject(error)] on error, and does not push the job again; a job that
    the cluster dropped without invoking its callbacks (a duplicate URL)
    never has them invoked. *)
Theorem execute_settles_at_most_once o acts c :
  run acts (launch o) = Some c →
  NoDup (settled (log c)) ∧
  (∀ now job r,
     Job.executeCallbacks job = true →
     let c' := (doWorkSettle now job (Returned r) c).1 in
     (∃ es, log c' = log c ++ es ∧
        List.filter isCallback es =
          [match r with
           | Worker.WorkData data => CallbackResolve (Job.jid job) data
           | Worker.WorkError error => CallbackReject (Job.jid job) error
           end]) ∧
     jobQueue c' = jobQueue c) ∧
  (∀ i acts' c',
     dropped i c → run acts' c = Some c' → i ∉ settled (log c')).
Proof.
  intros Hrun. split; [|split].
  - by destruct (reachable_jobsAccounted o acts c Hrun) as (_ & _ & ? & _).
  - intros now job r. apply doWorkSettle_callbacks.
  - intros i acts' c' Hi Hrun'.
    by destruct (dropped_forever i acts' c c' Hrun' Hi) as (_ & _ & ?).
Qed.

Lemma execute_settles_at_most_once_witness :
  ∃ c, run runSameUrlTwice (launch optionsSkipDuplicates) = Some c ∧
       NoDup (settled (log c)).
Proof.
  pose proof runSameUrlTwice_result as Hres.
  destruct (run runSameUrlTwice (launch optionsSkipDuplicates)) as [c|] eqn:H;
    [|discriminate].
  exists c. split; [done|].
  by destruct (execute_settles_at_most_once _ _ _ H).
Defined.

(** C2, as stated, fails: with [skipDuplicateUrls], the job of a second
    [execute] call for the same URL is removed from the queue when it is
    peeked; its callbacks have not been invoked then, and never are. *)
Lemma execute_of_duplicate_url_is_never_settled :
  ∃ c, run runSameUrlTwice (launch optionsSkipDuplicates) = Some c ∧
       log c = [EmitQueue 5 None; EmitQueue 6 None;
                LaunchWorkerCalled
                  (Job.Build 0%nat 5 (Some "https://a") None None true 0 []);
                HandleCalled 0%nat
                  (Job.Build 0%nat 5 (Some "https://a") None None true 0 [])
                  1%nat 30000;
                CallbackResolve 0%nat (Some 10)] ∧
       jobQueue c = [] ∧ inFlight c = [] ∧ nextJid c = 2%nat ∧
       dropped 1%nat c ∧
       ∀ acts' c', run acts' c = Some c' → 1%nat ∉ settled (log c').
Proof.
  pose proof runSameUrlTwice_result as Hres.
  destruct (run runSameUrlTwice (launch optionsSkipDuplicates)) as [c|] eqn:H;
    [|discriminate].
  exists c. split; [done|].
  simpl in Hres. injection Hres as Hl Hq Hf Hn.
  assert (dropped 1%nat c) as Hd.
  { unfold dropped, liveIds, inFlightIds. rewrite Hl, Hq, Hf, Hn.
    split; [lia|]. split; [apply not_elem_of_nil|].
    by intros ?%list_elem_of_singleton. }
  repeat (split; [done|]).
  intros acts' c' Hrun.
  by destruct (dropped_forever _ _ _ _ Hrun Hd) as (_ & _ & ?).
Qed.

(** *** Dispatched URLs *)

Lemma dispatching_quiet c c' :
  options c' = options c →
  duplicateCheckUrls c' = duplicateCheckUrls c →
  dispatchedUrls (log c') = dispatchedUrls (log c) →
  dispatching c c'.
Proof. intros Ho Hd Hl. unfold dispatching. rewrite Ho, Hd, Hl. auto. Qed.

Lemma dispatching_from c0 c c' :
  options c0 = options c →
  duplicateCheckUrls c0 = duplicateCheckUrls c →
  log c0 = log c →
  dispatching c0 c' → dispatching c c'.
Proof. unfold dispatching. by intros -> -> ->. Qed.

Lemma dispatchedUrls_app l l' :
  dispatchedUrls (l ++ l') = dispatchedUrls l ++ dispatchedUrls l'.
Proof. apply omap_app. Qed.

Lemma dispatchedUrls_idle l : dispatchedUrls (map IdleResolved l) = [].
Proof. by induction l. Qed.

Lemma dispatchedUrls_waitForOne d l :
  dispatchedUrls (map (λ r, WaitForOneResolved r d) l) = [].
Proof. by induction l. Qed.

Ltac quiet_dispatching :=
  apply dispatching_quiet; simpl;
  rewrite ?dispatchedUrls_app, ?dispatchedUrls_idle,
    ?dispatchedUrls_waitForOne;
  simpl; rewrite ?app_nil_r; done.

Lemma doWorkAdmit_dispatching env now c :
  dispatching c (doWorkAdmit env now c).1.
Proof.
  unfold doWorkAdmit.
  destruct (Queue.size (jobQueue c) =? 0)%nat.
  { destruct (negb _); quiet_dispatching. }
  destruct (Queue.peek now (jobQueue c)) as [job|]; [|quiet_dispatching].
  destruct (isDuplicate c (Job.getUrl job)) eqn:Hdup.
  { shapes. quiet_dispatching. }
  destruct (domainDelay now c (Job.getDomain job)).
  { shapes. quiet_dispatching. }
  destruct (negb (Workers.canHandle (workers c) job)).
  { destruct (canLaunchWorker env); quiet_dispatching. }
  destruct (Workers.getWorker (workers c) job) as [worker|];
    [|quiet_dispatching].
  destruct (scheduleNextWork_shape env now
              (recordDomain now (Job.getDomain job)
                 (recordUrl (Job.getUrl job)
                    (set_jobQueue (Queue.remove job (jobQueue c)) c))))
    as (? & ? & ? & ? & ->).
  destruct (recordDomain_shape now (Job.getDomain job)
              (recordUrl (Job.getUrl job)
                 (set_jobQueue (Queue.remove job (jobQueue c)) c)))
    as (? & ->).
  unfold isDuplicate in Hdup. unfold recordUrl, emit. simpl.
  destruct (match Job.taskFunction job with
            | Some f => Some f
            | None => _
            end) as [f|];
    destruct (Job.getUrl job) as [u|] eqn:Hu,
      (skipDuplicateUrls (options c)) eqn:Hskip;
    simpl in *; unfold dispatching; simpl;
    rewrite ?dispatchedUrls_app; simpl; rewrite ?Hu, ?Hskip; simpl;
    rewrite ?app_nil_r;
    (split; [done|]); (split; [set_solver|]);
    try (by left).
  - right. exists u. split; [done|]. intros _.
    apply bool_decide_eq_false in Hdup. set_solver.
  - right. exists u. split; [done|]. done.
Qed.

Lemma doWorkSettle_dispatching now job res c :
  dispatching c (doWorkSettle now job res c).1.
Proof.
  unfold doWorkSettle, doWorkFinish, emit.
  destruct res as [[error|data]| |]; simpl; repeat case_match; shapes;
    quiet_dispatching.
Qed.

Lemma close_dispatching env c : dispatching c (close env c).1.
Proof.
  unfold close, emit.
  set (c1 := clearTimer _ (clearTimer _ (set_isClosed true c))).
  assert (options c1 = options c ∧
          duplicateCheckUrls c1 = duplicateCheckUrls c ∧
          log c1 = log c) as (Ho & Hd & Hl).
  { unfold c1, clearTimer. by repeat case_match. }
  clearbody c1. apply (dispatching_from c1); [done..|].
  destruct (workersCloseOutcome env); [quiet_dispatching|].
  unfold drawMonitor, emit, clearTimer. simpl.
  destruct (monitoringInterval c1); simpl; repeat case_match;
    quiet_dispatching.
Qed.

Lemma step_dispatching a c c' : step a c = Some c' → dispatching c c'.
Proof.
  destruct a; simpl.
  - intros [= <-]. quiet_dispatching.
  - intros [= <-]. unfold queue, queueJob, emit. shapes. quiet_dispatching.
  - intros [= <-]. unfold execute, queueJob, emit. shapes. quiet_dispatching.
  - intros [= <-]. quiet_dispatching.
  - intros [= <-]. quiet_dispatching.
  - destruct (isArmed _ _); [|done]. intros [= <-]. shapes. quiet_dispatching.
  - destruct (isArmed _ _); [|done]. intros [= <-].
    eapply dispatching_from; [..|apply doWorkAdmit_dispatching];
      by destruct (workCallTimeout c).
  - destruct (0 <? launching c)%nat; [|done]. intros [= <-].
    unfold launched. shapes. quiet_dispatching.
  - destruct (0 <? launching c)%nat; [|done]. intros [= <-].
    quiet_dispatching.
  - unfold handled.
    destruct (inFlight c !! k) as [p|]; simpl; [|done].
    destruct (workers c !! p_worker p) as [w|]; simpl; [|done].
    destruct (Worker.handleRest _ _ _ _ _) as [[res w'] calls].
    intros [= <-].
    eapply dispatching_from; [..|apply doWorkSettle_dispatching]; done.
  - destruct (isArmed _ _); [|done]. intros [= <-]. quiet_dispatching.
  - intros [= <-]. apply close_dispatching.
Qed.

Lemma dispatching_preserves c c' :
  skipDuplicateUrls (options c) = true →
  dispatching c c' → dispatchedOnce c → dispatchedOnce c'.
Proof.
  intros Hskip (Ho & Hsub & Hlog) (Hnd & Hin).
  destruct Hlog as [Hlog|(u & Hlog & Hu)]; unfold dispatchedOnce; rewrite Hlog.
  - split; [done|]. intros u Hu. apply Hsub. by apply Hin.
  - destruct (Hu Hskip) as [Hfresh Hadded]. split.
    + apply NoDup_app. split; [done|]. split; [|apply NoDup_singleton].
      intros v Hv Hv'. apply list_elem_of_singleton in Hv'. subst v.
      by apply Hfresh, Hin.
    + intros v [Hv|Hv]%elem_of_app.
      * apply Hsub. by apply Hin.
      * apply list_elem_of_singleton in Hv. by subst v.
Qed.

Lemma reachable_options o acts c :
  run acts (launch o) = Some c → options c = o.
Proof.
  intros Hrun.
  apply (run_invariant (λ c, options c = o))
    with (acts := acts) (c := launch o); [|done..].
  intros a c0 c1 Ha <-. by destruct (step_dispatching a c0 c1 Ha).
Qed.

Lemma reachable_dispatchedOnce o acts c :
  skipDuplicateUrls o = true →
  run acts (launch o) = Some c → dispatchedOnce c.
Proof.
  intros Hskip Hrun.
  cut (options c = o ∧ dispatchedOnce c); [by intros []|].
  apply (run_invariant (λ c, options c = o ∧ dispatchedOnce c))
    with (acts := acts) (c := launch o); [|done|].
  - intros a c0 c1 Ha [<- Hinv].
    pose proof (step_dispatching a c0 c1 Ha) as Hd.
    split; [by destruct Hd|]. by apply (dispatching_preserves c0).
  - split; [done|]. split; [constructor|]. simpl. set_solver.
Qed.

Lemma doWorkAdmit_drops_duplicate env now c job u :
  skipDuplicateUrls (options c) = true →
  Queue.peek now (jobQueue c) = Some job →
  Job.getUrl job = Some u →
  u ∈ duplicateCheckUrls c →
  let c' := (doWorkAdmit env now c).1 in
  jobQueue c' = Queue.remove job (jobQueue c) ∧
  log c' = log c ∧ inFlight c' = inFlight c ∧ workers c' = workers c ∧
  duplicateCheckUrls c' = duplicateCheckUrls c.
Proof.
  intros Hskip Hpeek Hu Hin. unfold doWorkAdmit.
  assert ((Queue.size (jobQueue c) =? 0)%nat = false) as ->
    by by destruct (jobQueue c).
  rewrite Hpeek. unfold isDuplicate.
  rewrite Hskip, Hu, bool_decide_eq_true_2 by done.
  simpl. shapes. by simpl.
Qed.

(** C8.  With [skipDuplicateUrls], in every state that the cluster
    reaches, dispatch being one step from the peek to the hand-over: no URL
    was handed to a worker twice; every URL handed to a worker is in the
    duplicate set, where it was put in the step that handed it over, before
    the task runs; and a peeked job whose URL is in the duplicate set is
    removed from the queue without being handed to a worker. *)
Theorem urls_dispatched_at_most_once o acts c :
  skipDuplicateUrls o = true →
  run acts (launch o) = Some c →
  NoDup (dispatchedUrls (log c)) ∧
  (∀ u, u ∈ dispatchedUrls (log c) → u ∈ duplicateCheckUrls c) ∧
  (∀ env now job u,
     Queue.peek now (jobQueue c) = Some job →
     Job.getUrl job = Some u →
     u ∈ duplicateCheckUrls c →
     let c' := (doWorkAdmit env now c).1 in
     jobQueue c' = Queue.remove job (jobQueue c) ∧
     log c' = log c ∧ inFlight c' = inFlight c ∧ workers c' = workers c).
Proof.
  intros Hskip Hrun.
  destruct (reachable_dispatchedOnce o acts c Hskip Hrun) as [Hnd Hin].
  split; [done|]. split; [done|].
  intros env now job u Hpeek Hu Hdup.
  rewrite <- (reachable_options o acts c Hrun) in Hskip.
  by destruct (doWorkAdmit_drops_duplicate env now c job u Hskip Hpeek Hu Hdup)
    as (? & ? & ? & ? & _).
Qed.

Lemma urls_dispatched_at_most_once_witness :
  ∃ c, run runSameUrlTwice (launch optionsSkipDuplicates) = Some c ∧
       NoDup (dispatchedUrls (log c)).
Proof.
  pose proof runSameUrlTwice_result as Hres.
  destruct (run runSameUrlTwice (launch optionsSkipDuplicates)) as [c|] eqn:H;
    [|discriminate].
  exists c. split; [done|].
  by destruct (urls_dispatched_at_most_once optionsSkipDuplicates _ _
                 eq_refl H).
Defined.

(** *** Jobs handed to workers *)

Lemma indexOf_None j l :
  Worker.indexOf j l = None ↔ Job.jid j ∉ map Job.jid l.
Proof.
  induction l as [|x l IH]; simpl.
  - split; [intros _; apply not_elem_of_nil|done].
  - unfold Job.same.
    destruct (Nat.eqb_spec (Job.jid x) (Job.jid j)) as [Heq|Hne].
    + split; [done|]. intros []. rewrite Heq. left.
    + rewrite not_elem_of_cons, <- IH.
      destruct (Worker.indexOf j l); simpl; split; try done.
      by intros [].
Qed.

Lemma indexOf_Some j l i :
  Worker.indexOf j l = Some i →
  map Job.jid l ≡ₚ Job.jid j :: map Job.jid (delete i l).
Proof.
  revert i. induction l as [|x l IH]; intros i; simpl; [done|].
  unfold Job.same.
  destruct (Nat.eqb_spec (Job.jid x) (Job.jid j)) as [Heq|Hne].
  - intros [= <-]. simpl. by rewrite Heq.
  - destruct (Worker.indexOf j l) as [k|]; simpl; [|done].
    intros [= <-]. simpl. rewrite (IH k eq_refl). apply Permutation_swap.
Qed.

Lemma workerIds_spliceJob j w :
  Job.jid j ∈ workerIds w →
  workerIds w ≡ₚ Job.jid j
    :: workerIds (Worker.set_activeJobs
                    (Worker.spliceJob j (Worker.activeJobs w)) w).
Proof.
  unfold workerIds, Worker.spliceJob. simpl. intros Hin.
  destruct (Worker.indexOf j (Worker.activeJobs w)) as [i|] eqn:Hi.
  - by apply indexOf_Some.
  - by apply indexOf_None in Hi.
Qed.

Lemma getWorker_lookup ws job i :
  Workers.getWorker ws job = Some i → ∃ w, ws !! i = Some w.
Proof.
  revert i. induction ws as [|w ws IH]; intros i; simpl; [done|].
  destruct (Worker.canHandle w job); [intros [= <-]; by eexists|].
  destruct (Workers.getWorker ws job) as [k|]; simpl; [|done].
  intros [= <-]. by apply IH.
Qed.

Lemma bind_insert {A B} (f : A → list B) (l : list A) i x y :
  l !! i = Some x →
  l ≫= f = (take i l ≫= f) ++ f x ++ (drop (S i) l ≫= f) ∧
  (<[i:=y]> l) ≫= f = (take i l ≫= f) ++ f y ++ (drop (S i) l ≫= f).
Proof.
  intros Hi. split.
  - rewrite <- (take_drop_middle l i x Hi) at 1.
    by rewrite bind_app, bind_cons.
  - rewrite insert_take_drop by by eapply lookup_lt_Some.
    by rewrite bind_app, bind_cons.
Qed.

Lemma alter_insert {A} (f : A → A) (l : list A) i x :
  l !! i = Some x → alter f i l = <[i:=f x]> l.
Proof.
  revert i. induction l as [|y l IH]; intros [|i]; simpl; try done.
  - by intros [= ->].
  - intros Hi. f_equal. by apply IH.
Qed.

Lemma handleRest_worker env task job timeout w :
  let '(res, w', _) := Worker.handleRest env task job timeout w in
  match res with
  | Returned _ =>
    w' = Worker.set_activeJobs
           (Worker.spliceJob job (Worker.activeJobs w)) w
  | _ => w' = w
  end.
Proof.
  unfold Worker.handleRest.
  destruct (Worker.acquire env (Job.data job) Worker.BROWSER_INSTANCE_TRIES
              0 []) as [ji k calls| |]; [|done..].
  repeat case_match; by simplify_eq/=.
Qed.

(** The fields of the cluster that matter for who holds a job, after
    [doWork] up to the hand-over. *)
Lemma doWorkAdmit_holders env now c :
  let c' := (doWorkAdmit env now c).1 in
  nextJid c' = nextJid c ∧
  (workers c' = workers c ∧ inFlight c' = inFlight c ∧
   (jobQueue c' = jobQueue c ∨
    ∃ job, Queue.peek now (jobQueue c) = Some job ∧
      (jobQueue c' = Queue.remove job (jobQueue c) ∨
       ∃ d, jobQueue c'
            = Queue.push job d (Queue.remove job (jobQueue c)))) ∨
   ∃ job i f,
     Queue.peek now (jobQueue c) = Some job ∧
     Workers.getWorker (workers c) job = Some i ∧
     workers c' = alter (Worker.handleBegin job) i (workers c) ∧
     inFlight c' = inFlight c ++ [Build_Pending job i f] ∧
     jobQueue c' = Queue.remove job (jobQueue c)).
Proof.
  unfold doWorkAdmit.
  destruct (Queue.size (jobQueue c) =? 0)%nat.
  { destruct (negb _); simpl; (split; [done|]); left; auto. }
  destruct (Queue.peek now (jobQueue c)) as [job|] eqn:Hpeek;
    [|split; [done|]; left; auto].
  destruct (isDuplicate c (Job.getUrl job)).
  { shapes. simpl. split; [done|]. left. eauto 10. }
  destruct (domainDelay now c (Job.getDomain job)).
  { shapes. simpl. split; [done|]. left. eauto 10. }
  destruct (negb (Workers.canHandle (workers c) job)).
  { destruct (canLaunchWorker env); simpl; (split; [done|]); left; auto. }
  destruct (Workers.getWorker (workers c) job) as [worker|] eqn:Hget;
    [|split; [done|]; left; auto].
  shapes. simpl.
  destruct (match Job.taskFunction job with
            | Some f => Some f
            | None => taskFunction c
            end) as [f|]; simpl.
  - split; [done|]. right. by exists job, worker, f.
  - split; [done|]. left. eauto 10.
Qed.

Lemma doWorkSettle_holders now job res c :
  let c' := (doWorkSettle now job res c).1 in
  nextJid c' = nextJid c ∧ workers c' = workers c ∧
  inFlight c' = inFlight c ∧
  (jobQueue c' = jobQueue c ∨
   ∃ r e d, res = Returned r ∧
     jobQueue c' = Queue.push (Job.addError job e) d (jobQueue c)).
Proof.
  unfold doWorkSettle, doWorkFinish, emit.
  destruct res as [[error|data]| |]; simpl; repeat case_match; shapes; simpl;
    eauto 10.
Qed.

Lemma held_push_fresh q ws fl n job d :
  Job.jid job = n → held q ws fl n → held (Queue.push job d q) ws fl (S n).
Proof.
  intros Hj (Hnd & Hfl & Hlt & Hw). rewrite <- Hj in *.
  split; [|split; [done|split; [|done]]].
  - rewrite jids_push, <- app_assoc. simpl. apply NoDup_app.
    apply NoDup_app in Hnd as (Hq & Hdisj & Ha).
    split; [done|]. split.
    + intros i Hi. rewrite not_elem_of_cons. split.
      * apply Nat.lt_neq, Hlt, elem_of_app. by left.
      * by apply Hdisj.
    + constructor; [|done]. intros Hin.
      assert (Job.jid job < Job.jid job)%nat; [|lia].
      apply Hlt, elem_of_app. by right.
  - intros i. rewrite jids_push, <- app_assoc. simpl.
    rewrite elem_of_app, elem_of_cons.
    intros [Hi|[->|Hi]]; [|lia|].
    + apply Nat.lt_lt_succ_r, Hlt, elem_of_app. by left.
    + apply Nat.lt_lt_succ_r, Hlt, elem_of_app. by right.
Qed.

Lemma held_remove q ws fl n job :
  Job.jid job ∈ Queue.jids q → held q ws fl n →
  held (Queue.remove job q) ws fl n.
Proof.
  intros Hin%jids_remove (Hnd & Hfl & Hlt & Hw).
  split; [|split; [done|split; [|done]]].
  - rewrite Hin in Hnd. simpl in Hnd. by apply NoDup_cons in Hnd as [_ ?].
  - intros i Hi. apply Hlt. rewrite Hin. simpl. by right.
Qed.

Lemma held_requeue q ws fl n job job' d :
  Job.jid job' = Job.jid job →
  Job.jid job ∈ Queue.jids q → held q ws fl n →
  held (Queue.push job' d (Queue.remove job q)) ws fl n.
Proof.
  intros Hj Hin%jids_remove (Hnd & Hfl & Hlt & Hw).
  assert (Queue.jids (Queue.push job' d (Queue.remove job q))
            ++ (ws ≫= workerIds)
          ≡ₚ Queue.jids q ++ (ws ≫= workerIds)) as Hperm.
  { rewrite jids_push, Hj, Hin. solve_Permutation. }
  split; [|split; [done|split; [|done]]].
  - by rewrite Hperm.
  - intros i. rewrite Hperm. apply Hlt.
Qed.

Lemma heldOnce_from c0 c :
  jobQueue c0 = jobQueue c → workers c0 = workers c →
  inFlight c0 = inFlight c → nextJid c0 = nextJid c →
  heldOnce c0 → heldOnce c.
Proof. unfold heldOnce. by intros -> -> -> ->. Qed.

Lemma elem_of_map {A B} (f : A → B) (l : list A) y :
  y ∈ map f l ↔ ∃ x, y = f x ∧ x ∈ l.
Proof.
  rewrite list_elem_of_In, in_map_iff.
  split; intros (x & Hx & Hin); exists x; (split; [done|]);
    by apply list_elem_of_In.
Qed.

Lemma inFlight_active q ws fl n p :
  held q ws fl n → p ∈ fl → Job.jid (p_job p) ∈ ws ≫= workerIds.
Proof.
  intros (_ & _ & _ & Hw) Hp. destruct (Hw p Hp) as (w & Hl & Hj).
  apply list_elem_of_bind. exists w. split; [done|].
  by eapply list_elem_of_lookup_2.
Qed.

Lemma workerIds_handleBegin job w :
  workerIds (Worker.handleBegin job w) = workerIds w ++ [Job.jid job].
Proof. unfold workerIds. simpl. by rewrite map_app. Qed.

Lemma held_commit q (ws : list Worker.t) fl n job i w f :
  Job.jid job ∈ Queue.jids q → ws !! i = Some w → held q ws fl n →
  held (Queue.remove job q) (<[i:=Worker.handleBegin job w]> ws)
    (fl ++ [Build_Pending job i f]) n.
Proof.
  intros Hin Hi Hheld.
  pose proof Hheld as (Hnd & Hfl & Hlt & Hw).
  pose proof (jids_remove _ _ Hin) as Hq.
  destruct (bind_insert workerIds ws i w (Worker.handleBegin job w) Hi)
    as [Hws Hws'].
  assert (Queue.jids (Queue.remove job q)
            ++ ((<[i:=Worker.handleBegin job w]> ws) ≫= workerIds)
          ≡ₚ Queue.jids q ++ (ws ≫= workerIds)) as Hperm.
  { rewrite Hws', Hws, workerIds_handleBegin, Hq. solve_Permutation. }
  split; [|split; [|split]].
  - by rewrite Hperm.
  - rewrite map_app. simpl. apply NoDup_app. split; [done|].
    split; [|apply NoDup_singleton].
    intros j Hj Hj'. apply list_elem_of_singleton in Hj'. subst j.
    apply elem_of_map in Hj as (p & Hp & Hpin).
    apply NoDup_app in Hnd as (_ & Hdisj & _).
    apply (Hdisj (Job.jid job) Hin). rewrite Hp.
    by eapply inFlight_active.
  - intros j. rewrite Hperm. apply Hlt.
  - intros p [Hp|Hp]%elem_of_app.
    + destruct (Hw p Hp) as (w' & Hl & Hj).
      destruct (decide (i = p_worker p)) as [->|Hne].
      * exists (Worker.handleBegin job w).
        rewrite list_lookup_insert_eq by by eapply lookup_lt_Some.
        split; [done|]. rewrite workerIds_handleBegin, elem_of_app. left.
        congruence.
      * exists w'. by rewrite list_lookup_insert_ne.
    + apply list_elem_of_singleton in Hp as ->. simpl.
      exists (Worker.handleBegin job w).
      rewrite list_lookup_insert_eq by by eapply lookup_lt_Some.
      split; [done|]. rewrite workerIds_handleBegin, elem_of_app. right.
      by apply list_elem_of_singleton.
Qed.

Lemma held_launched q (ws : list Worker.t) fl n k b :
  held q ws fl n → held q (ws ++ [Worker.Build k b []]) fl n.
Proof.
  intros (Hnd & Hfl & Hlt & Hw).
  assert ((ws ++ [Worker.Build k b []]) ≫= workerIds = ws ≫= workerIds)
    as Hids.
  { rewrite bind_app. simpl. unfold workerIds at 2. simpl.
    by rewrite app_nil_r. }
  split; [|split; [done|split]].
  - by rewrite Hids.
  - intros i. rewrite Hids. apply Hlt.
  - intros p Hp. destruct (Hw p Hp) as (w & Hl & Hj).
    exists w. split; [|done]. by apply lookup_app_l_Some.
Qed.

Lemma held_threw q ws fl n k p :
  fl !! k = Some p → held q ws fl n → held q ws (delete k fl) n.
Proof.
  intros Hk (Hnd & Hfl & Hlt & Hw).
  split; [done|]. split; [|split; [done|]].
  - rewrite (delete_Permutation _ _ _ Hk) in Hfl. simpl in Hfl.
    by apply NoDup_cons in Hfl as [_ ?].
  - intros p' Hp'%list_elem_of_delete_inv. by apply Hw.
Qed.

Lemma held_returned q (ws : list Worker.t) fl n k p w :
  fl !! k = Some p → ws !! p_worker p = Some w → held q ws fl n →
  let w' := Worker.set_activeJobs
              (Worker.spliceJob (p_job p) (Worker.activeJobs w)) w in
  held q (<[p_worker p:=w']> ws) (delete k fl) n ∧
  (∀ job' d, Job.jid job' = Job.jid (p_job p) →
     held (Queue.push job' d q) (<[p_worker p:=w']> ws) (delete k fl) n).
Proof.
  intros Hk Hi Hheld w'.
  pose proof Hheld as (Hnd & Hfl & Hlt & Hw).
  assert (p ∈ fl) as Hp by by eapply list_elem_of_lookup_2.
  destruct (Hw p Hp) as (w0 & Hl & Hj).
  assert (w0 = w) as -> by congruence.
  pose proof (workerIds_spliceJob _ _ Hj) as Hsplice. fold w' in Hsplice.
  destruct (bind_insert workerIds ws (p_worker p) w w' Hi) as [Hws Hws'].
  rewrite (delete_Permutation _ _ _ Hk) in Hfl. simpl in Hfl.
  apply NoDup_cons in Hfl as [Hfresh Hfl'].
  assert (∀ p', p' ∈ delete k fl →
            ∃ w1, <[p_worker p:=w']> ws !! p_worker p' = Some w1 ∧
                  Job.jid (p_job p') ∈ workerIds w1) as Hw'.
  { intros p' Hp'.
    assert (Job.jid (p_job p') ≠ Job.jid (p_job p)) as Hne.
    { intros Heq. apply Hfresh. rewrite <- Heq.
      apply elem_of_map. by exists p'. }
    apply list_elem_of_delete_inv in Hp'.
    destruct (Hw p' Hp') as (w1 & Hl1 & Hj1).
    destruct (decide (p_worker p = p_worker p')) as [Heq|Hne'].
    - exists w'. rewrite Heq.
      rewrite list_lookup_insert_eq by by eapply lookup_lt_Some.
      split; [done|]. rewrite <- Heq in Hl1.
      assert (w1 = w) as -> by congruence.
      rewrite Hsplice in Hj1. apply elem_of_cons in Hj1 as [?|?]; done.
    - exists w1. by rewrite list_lookup_insert_ne. }
  assert (Queue.jids q ++ (ws ≫= workerIds)
          ≡ₚ Job.jid (p_job p)
             :: Queue.jids q ++ ((<[p_worker p:=w']> ws) ≫= workerIds))
    as Hperm.
  { rewrite Hws', Hws, Hsplice. solve_Permutation. }
  rewrite Hperm in Hnd. apply NoDup_cons in Hnd as [Hnew Hnd'].
  split.
  - split; [done|]. split; [done|]. split; [|done].
    intros i Hin. apply Hlt. rewrite Hperm. by right.
  - intros job' d Hjid.
    assert (Queue.jids (Queue.push job' d q)
              ++ ((<[p_worker p:=w']> ws) ≫= workerIds)
            ≡ₚ Job.jid (p_job p)
               :: Queue.jids q ++ ((<[p_worker p:=w']> ws) ≫= workerIds))
      as Hperm'.
    { rewrite jids_push, Hjid. solve_Permutation. }
    split; [|split; [done|split; [|done]]].
    + rewrite Hperm'. by constructor.
    + intros i. rewrite Hperm', <- Hperm. apply Hlt.
Qed.

Lemma doWorkAdmit_heldOnce env now c :
  heldOnce c → heldOnce (doWorkAdmit env now c).1.
Proof.
  intros Hheld. unfold heldOnce in *.
  destruct (doWorkAdmit_holders env now c)
    as (-> & [(-> & -> & Hq)|(job & i & f & Hpeek & Hget & -> & -> & ->)]).
  - destruct Hq as [->|(job & Hpeek & [->|(d & ->)])]; [done|..].
    + by apply held_remove, Hheld; eapply peek_in.
    + apply held_requeue; [done| |done]. by eapply peek_in.
  - destruct (getWorker_lookup _ _ _ Hget) as (w & Hw).
    rewrite (alter_insert _ _ _ _ Hw).
    apply held_commit; [|done..]. by eapply peek_in.
Qed.

Lemma handled_heldOnce k env now c c' :
  handled k env now c = Some c' → heldOnce c → heldOnce c'.
Proof.
  unfold handled.
  destruct (inFlight c !! k) as [p|] eqn:Hk; simpl; [|done].
  destruct (workers c !! p_worker p) as [w|] eqn:Hw; simpl; [|done].
  pose proof (handleRest_worker env (p_jobFunction p) (p_job p)
                (timeout (options c)) w) as Hrest.
  destruct (Worker.handleRest _ _ _ _ _) as [[res w'] calls].
  intros [= <-] Hheld. unfold heldOnce in *.
  destruct (doWorkSettle_holders now (p_job p) res
              (set_inFlight (delete k (inFlight c))
                 (set_workers (<[p_worker p:=w']> (workers c)) c)))
    as (-> & -> & -> & Hq).
  simpl.
  destruct res as [r| |]; subst w'.
  - destruct (held_returned _ _ _ _ _ _ _ Hk Hw Hheld) as [Hsame Hpush].
    destruct Hq as [->|(r' & e & d & _ & ->)]; [done|].
    by apply Hpush.
  - destruct Hq as [->|(r' & e' & d & ? & _)]; [|done].
    assert (<[p_worker p:=w]> (workers c) = workers c) as ->
      by by apply list_insert_id.
    by eapply held_threw.
  - destruct Hq as [->|(r' & e' & d & ? & _)]; [|done].
    assert (<[p_worker p:=w]> (workers c) = workers c) as ->
      by by apply list_insert_id.
    by eapply held_threw.
Qed.

Lemma close_holders env c :
  jobQueue (close env c).1 = jobQueue c ∧
  workers (close env c).1 = workers c ∧
  inFlight (close env c).1 = inFlight c ∧
  nextJid (close env c).1 = nextJid c.
Proof.
  unfold close, emit.
  set (c1 := clearTimer _ (clearTimer _ (set_isClosed true c))).
  assert (jobQueue c1 = jobQueue c ∧ workers c1 = workers c ∧
          inFlight c1 = inFlight c ∧ nextJid c1 = nextJid c)
    as (Hq & Hw & Hf & Hn).
  { unfold c1, clearTimer. by repeat case_match. }
  clearbody c1.
  destruct (workersCloseOutcome env); [done|].
  unfold drawMonitor, emit, clearTimer. simpl.
  destruct (monitoringInterval c1); simpl; by repeat case_match.
Qed.

Lemma step_heldOnce a c c' : step a c = Some c' → heldOnce c → heldOnce c'.
Proof.
  destruct a; simpl.
  - by intros [= <-].
  - intros [= <-]. unfold queue, queueJob, emit, heldOnce. shapes. simpl.
    by apply held_push_fresh.
  - intros [= <-]. unfold execute, queueJob, emit, heldOnce. shapes. simpl.
    by apply held_push_fresh.
  - by intros [= <-].
  - by intros [= <-].
  - destruct (isArmed _ _); [|done]. intros [= <-]. by shapes.
  - destruct (isArmed _ _); [|done]. intros [= <-] Hheld.
    apply doWorkAdmit_heldOnce.
    apply (heldOnce_from c); [..|done]; by destruct (workCallTimeout c).
  - destruct (0 <? launching c)%nat; [|done]. intros [= <-].
    unfold launched, heldOnce. shapes. simpl. apply held_launched.
  - destruct (0 <? launching c)%nat; [|done]. by intros [= <-].
  - apply handled_heldOnce.
  - destruct (isArmed _ _); [|done]. by intros [= <-].
  - intros [= <-]. destruct (close_holders env c) as (Hq & Hw & Hf & Hn).
    by apply heldOnce_from.
Qed.

Lemma reachable_heldOnce o acts c :
  run acts (launch o) = Some c → heldOnce c.
Proof.
  intros Hrun. eapply (run_invariant heldOnce); [|done|].
  - intros a c0 c1. apply step_heldOnce.
  - unfold heldOnce, held. simpl.
    split; [constructor|]. split; [constructor|].
    split; intros ? ?%elem_of_nil; done.
Qed.

(** In every state that the cluster reaches, a queued job is not among the
    active jobs of any worker: the job that [doWork] hands to a worker is
    never one that the worker is handling already. *)
Lemma queued_job_is_not_active o acts c now job w :
  run acts (launch o) = Some c →
  Queue.peek now (jobQueue c) = Some job →
  w ∈ workers c →
  Worker.indexOf job (Worker.activeJobs w) = None.
Proof.
  intros Hrun Hpeek%peek_in Hw.
  destruct (reachable_heldOnce o acts c Hrun) as (Hnd & _).
  apply NoDup_app in Hnd as (_ & Hdisj & _).
  apply indexOf_None. intros Hin. apply (Hdisj _ Hpeek).
  apply list_elem_of_bind. by exists w.
Qed.

(** Hence every call of [handle] that the cluster makes and that returns
    leaves the worker as it was. *)
Lemma dispatched_handle_restores_worker o acts c now job w env task tmo
    r w' calls :
  run acts (launch o) = Some c →
  Queue.peek now (jobQueue c) = Some job →
  w ∈ workers c →
  Worker.handle env task job tmo w = (Returned r, w', calls) →
  w' = w.
Proof.
  intros Hrun Hpeek Hw Hh.
  pose proof (queued_job_is_not_active o acts c now job w Hrun Hpeek Hw)
    as Hfresh.
  apply handleRest_returned_worker in Hh. rewrite Hh.
  destruct w as [i b l]. unfold Worker.set_activeJobs, Worker.handleBegin.
  simpl in *. by rewrite spliceJob_pushed_fresh.
Qed.

(** *** Timers and the dispatch throttle *)

Import Timers.

Lemma work_timers now c0 c :
  timers c0 = timers c → timers (work now c0) = timers (work now c).
Proof.
  unfold timers, work. intros [= Ha Hn Hc Hw Hm Hx]. rewrite Hw.
  destruct (workCallTimeout c) eqn:E; simpl; congruence.
Qed.

Lemma recordUrl_timers u c : timers (recordUrl u c) = timers c.
Proof. unfold recordUrl. by repeat case_match. Qed.

Lemma recordDomain_timers now d c : timers (recordDomain now d c) = timers c.
Proof. unfold recordDomain. by repeat case_match. Qed.

Lemma timerMove_from c0 c c' :
  timers c0 = timers c → timerMove c0 c' → timerMove c c'.
Proof.
  intros H0 [H|[now H]]; [left; congruence|right].
  exists now. rewrite H. by apply work_timers.
Qed.

Lemma timerMove_work now c0 c :
  timers c0 = timers c → timerMove c (work now c0).
Proof. intros H. right. exists now. by apply work_timers. Qed.

Lemma doWorkAdmit_timers env now c : timerMove c (doWorkAdmit env now c).1.
Proof.
  unfold doWorkAdmit.
  destruct (Queue.size (jobQueue c) =? 0)%nat.
  { destruct (negb _); by left. }
  destruct (Queue.peek now (jobQueue c)) as [job|]; [|by left].
  destruct (isDuplicate c (Job.getUrl job)); [by apply timerMove_work|].
  destruct (domainDelay now c (Job.getDomain job));
    [by apply timerMove_work|].
  destruct (negb (Workers.canHandle (workers c) job)).
  { destruct (canLaunchWorker env); by left. }
  destruct (Workers.getWorker (workers c) job) as [worker|]; [|by left].
  cbv zeta.
  set (c1 := recordDomain now _ (recordUrl _ (set_jobQueue _ c))).
  assert (timers c1 = timers c) as H1.
  { unfold c1. by rewrite recordDomain_timers, recordUrl_timers. }
  clearbody c1. unfold scheduleNextWork.
  destruct (hasFreeCapacity env).
  - right. exists now. rewrite <- (work_timers now c1 c H1).
    by repeat case_match.
  - apply (timerMove_from c1); [done|]. repeat case_match; by left.
Qed.

Lemma doWorkSettle_timers now job res c :
  timerMove c (doWorkSettle now job res c).1.
Proof.
  unfold doWorkSettle, doWorkFinish.
  destruct res as [[error|data]| |]; [..|by left|by left];
    repeat case_match; by apply timerMove_work.
Qed.

Lemma queueJob_timers now d u dm f cb c :
  timerMove c (queueJob now d u dm f cb c).
Proof. unfold queueJob. by apply timerMove_work. Qed.

Lemma close_timers env c :
  armed (close env c).1
  = armed c ∖ (timerSet (checkForWorkInterval c)
               ∪ timerSet (workCallTimeout c)
               ∪ (if workersCloseOutcome env is None
                  then if browserCloseOutcome env ≫= readMessage is None
                       then timerSet (monitoringInterval c) else ∅
                  else ∅)) ∧
  nextTimer (close env c).1 = nextTimer c ∧
  checkForWorkInterval (close env c).1 = checkForWorkInterval c ∧
  workCallTimeout (close env c).1 = workCallTimeout c ∧
  monitoringInterval (close env c).1 = monitoringInterval c ∧
  nextWorkCall (close env c).1 = nextWorkCall c.
Proof.
  unfold close.
  destruct (workersCloseOutcome env),
    (browserCloseOutcome env ≫= readMessage);
  destruct c as [? ? ? ? ? ? ? ? ? [mon|] [] ? ? [chk|] ? [wct|] ? ? ? ? ? ?];
    fields; cbn [fst]; (split; [set_solver|done]).
Qed.

(** What a step does to the timers. *)
Lemma step_timers a c c' :
  step a c = Some c' →
  timerMove c c' ∨
  (∃ env now h,
     a = ActWorkTimeout env now ∧ workCallTimeout c = Some h ∧ h ∈ armed c ∧
     timerMove
       (set_workCallTimeout None (set_armed (armed c ∖ {[h]}) c)) c') ∨
  (∃ env, a = ActClose env ∧ c' = (close env c).1).
Proof.
  destruct a; simpl.
  - intros [= <-]. by left; left.
  - intros [= <-]. left. apply queueJob_timers.
  - intros [= <-]. left. apply queueJob_timers.
  - intros [= <-]. by left; left.
  - intros [= <-]. by left; left.
  - destruct (isArmed _ _); [|done]. intros [= <-]. left.
    by apply timerMove_work.
  - destruct (workCallTimeout c) as [h|] eqn:Hwct; [|done]. simpl.
    destruct (bool_decide_reflect (h ∈ armed c)) as [Hin|]; [|done].
    intros [= <-]. right; left. exists env, now, h.
    repeat (split; [done|]). apply doWorkAdmit_timers.
  - destruct (0 <? launching c)%nat; [|done]. intros [= <-]. left.
    unfold launched. by apply timerMove_work.
  - destruct (0 <? launching c)%nat; [|done]. intros [= <-]. by left; left.
  - unfold handled.
    destruct (inFlight c !! k) as [p|] eqn:Hk; simpl; [|done].
    destruct (workers c !! p_worker p) as [w|]; simpl; [|done].
    destruct (Worker.handleRest _ _ _ _ _) as [[res w'] calls].
    intros [= <-]. left.
    eapply timerMove_from; [|apply doWorkSettle_timers]. done.
  - destruct (isArmed _ _); [|done]. intros [= <-]. by left; left.
  - intros [= <-]. right; right. by exists env.
Qed.

Lemma timersHeld_view c0 c :
  timers c0 = timers c → timersHeld c → timersHeld c0.
Proof.
  unfold timers, timersHeld, handles. intros [= -> -> -> -> -> _]. done.
Qed.

Lemma work_timersHeld now c : timersHeld c → timersHeld (work now c).
Proof.
  unfold work. destruct (workCallTimeout c) as [h|] eqn:Hwct; [done|].
  unfold timersHeld, handles. simpl. rewrite Hwct. simpl.
  intros (Harmed & Hfresh & _).
  assert (nextTimer c ∉ timerSet (checkForWorkInterval c)
                        ∪ timerSet (monitoringInterval c)) as Hnew.
  { intros Hin. assert (nextTimer c < nextTimer c)%nat; [|lia].
    apply Hfresh. set_solver. }
  split; [set_solver|]. split; [|set_solver].
  intros h Hh. assert (h = nextTimer c ∨ (h < nextTimer c)%nat) as [->|?];
    [|lia..].
  destruct (decide (h = nextTimer c)); [by left|right].
  apply Hfresh. set_solver.
Qed.

Lemma timerMove_timersHeld c c' :
  timerMove c c' → timersHeld c → timersHeld c'.
Proof.
  intros [H|[now H]] Hc.
  - by eapply timersHeld_view.
  - eapply timersHeld_view; [done|]. by apply work_timersHeld.
Qed.

Lemma step_timersHeld a c c' :
  step a c = Some c' → timersHeld c → timersHeld c'.
Proof.
  intros Hstep Hc.
  destruct (step_timers a c c' Hstep)
    as [Hmove|[(env & now & h & -> & Hwct & Hin & Hmove)|(env & -> & ->)]].
  - by eapply timerMove_timersHeld.
  - eapply timerMove_timersHeld; [done|].
    destruct Hc as (Harmed & Hfresh & Hdisj).
    unfold timersHeld, handles in *. simpl. rewrite Hwct in *. simpl in *.
    split; [set_solver|]. split; [|set_solver].
    intros h' Hh'. apply Hfresh. set_solver.
  - destruct (close_timers env c) as (Ha & Hn & Hchk & Hwct & Hmon & _).
    destruct Hc as (Harmed & Hfresh & Hdisj).
    unfold timersHeld, handles in *. rewrite Ha, Hn, Hchk, Hwct, Hmon.
    split; [set_solver|done].
Qed.

Lemma launch_timersHeld o : timersHeld (launch o).
Proof.
  unfold timersHeld, handles, launch. simpl.
  destruct (monitor o); simpl.
  - split; [set_solver|]. split; [|set_solver].
    intros h Hh. assert (h = 1 ∨ h = 0)%nat as [->| ->]; [set_solver|lia..].
  - split; [set_solver|]. split; [|set_solver].
    intros h Hh. assert (h = 0)%nat as ->; [set_solver|lia].
Qed.

(** X6.  In every state that the cluster reaches, every armed timer is one
    whose handle a field of the cluster holds: the poll interval
    ([checkForWorkInterval]), the monitor interval or the dispatch timeout
    ([workCallTimeout]), which is none of the intervals.  So [work()] never
    arms a second dispatch timeout while one is pending: two armed timers
    that are not the intervals are the same timer. *)
Theorem dispatch_timeout_is_unique o acts c :
  run acts (launch o) = Some c →
  timersHeld c ∧
  ∀ h h', h ∈ armed c → h' ∈ armed c →
    h ∉ timerSet (checkForWorkInterval c) ∪ timerSet (monitoringInterval c) →
    h' ∉ timerSet (checkForWorkInterval c) ∪ timerSet (monitoringInterval c) →
    h = h' ∧ workCallTimeout c = Some h.
Proof.
  intros Hrun.
  assert (timersHeld c) as Hc.
  { eapply (run_invariant timersHeld); [|done|apply launch_timersHeld].
    intros a c0 c1. apply step_timersHeld. }
  split; [done|]. destruct Hc as (Harmed & _ & _). unfold handles in Harmed.
  intros h h' Hh Hh' Hn Hn'.
  clear Hrun.
  destruct (workCallTimeout c) as [tm|]; simpl in Harmed; [|set_solver].
  apply Harmed in Hh, Hh'. rewrite !elem_of_union, elem_of_singleton in Hh, Hh'.
  rewrite not_elem_of_union in Hn, Hn'. split; [|f_equal]; naive_solver.
Qed.

Lemma dispatch_timeout_is_unique_witness :
  timersHeld (queue 0 5 None None None (launch DEFAULT_OPTIONS)).
Proof.
  apply (dispatch_timeout_is_unique DEFAULT_OPTIONS
           [ActQueue 0 5 None None None]).
  reflexivity.
Defined.

(** [nextTimer] counts the timers armed so far, and after the launch only
    [work()] arms one: each time it does, [nextWorkCall] moves on by at
    least [WORK_CALL_INTERVAL_LIMIT]. *)
Lemma timerMove_spaced c c' :
  timerMove c c' →
  (nextTimer c ≤ nextTimer c')%nat ∧
  nextWorkCall c
  + WORK_CALL_INTERVAL_LIMIT * Z.of_nat (nextTimer c' - nextTimer c)
  ≤ nextWorkCall c'.
Proof.
  unfold timers.
  intros [[= _ -> _ _ _ ->]|[now [= _ -> _ _ _ ->]]];
    [split; [lia|]; rewrite Nat.sub_diag; lia|].
  unfold work.
  destruct (workCallTimeout c); simpl;
    [split; [lia|]; rewrite Nat.sub_diag; lia|].
  split; [lia|].
  replace (S (nextTimer c) - nextTimer c)%nat with 1%nat by lia.
  unfold WORK_CALL_INTERVAL_LIMIT. lia.
Qed.

Lemma step_spaced a c c' :
  step a c = Some c' →
  (nextTimer c ≤ nextTimer c')%nat ∧
  nextWorkCall c
  + WORK_CALL_INTERVAL_LIMIT * Z.of_nat (nextTimer c' - nextTimer c)
  ≤ nextWorkCall c'.
Proof.
  intros Hstep.
  destruct (step_timers a c c' Hstep)
    as [Hmove|[(env & now & h & -> & Hwct & Hin & Hmove)|(env & -> & ->)]].
  - by apply timerMove_spaced.
  - by apply timerMove_spaced in Hmove.
  - destruct (close_timers env c) as (_ & -> & _ & _ & _ & ->).
    split; [lia|]. rewrite Nat.sub_diag. lia.
Qed.

(** X7.  The dispatch is throttled: over any sequence of steps, if
    [work()] armed [k] dispatch timeouts, then [nextWorkCall], the time for
    which the last of them was set, has moved on by at least
    [k * WORK_CALL_INTERVAL_LIMIT] milliseconds; it never moves back. *)
Theorem dispatch_is_throttled acts c c' :
  run acts c = Some c' →
  (nextTimer c ≤ nextTimer c')%nat ∧
  nextWorkCall c
  + WORK_CALL_INTERVAL_LIMIT * Z.of_nat (nextTimer c' - nextTimer c)
  ≤ nextWorkCall c'.
Proof.
  revert c. induction acts as [|a acts IH]; intros c; simpl.
  - intros [= <-]. split; [lia|]. rewrite Nat.sub_diag. lia.
  - destruct (step a c) as [c1|] eqn:Ha; simpl; [|done].
    intros Hrun. destruct (step_spaced a c c1 Ha) as [Hn Hw].
    destruct (IH c1 Hrun) as [Hn' Hw'].
    split; [lia|]. unfold WORK_CALL_INTERVAL_LIMIT in *. lia.
Qed.

Lemma dispatch_is_throttled_witness :
  ∃ c', run runSameUrlTwice (launch optionsSkipDuplicates) = Some c' ∧
        nextWorkCall (launch optionsSkipDuplicates)
        + WORK_CALL_INTERVAL_LIMIT
          * Z.of_nat (nextTimer c' - nextTimer (launch optionsSkipDuplicates))
        ≤ nextWorkCall c'.
Proof.
  pose proof runSameUrlTwice_result as Hres.
  destruct (run runSameUrlTwice (launch optionsSkipDuplicates)) as [c'|] eqn:H;
    [|discriminate].
  exists c'. split; [done|].
  by destruct (dispatch_is_throttled _ _ _ H).
Defined.

(** *** What is logged outside [doWork] *)

Lemma quiet_views es :
  Forall (λ e, isDispatch e = false) es →
  omap handOver es = [] ∧ omap idleResolution es = [].
Proof.
  induction 1 as [|e es He _ [IH1 IH2]]; [done|].
  change (e :: es) with ([e] ++ es). rewrite !omap_app, IH1, IH2.
  by destruct e.
Qed.

Lemma quiet_waitForOne d (l : list nat) :
  Forall (λ e, isDispatch e = false) (map (λ r, WaitForOneResolved r d) l).
Proof. apply List.Forall_map, Forall_true. done. Qed.

Ltac log_grows :=
  first
    [ by (exists []; split; [by rewrite app_nil_r|constructor])
    | eexists; split; [rewrite <- ?app_assoc; reflexivity|];
      repeat first [ apply quiet_waitForOne
                   | apply Forall_app; split
                   | apply Forall_cons; split; [done|]
                   | apply Forall_nil
                   | exact I ] ].

Lemma doWorkSettle_log now job res c :
  ∃ es, log (doWorkSettle now job res c).1 = log c ++ es ∧
        Forall (λ e, isDispatch e = false) es.
Proof.
  unfold doWorkSettle, doWorkFinish, emit.
  destruct res as [[error|data]| |]; simpl; repeat case_match; shapes; simpl;
    log_grows.
Qed.

Lemma queueJob_log now d u dm f cb c :
  log (queueJob now d u dm f cb c) = log c ++ [EmitQueue d f].
Proof. unfold queueJob, emit. shapes. by simpl. Qed.

Lemma close_log env c :
  ∃ es, log (close env c).1 = log c ++ es ∧
        Forall (λ e, isDispatch e = false) es.
Proof.
  unfold close.
  destruct (workersCloseOutcome env),
    (browserCloseOutcome env ≫= readMessage);
  destruct c as [? ? ? ? ? ? ? ? ? [mon|] [] ? ? [chk|] ? [wct|] ? ? ? ? ? ?];
    fields; cbn [fst]; log_grows.
Qed.

(** Outside the timeout that calls [doWork], no step hands a job to a
    worker, asks for a worker launch or resolves an idle waiter. *)
Lemma step_log a c c' :
  step a c = Some c' →
  (∀ env now, a ≠ ActWorkTimeout env now) →
  ∃ es, log c' = log c ++ es ∧ Forall (λ e, isDispatch e = false) es.
Proof.
  destruct a; simpl; intros Hstep Ha.
  - injection Hstep as <-. log_grows.
  - injection Hstep as <-. unfold queue. rewrite queueJob_log. log_grows.
  - injection Hstep as <-. unfold execute. rewrite queueJob_log. log_grows.
  - injection Hstep as <-. log_grows.
  - injection Hstep as <-. log_grows.
  - destruct (isArmed _ _); [|done]. injection Hstep as <-. shapes. simpl.
    log_grows.
  - by destruct (Ha env now).
  - destruct (0 <? launching c)%nat; [|done]. injection Hstep as <-.
    unfold launched. shapes. simpl. log_grows.
  - destruct (0 <? launching c)%nat; [|done]. injection Hstep as <-.
    log_grows.
  - revert Hstep. unfold handled.
    destruct (inFlight c !! k) as [p|] eqn:Hk; simpl; [|done].
    destruct (workers c !! p_worker p) as [w|]; simpl; [|done].
    destruct (Worker.handleRest _ _ _ _ _) as [[res w'] calls].
    intros [= <-].
    apply (doWorkSettle_log now (p_job p) res
             (set_inFlight (delete k (inFlight c))
                (set_workers (<[p_worker p:=w']> (workers c)) c))).
  - destruct (isArmed _ _); [|done]. injection Hstep as <-. simpl.
    log_grows.
  - injection Hstep as <-. apply close_log.
Qed.

(** *** Closing and the dispatch timeout *)


Lemma work_pending now c h : workCallTimeout c = Some h → work now c = c.
Proof. unfold work. by intros ->. Qed.

Lemma stalled_view c0 c : timers c0 = timers c → stalled c → stalled c0.
Proof.
  unfold timers, stalled. intros [= Ha _ _ Hw _ _] (h & Hh & Hn).
  exists h. by rewrite Hw, Ha.
Qed.

Lemma timerMove_stalled c c' : timerMove c c' → stalled c → stalled c'.
Proof.
  intros [H|[now H]] Hc; [by eapply stalled_view|].
  apply (stalled_view _ (work now c)); [done|].
  destruct Hc as (h & Hwct & Hh). rewrite (work_pending now c h) by done.
  by exists h.
Qed.

Lemma step_stalled a c c' :
  step a c = Some c' → stalled c →
  stalled c' ∧ ∀ env now, a ≠ ActWorkTimeout env now.
Proof.
  intros Hstep Hc.
  destruct (step_timers a c c' Hstep)
    as [Hmove|[(env & now & h & -> & Hwct & Hin & Hmove)|(env & -> & ->)]].
  - split; [by eapply timerMove_stalled|].
    intros env now ->. simpl in Hstep.
    destruct Hc as (h & Hwct & Hh). rewrite Hwct in Hstep. simpl in Hstep.
    by rewrite bool_decide_eq_false_2 in Hstep.
  - destruct Hc as (h' & Hwct' & Hh'). congruence.
  - split; [|done]. destruct Hc as (h & Hwct & Hh).
    destruct (close_timers env c) as (Ha & _ & _ & Hw & _).
    exists h. rewrite Hw, Ha. split; [done|]. set_solver.
Qed.

Lemma run_stalled acts c c' :
  run acts c = Some c' → stalled c →
  stalled c' ∧ workCallTimeout c' = workCallTimeout c ∧
  ∃ es, log c' = log c ++ es ∧ Forall (λ e, isDispatch e = false) es.
Proof.
  revert c. induction acts as [|a acts IH]; intros c; simpl.
  - intros [= <-] Hc. split; [done|]. split; [done|]. exists [].
    by rewrite app_nil_r.
  - destruct (step a c) as [c1|] eqn:Ha; simpl; [|done].
    intros Hrun Hc. destruct (step_stalled a c c1 Ha Hc) as [Hc1 Hact].
    destruct (step_log a c c1 Ha Hact) as (es & Hes & Hquiet).
    destruct (IH c1 Hrun Hc1) as (Hc' & Hwct & es' & Hes' & Hquiet').
    split; [done|]. split.
    + rewrite Hwct. destruct Hc as (h & Hh & Hn).
      destruct (step_timers a c c1 Ha)
        as [[[= _ _ _ ? _ _]|[now [= _ _ _ ? _ _]]]
           |[(env & now' & h' & -> & _)|(env & -> & ->)]].
      * done.
      * by rewrite (work_pending now c h) in *.
      * by destruct (Hact env now').
      * by destruct (close_timers env c) as (_ & _ & _ & ? & _).
    + exists (es ++ es'). rewrite Hes', Hes, <- app_assoc. split; [done|].
      by apply Forall_app.
Qed.

Lemma close_stalls env c h :
  workCallTimeout c = Some h → stalled (close env c).1.
Proof.
  intros Hwct. destruct (close_timers env c) as (Ha & _ & _ & Hw & _).
  exists h. rewrite Hw, Ha. split; [done|]. rewrite Hwct. set_solver.
Qed.

(** X8.  [close()] clears the pending dispatch timeout without resetting
    [workCallTimeout].  So when a dispatch timeout is pending at the time of
    the call, [work()] never arms another one: whatever happens afterwards,
    [doWork] does not run again, no job is handed to a worker and no idle
    waiter is resolved. *)
Theorem close_with_pending_dispatch_stops_it env c h acts c' :
  workCallTimeout c = Some h →
  run acts (close env c).1 = Some c' →
  (∀ denv now, step (ActWorkTimeout denv now) c' = None) ∧
  workCallTimeout c' = Some h ∧
  omap handOver (log c') = omap handOver (log (close env c).1) ∧
  omap idleResolution (log c')
  = omap idleResolution (log (close env c).1).
Proof.
  intros Hwct Hrun.
  destruct (run_stalled acts _ c' Hrun (close_stalls env c h Hwct))
    as ((h' & Hh' & Hn) & Hsame & es & Hes & [Hho Hidle]%quiet_views).
  destruct (close_timers env c) as (_ & _ & _ & Hw & _).
  split; [|split; [congruence|]].
  - intros denv now. simpl. rewrite Hh'. simpl.
    by rewrite bool_decide_eq_false_2.
  - by rewrite Hes, !omap_app, Hho, Hidle, !app_nil_r.
Qed.

Lemma close_with_pending_dispatch_stops_it_witness :
  step (ActWorkTimeout envQuiet 20)
    (close envCloseOk
       (queue 0 5 None None None (launch DEFAULT_OPTIONS))).1 = None.
Proof.
  apply (close_with_pending_dispatch_stops_it envCloseOk
           (queue 0 5 None None None (launch DEFAULT_OPTIONS)) 1%nat []).
  - reflexivity.
  - reflexivity.
Defined.



(** *** The waiters of [idle()] and of [waitForOne()] *)

Lemma doWorkSettle_idleResolvers now job res c :
  idleResolvers (doWorkSettle now job res c).1 = idleResolvers c.
Proof.
  unfold doWorkSettle, doWorkFinish, emit.
  destruct res as [[error|data]| |]; simpl; repeat case_match; shapes;
    by simpl.
Qed.

Lemma close_idleResolvers env c :
  idleResolvers (close env c).1 = idleResolvers c.
Proof.
  unfold close.
  destruct (workersCloseOutcome env),
    (browserCloseOutcome env ≫= readMessage);
  destruct c as [? ? ? ? ? ? ? ? ? [mon|] [] ? ? [chk|] ? [wct|] ? ? ? ? ? ?];
    by fields.
Qed.

Lemma step_idleResolvers a c c' :
  step a c = Some c' →
  idleResolvers c' = idleResolvers c ∨
  ∃ r, a = ActIdle r ∧ idleResolvers c' = idleResolvers c ++ [r].
Proof.
  destruct a; simpl.
  - intros [= <-]. by left.
  - intros [= <-]. left. unfold queue, queueJob, emit. shapes. by simpl.
  - intros [= <-]. left. unfold execute, queueJob, emit. shapes. by simpl.
  - intros [= <-]. right. by exists resolve.
  - intros [= <-]. by left.
  - destruct (isArmed _ _); [|done]. intros [= <-]. left. shapes. by simpl.
  - destruct (isArmed _ _); [|done]. intros [= <-]. left.
    rewrite doWorkAdmit_keeps_idleResolvers. by destruct (workCallTimeout c).
  - destruct (0 <? launching c)%nat; [|done]. intros [= <-]. left.
    unfold launched. shapes. by simpl.
  - destruct (0 <? launching c)%nat; [|done]. intros [= <-]. by left.
  - unfold handled.
    destruct (inFlight c !! k) as [p|] eqn:Hk; simpl; [|done].
    destruct (workers c !! p_worker p) as [w|]; simpl; [|done].
    destruct (Worker.handleRest _ _ _ _ _) as [[res w'] calls].
    intros [= <-]. left. by rewrite doWorkSettle_idleResolvers.
  - destruct (isArmed _ _); [|done]. intros [= <-]. by left.
  - intros [= <-]. left. apply close_idleResolvers.
Qed.

Lemma step_idle_resolution a c c' :
  step a c = Some c' →
  omap idleResolution (log c') = omap idleResolution (log c) ∨
  (∃ env now, a = ActWorkTimeout env now) ∧
  Queue.size (jobQueue c) = 0%nat ∧
  Workers.busyCount (workers c) = 0%nat ∧
  omap idleResolution (log c')
  = omap idleResolution (log c) ++ idleResolvers c.
Proof.
  intros Hstep.
  assert ((∃ env now, a = ActWorkTimeout env now) ∨
          ∀ env now, a ≠ ActWorkTimeout env now)
    as [(env & now & ->)|Hother].
  { destruct a; try (by right); left; eauto. }
  - simpl in Hstep. destruct (isArmed _ _); [|done].
    injection Hstep as <-.
    set (c1 := set_workCallTimeout None (clearTimer (workCallTimeout c) c)).
    assert (log c1 = log c ∧ idleResolvers c1 = idleResolvers c ∧
            jobQueue c1 = jobQueue c ∧ workers c1 = workers c)
      as (Hl & Hi & Hq & Hw).
    { unfold c1. by destruct (workCallTimeout c). }
    destruct (doWorkAdmit_idle_resolution env now c1)
      as (es & -> & [Hes|(Hes & Hsize & Hbusy)]);
      rewrite omap_app, Hes, Hl.
    + left. by rewrite app_nil_r.
    + right. rewrite <- Hi, <- Hq, <- Hw. split; [by eauto|done].
  - left. destruct (step_log a c c' Hstep)
      as (es & -> & [_ Hes]%quiet_views).
    + done.
    + by rewrite omap_app, Hes, app_nil_r.
Qed.

(** X10.  The waiters of [idle()] are resolved by one kind of step only,
    the dispatch timeout that runs [doWork], and only in a state whose
    queue is empty and in which no worker is busy; then all of them are
    resolved, in the order of the calls.  No step removes a waiter from
    [idleResolvers]: the list only grows, by the calls of [idle()]. *)
Theorem idle_waiters_resolved_only_when_idle a c c' :
  step a c = Some c' →
  (omap idleResolution (log c') = omap idleResolution (log c) ∨
   (∃ env now, a = ActWorkTimeout env now) ∧
   Queue.size (jobQueue c) = 0%nat ∧
   Workers.busyCount (workers c) = 0%nat ∧
   omap idleResolution (log c')
   = omap idleResolution (log c) ++ idleResolvers c) ∧
  (idleResolvers c' = idleResolvers c ∨
   ∃ r, a = ActIdle r ∧ idleResolvers c' = idleResolvers c ++ [r]).
Proof.
  intros Hstep. split.
  - by apply step_idle_resolution.
  - by apply step_idleResolvers.
Qed.

Lemma idle_waiters_resolved_only_when_idle_witness :
  idleResolvers (idle 1%nat (launch DEFAULT_OPTIONS))
  = idleResolvers (launch DEFAULT_OPTIONS) ∨
  ∃ r, ActIdle 1%nat = ActIdle r ∧
       idleResolvers (idle 1%nat (launch DEFAULT_OPTIONS))
       = idleResolvers (launch DEFAULT_OPTIONS) ++ [r].
Proof.
  apply (idle_waiters_resolved_only_when_idle (ActIdle 1%nat)
           (launch DEFAULT_OPTIONS)).
  reflexivity.
Defined.

Import Progress.



(** *** Who holds a job, step by step *)

Lemma size_jids q : length (Queue.jids q) = Queue.size q.
Proof. unfold Queue.jids, Queue.size. by rewrite length_map. Qed.

Lemma size_remove now q job :
  Queue.peek now q = Some job →
  Queue.size q = S (Queue.size (Queue.remove job q)).
Proof.
  intros Hpeek%peek_in%jids_remove.
  apply Permutation_length in Hpeek. simpl in Hpeek.
  by rewrite !size_jids in Hpeek.
Qed.

Lemma size_push job d q : Queue.size (Queue.push job d q) = S (Queue.size q).
Proof. unfold Queue.size, Queue.push. rewrite length_app. simpl. lia. Qed.

(** [doWork] up to the hand-over: either the pool and the calls in flight
    are as before and the queue did not grow, or the peeked job moved from
    the queue to the active jobs of a worker. *)
Lemma doWorkAdmit_moves env now c :
  let c' := (doWorkAdmit env now c).1 in
  nextJid c' = nextJid c ∧
  (activeIds c' = activeIds c ∧ inFlight c' = inFlight c ∧
   (Queue.size (jobQueue c') ≤ Queue.size (jobQueue c))%nat ∨
   ∃ job i f,
     Queue.peek now (jobQueue c) = Some job ∧
     activeIds c' ≡ₚ Job.jid job :: activeIds c ∧
     inFlight c' = inFlight c ++ [Build_Pending job i f] ∧
     S (Queue.size (jobQueue c')) = Queue.size (jobQueue c)).
Proof.
  unfold activeIds.
  destruct (doWorkAdmit_holders env now c)
    as (-> & [(-> & -> & Hq)|(job & i & f & Hpeek & Hget & -> & -> & ->)]).
  - split; [done|]. left. split; [done|]. split; [done|].
    destruct Hq as [->|(job & Hpeek & [->|(d & ->)])]; [done|..].
    + rewrite (size_remove now (jobQueue c) job Hpeek). lia.
    + rewrite size_push, (size_remove now (jobQueue c) job Hpeek). lia.
  - split; [done|]. right. exists job, i, f.
    destruct (getWorker_lookup _ _ _ Hget) as (w & Hw).
    rewrite (alter_insert _ _ _ _ Hw).
    destruct (bind_insert workerIds (workers c) i w
                (Worker.handleBegin job w) Hw) as [Hws Hws'].
    split; [done|]. split; [|split; [done|]].
    + rewrite Hws', workerIds_handleBegin.
      assert ((workers c : list Worker.t) ≫= workerIds
              = (take i (workers c) ≫= workerIds) ++ workerIds w
                ++ (drop (S i) (workers c) ≫= workerIds)) as -> by done.
      solve_Permutation.
    + by rewrite (size_remove now (jobQueue c) job Hpeek).
Qed.

Lemma active_spliced (ws : list Worker.t) i w job :
  ws !! i = Some w → Job.jid job ∈ workerIds w →
  ws ≫= workerIds
  ≡ₚ Job.jid job
     :: ((<[i:=Worker.set_activeJobs
                 (Worker.spliceJob job (Worker.activeJobs w)) w]> ws)
         ≫= workerIds).
Proof.
  intros Hw Hj.
  destruct (bind_insert workerIds ws i w
              (Worker.set_activeJobs
                 (Worker.spliceJob job (Worker.activeJobs w)) w) Hw)
    as [Hws Hws'].
  rewrite Hws', Hws, (workerIds_spliceJob _ _ Hj) at 1. solve_Permutation.
Qed.

(** [worker.handle] settles: the call leaves the calls in flight; when it
    returned, the job leaves the active jobs of its worker; when it threw,
    the job stays there. *)
Lemma handled_moves k env now c c' :
  handled k env now c = Some c' → heldOnce c →
  ∃ p w c0,
    inFlight c !! k = Some p ∧ workers c !! p_worker p = Some w ∧
    c' = (doWorkSettle now (p_job p)
            (Worker.handleRest env (p_jobFunction p) (p_job p)
               (timeout (options c)) w).1.1 c0).1 ∧
    jobQueue c0 = jobQueue c ∧ nextJid c0 = nextJid c ∧
    errorCount c0 = errorCount c ∧ allTargetCount c0 = allTargetCount c ∧
    options c0 = options c ∧ log c0 = log c ∧
    inFlight c0 = delete k (inFlight c) ∧
    match (Worker.handleRest env (p_jobFunction p) (p_job p)
             (timeout (options c)) w).1.1 with
    | Returned _ => activeIds c ≡ₚ Job.jid (p_job p) :: activeIds c0
    | _ => activeIds c0 = activeIds c
    end.
Proof.
  unfold handled, activeIds.
  destruct (inFlight c !! k) as [p|] eqn:Hk; simpl; [|done].
  destruct (workers c !! p_worker p) as [w|] eqn:Hw; simpl; [|done].
  pose proof (handleRest_worker env (p_jobFunction p) (p_job p)
                (timeout (options c)) w) as Hrest.
  destruct (Worker.handleRest _ _ _ _ _) as [[res w'] calls] eqn:Hhandle.
  intros [= <-] (_ & _ & _ & Hheld).
  exists p, w. rewrite Hhandle. cbn [fst].
  eexists. split; [done|]. split; [done|].
  split; [reflexivity|]. simpl. repeat (split; [done|]).
  destruct res as [r| |]; subst w'.
  - destruct (Hheld p) as (w0 & Hl & Hj);
      [by eapply list_elem_of_lookup_2|].
    assert (Some w0 = Some w) as [= ->].
    { transitivity (workers c !! p_worker p); [symmetry; exact Hl|exact Hw]. }
    by apply active_spliced.
  - assert (<[p_worker p:=w]> (workers c) = workers c) as ->
      by by apply list_insert_id.
    done.
  - assert (<[p_worker p:=w]> (workers c) = workers c) as ->
      by by apply list_insert_id.
    done.
Qed.

(** *** The counters of the monitor *)

Lemma doWorkAdmit_counts env now c :
  errorCount (doWorkAdmit env now c).1 = errorCount c ∧
  allTargetCount (doWorkAdmit env now c).1 = allTargetCount c.
Proof.
  unfold doWorkAdmit, scheduleNextWork, recordUrl, recordDomain, emit.
  repeat case_match; simpl; shapes; by simpl.
Qed.

Lemma doWorkSettle_counts now job res c :
  let c' := (doWorkSettle now job res c).1 in
  allTargetCount c' = allTargetCount c ∧
  match res with
  | Returned _ =>
    Queue.size (jobQueue c') = Queue.size (jobQueue c) ∧
    (errorCount c' = errorCount c ∨ errorCount c' = errorCount c + 1) ∨
    Queue.size (jobQueue c') = S (Queue.size (jobQueue c)) ∧
    errorCount c' = errorCount c
  | _ => c' = c
  end.
Proof.
  unfold doWorkSettle, doWorkFinish, emit.
  destruct res as [[error|data]| |]; [..|done|done];
    repeat case_match; shapes; simpl; rewrite ?size_push; auto.
Qed.

Lemma close_counts env c :
  errorCount (close env c).1 = errorCount c ∧
  allTargetCount (close env c).1 = allTargetCount c.
Proof.
  unfold close.
  destruct (workersCloseOutcome env),
    (browserCloseOutcome env ≫= readMessage);
  destruct c as [? ? ? ? ? ? ? ? ? [mon|] [] ? ? [chk|] ? [wct|] ? ? ? ? ? ?];
    by fields.
Qed.

Lemma busyCount_active (ws : list Worker.t) :
  (Workers.busyCount ws ≤ length (ws ≫= workerIds))%nat.
Proof.
  unfold Workers.busyCount, workerIds.
  induction ws as [|w ws IH]; [done|].
  rewrite bind_cons, length_app, length_map. cbn [List.filter].
  set (n := length (List.filter _ ws)) in *.
  set (m := length (ws ≫= _)) in *.
  destruct (Worker.activeJobs w); simpl; lia.
Qed.

Lemma counted_from c0 c :
  errorCount c0 = errorCount c → allTargetCount c0 = allTargetCount c →
  nextJid c0 = nextJid c → jobQueue c0 = jobQueue c →
  workers c0 = workers c → counted c → counted c0.
Proof. unfold counted, activeIds. by intros -> -> -> -> ->. Qed.

Lemma step_counted a c c' :
  step a c = Some c' → heldOnce c → counted c → counted c'.
Proof.
  destruct a; simpl.
  - intros [= <-] _. by apply counted_from.
  - intros [= <-] _. unfold queue, queueJob, emit, counted, activeIds.
    shapes. simpl. rewrite size_push. lia.
  - intros [= <-] _. unfold execute, queueJob, emit, counted, activeIds.
    shapes. simpl. rewrite size_push. lia.
  - intros [= <-] _. by apply counted_from.
  - intros [= <-] _. by apply counted_from.
  - destruct (isArmed _ _); [|done]. intros [= <-] _. shapes.
    by apply counted_from.
  - destruct (isArmed _ _); [|done]. intros [= <-] _ Hc.
    set (c1 := set_workCallTimeout None (clearTimer (workCallTimeout c) c)).
    assert (counted c1) as (Herr & Hall & Hsum).
    { apply (counted_from _ c); try done; unfold c1;
        by destruct (workCallTimeout c). }
    destruct (doWorkAdmit_counts env now c1) as [He Ha].
    destruct (doWorkAdmit_moves env now c1)
      as (Hn & [(Hact & _ & Hsize)
               |(job & i & f & _ & Hact%Permutation_length & _ & Hsize)]);
      unfold counted; rewrite He, Ha, Hn, ?Hact; cbn [length] in *; lia.
  - destruct (0 <? launching c)%nat; [|done]. intros [= <-] _.
    unfold launched, counted, activeIds. shapes. simpl.
    assert (((workers c : list Worker.t)
             ++ [Worker.Build (length (workers c)) browser []])
            ≫= workerIds = (workers c : list Worker.t) ≫= workerIds) as ->.
    { rewrite bind_app. simpl. by rewrite app_nil_r. }
    done.
  - destruct (0 <? launching c)%nat; [|done]. intros [= <-] _.
    by apply counted_from.
  - intros Hh Hheld (Herr & Hall & Hsum).
    destruct (handled_moves k env now c c' Hh Hheld)
      as (p & w & c0 & _ & _ & -> & Hq & Hn & He & Ha & _ & _ & _ & Hact).
    destruct (doWorkSettle_holders now (p_job p)
                (Worker.handleRest env (p_jobFunction p) (p_job p)
                   (timeout (options c)) w).1.1 c0) as (Hn' & Hw' & _ & _).
    destruct (doWorkSettle_counts now (p_job p)
                (Worker.handleRest env (p_jobFunction p) (p_job p)
                   (timeout (options c)) w).1.1 c0) as (Ha' & Hres).
    unfold counted, activeIds. rewrite Hn', Hw', Ha'.
    fold (activeIds c0).
    destruct ((Worker.handleRest env (p_jobFunction p) (p_job p)
                 (timeout (options c)) w).1.1) as [r| |].
    + apply Permutation_length in Hact. simpl in Hact.
      destruct Hres as [[-> [-> | ->]]|[-> ->]]; rewrite ?Hq; lia.
    + rewrite Hres, Hact, He, Hq, Ha, Hn. done.
    + rewrite Hres, Hact, He, Hq, Ha, Hn. done.
  - destruct (isArmed _ _); [|done]. intros [= <-] _. by apply counted_from.
  - intros [= <-] _. destruct (close_holders env c) as (Hq & Hw & _ & Hn).
    destruct (close_counts env c) as [He Ha]. by apply counted_from.
Qed.

Lemma reachable_counted o acts c : run acts (launch o) = Some c → counted c.
Proof.
  intros Hrun.
  assert (heldOnce c ∧ counted c) as [_ ?]; [|done].
  eapply (run_invariant (λ c, heldOnce c ∧ counted c)); [|done|].
  - intros a c0 c1 Hstep [Hheld Hc]. split.
    + by eapply step_heldOnce.
    + by eapply step_counted.
  - split; [by apply (reachable_heldOnce o [])|].
    unfold counted, activeIds. simpl. lia.
Qed.

(** X12.  In every state that the cluster reaches, the numbers that
    [monitor()] shows are consistent: [allTargetCount] is the number of jobs
    created, and [doneTargets = allTargetCount - jobQueue.size() -
    busyWorkersCount] lies between [errorCount] and [allTargetCount], with
    [errorCount] never negative; the error share that is printed is at most
    100 percent. *)
Theorem monitor_counts_are_consistent o acts c :
  run acts (launch o) = Some c →
  allTargetCount c = Z.of_nat (nextJid c) ∧
  0 ≤ errorCount c ∧
  errorCount c ≤ doneTargets c ∧
  doneTargets c ≤ allTargetCount c.
Proof.
  intros (Herr & Hall & Hsum)%reachable_counted.
  pose proof (busyCount_active (workers c)) as Hbusy.
  unfold doneTargets, activeIds in *. lia.
Qed.

Lemma monitor_counts_are_consistent_witness :
  ∃ c, run runSameUrlTwice (launch optionsSkipDuplicates) = Some c ∧
       errorCount c ≤ doneTargets c.
Proof.
  pose proof runSameUrlTwice_result as Hres.
  destruct (run runSameUrlTwice (launch optionsSkipDuplicates)) as [c|] eqn:H;
    [|discriminate].
  exists c. split; [done|].
  by destruct (monitor_counts_are_consistent _ _ _ H) as (_ & _ & ? & _).
Defined.

(** *** A call of [handle] that throws *)

Lemma run_app acts acts' c :
  run (acts ++ acts') c = run acts c ≫= run acts'.
Proof.
  revert c. induction acts as [|a acts IH]; intros c; simpl; [done|].
  destruct (step a c) as [c1|]; simpl; [apply IH|done].
Qed.

Lemma stuck_from j c0 c :
  workers c0 = workers c → inFlight c0 = inFlight c →
  stuck j c → stuck j c0.
Proof. unfold stuck, activeIds, inFlightIds. by intros -> ->. Qed.

Lemma stuck_busy j c : stuck j c → Workers.busyCount (workers c) ≠ 0%nat.
Proof.
  intros [Hj _] Hbusy. apply busyCount_isAnyJobActive in Hbusy.
  unfold activeIds in Hj. apply list_elem_of_bind in Hj as (w & Hj & Hw).
  unfold Workers.isAnyJobActive in Hbusy.
  apply not_true_iff_false in Hbusy. apply Hbusy.
  apply existsb_exists. exists w. split; [by apply list_elem_of_In|].
  unfold Worker.isIdle, workerIds in *.
  destruct (Worker.activeJobs w); [by apply elem_of_nil in Hj|done].
Qed.

Lemma step_stuck j a c c' :
  step a c = Some c' → heldOnce c → stuck j c → stuck j c'.
Proof.
  destruct a; simpl.
  - intros [= <-] _. by apply stuck_from.
  - intros [= <-] _. unfold queue, queueJob, emit. shapes.
    by apply stuck_from.
  - intros [= <-] _. unfold execute, queueJob, emit. shapes.
    by apply stuck_from.
  - intros [= <-] _. by apply stuck_from.
  - intros [= <-] _. by apply stuck_from.
  - destruct (isArmed _ _); [|done]. intros [= <-] _. shapes.
    by apply stuck_from.
  - destruct (isArmed _ _); [|done]. intros [= <-] Hheld Hj.
    set (c1 := set_workCallTimeout None (clearTimer (workCallTimeout c) c)).
    assert (heldOnce c1) as Hheld1.
    { apply (heldOnce_from c); [..|done]; unfold c1;
        by destruct (workCallTimeout c). }
    assert (stuck j c1) as [Hact Hfl].
    { apply (stuck_from j _ c); [..|done]; unfold c1;
        by destruct (workCallTimeout c). }
    destruct (doWorkAdmit_moves env now c1)
      as (_ & [(Hact' & Hfl' & _)|(job & i & f & Hpeek & Hact' & Hfl' & _)]);
      unfold stuck, inFlightIds; rewrite Hact', Hfl'; [done|].
    split; [by right|]. rewrite map_app. simpl.
    intros [?|Heq%list_elem_of_singleton]%elem_of_app; [done|].
    destruct Hheld1 as (Hnd & _). apply NoDup_app in Hnd as (_ & Hdisj & _).
    apply (Hdisj j); [|done]. rewrite Heq. by eapply peek_in.
  - destruct (0 <? launching c)%nat; [|done]. intros [= <-] _.
    unfold launched. shapes. unfold stuck, activeIds, inFlightIds. simpl.
    assert (((workers c : list Worker.t)
             ++ [Worker.Build (length (workers c)) browser []])
            ≫= workerIds = (workers c : list Worker.t) ≫= workerIds) as ->.
    { rewrite bind_app. simpl. by rewrite app_nil_r. }
    done.
  - destruct (0 <? launching c)%nat; [|done]. intros [= <-] _.
    by apply stuck_from.
  - intros Hh Hheld [Hact Hfl].
    destruct (handled_moves k env now c c' Hh Hheld)
      as (p & w & c0 & Hk & _ & -> & _ & _ & _ & _ & _ & _ & Hfl0 & Hact0).
    destruct (doWorkSettle_holders now (p_job p)
                (Worker.handleRest env (p_jobFunction p) (p_job p)
                   (timeout (options c)) w).1.1 c0) as (_ & Hw' & Hf' & _).
    apply (stuck_from j _ c0); [done..|].
    assert (j ≠ Job.jid (p_job p)) as Hne.
    { intros ->. apply Hfl. apply elem_of_map. exists p.
      split; [done|]. by eapply list_elem_of_lookup_2. }
    split.
    + destruct ((Worker.handleRest env (p_jobFunction p) (p_job p)
                   (timeout (options c)) w).1.1);
        [|by rewrite Hact0..].
      rewrite Hact0 in Hact. by apply elem_of_cons in Hact as [?|?].
    + unfold inFlightIds. rewrite Hfl0. intros Hin. apply Hfl.
      rewrite (inFlightIds_delete c k p Hk). by right.
  - destruct (isArmed _ _); [|done]. intros [= <-] _. by apply stuck_from.
  - intros [= <-] _. destruct (close_holders env c) as (_ & Hw & Hf & _).
    by apply stuck_from.
Qed.

Lemma run_stuck j acts c c' :
  run acts c = Some c' → heldOnce c → stuck j c →
  stuck j c' ∧ omap idleResolution (log c') = omap idleResolution (log c).
Proof.
  revert c. induction acts as [|a acts IH]; intros c; simpl.
  - by intros [= <-].
  - destruct (step a c) as [c1|] eqn:Ha; simpl; [|done].
    intros Hrun Hheld Hj.
    destruct (IH c1 Hrun) as [Hj' Hidle];
      [by eapply step_heldOnce|by eapply step_stuck|].
    split; [done|]. rewrite Hidle.
    destruct (step_idle_resolution a c c1 Ha) as [?|(_ & _ & Hbusy & _)];
      [done|].
    by apply stuck_busy in Hj.
Qed.

Lemma runHandleThrows_result :
  (λ c, (log c, jobQueue c, inFlight c, idleResolvers c))
    <$> run Scenario2.runHandleThrows (launch DEFAULT_OPTIONS)
  = Some ([EmitQueue 5 None;
           LaunchWorkerCalled (Job.Build 0%nat 5 None None None true 0 []);
           HandleCalled 0%nat (Job.Build 0%nat 5 None None None true 0 [])
             1%nat 30000], [], [], [1%nat]).
Proof. vm_compute. reflexivity. Qed.

(** X13.  When [worker.handle] throws for a job, which it does when no
    browser page can be got, [doWork] swallows the error and then fails on
    [result.type]; from then on, whatever happens: the job stays among the
    active jobs of its worker with no call in flight for it, so the pool
    never counts as idle again and no waiter of [idle()] is resolved any
    more; and the job's [execute] callbacks are never invoked. *)
Theorem thrown_handle_blocks_idle_forever o acts k env now acts' c2 :
  (∀ f job tmo w, ∃ e, (Worker.handleRest env f job tmo w).1.1 = Threw e) →
  run (acts ++ ActHandled k env now :: acts') (launch o) = Some c2 →
  ∃ c p,
    run acts (launch o) = Some c ∧ inFlight c !! k = Some p ∧
    stuck (Job.jid (p_job p)) c2 ∧
    Workers.isAnyJobActive (workers c2) = true ∧
    omap idleResolution (log c2) = omap idleResolution (log c) ∧
    Job.jid (p_job p) ∉ settled (log c2).
Proof.
  intros Hthrows Hrun. rewrite run_app in Hrun.
  destruct (run acts (launch o)) as [c|] eqn:Hc; simpl in Hrun; [|done].
  destruct (handled k env now c) as [c1|] eqn:Hh; simpl in Hrun; [|done].
  pose proof (reachable_heldOnce o acts c Hc) as Hheld.
  pose proof (reachable_jobsAccounted o acts c Hc) as (_ & _ & _ & Hset).
  destruct (handled_moves k env now c c1 Hh Hheld)
    as (p & w & c0 & Hk & Hw & -> & Hq & Hn & _ & _ & _ & Hlog & Hfl0 & Hact0).
  destruct (Hthrows (p_jobFunction p) (p_job p) (timeout (options c)) w)
    as [e He].
  rewrite He in *. simpl in Hrun.
  assert (p ∈ inFlight c) as Hp by by eapply list_elem_of_lookup_2.
  assert (Job.jid (p_job p) ∈ inFlightIds c) as Hin.
  { apply elem_of_map. by exists p. }
  pose proof Hheld as (Hnd & Hndf & Hlt & Hholder).
  destruct (Hholder p Hp) as (w0 & Hw0 & Hj).
  assert (Job.jid (p_job p) ∈ activeIds c) as Hactive.
  { apply list_elem_of_bind. exists w0.
    split; [done|]. by eapply list_elem_of_lookup_2. }
  assert (Job.jid (p_job p) ∉ inFlightIds c0) as Hout.
  { unfold inFlightIds. rewrite Hfl0.
    fold (inFlightIds c) in Hndf.
    rewrite (inFlightIds_delete c k p Hk) in Hndf.
    by apply NoDup_cons in Hndf as [? _]. }
  assert (stuck (Job.jid (p_job p)) c0) as Hstuck.
  { split; [by rewrite Hact0|done]. }
  assert (heldOnce c0) as Hheld0.
  { exact (step_heldOnce (ActHandled k env now) c c0 Hh Hheld). }
  destruct (run_stuck _ acts' c0 c2 Hrun Hheld0 Hstuck) as [Hstuck2 Hidle].
  exists c, p. split; [done|]. split; [done|]. split; [done|]. split.
  { apply not_false_iff_true. intros Hf%busyCount_isAnyJobActive.
    by apply stuck_busy in Hstuck2. }
  split; [by rewrite Hidle, Hlog|].
  assert (dropped (Job.jid (p_job p)) c0) as Hdrop.
  { split; [|split].
    - rewrite Hn. apply Hlt. apply elem_of_app. by right.
    - unfold liveIds. rewrite Hq.
      intros [Hinq|?]%elem_of_app; [|done].
      apply NoDup_app in Hnd as (_ & Hdisj & _). by apply (Hdisj _ Hinq).
    - rewrite Hlog. intros [_ Hnot]%Hset. apply Hnot.
      apply elem_of_app. by right. }
  by destruct (dropped_forever _ acts' c0 c2 Hrun Hdrop) as (_ & _ & ?).
Qed.

Lemma thrown_handle_blocks_idle_forever_witness :
  ∃ c2, run Scenario2.runHandleThrows (launch DEFAULT_OPTIONS) = Some c2 ∧
        Workers.isAnyJobActive (workers c2) = true ∧
        omap idleResolution (log c2) = [] ∧
        idleResolvers c2 = [1%nat].
Proof.
  pose proof runHandleThrows_result as Hres.
  destruct (run Scenario2.runHandleThrows (launch DEFAULT_OPTIONS))
    as [c2|] eqn:H; [|discriminate].
  exists c2. split; [done|].
  destruct (thrown_handle_blocks_idle_forever DEFAULT_OPTIONS
              [ActTask 1%nat; ActExecute 0 5 None None None;
               ActWorkTimeout envLaunch 10;
               ActLaunched 11 (Worker.Build_WorkerInstance None);
               ActWorkTimeout envLaunch 21]
              0%nat envNoInstance 30
              [ActIdle 1%nat; ActPoll 40; ActWorkTimeout envLaunch 50] c2
              (λ f job tmo w,
                 ex_intro _ (ErrorObject "Unable to get browser page")
                   eq_refl) H)
    as (c & p & Hc & _ & _ & Hbusy & Hidle & _).
  split; [done|]. injection Hres as Hlog _ _ Hres.
  split; [by rewrite Hlog|done].
Defined.

(** *** The same-domain delay *)

Lemma recordDomain_stamp now d c :
  sameDomainDelay (options c) ≠ 0 →
  recordDomain now (Some d) c
  = set_lastDomainAccesses (<[d:=now]> (lastDomainAccesses c)) c.
Proof.
  intros H. unfold recordDomain.
  by destruct (Z.eqb_spec (sameDomainDelay (options c)) 0).
Qed.

(** X14.  With [sameDomainDelay] set, [doWork] looks at the time of the
    last access to the domain of the job it peeked.  While that time plus
    the delay lies in the future, the job is not handed to a worker: it
    goes to the end of the queue with [delayUntil] set to that moment, and
    nothing else changes but the dispatch timeout.  Otherwise the job may be
    handed over, and whenever it is, the time of the hand-over becomes the
    last access of the domain. *)
Theorem same_domain_delay_gates_dispatch env now c job d :
  sameDomainDelay (options c) ≠ 0 →
  Queue.peek now (jobQueue c) = Some job →
  Job.getDomain job = Some d →
  isDuplicate c (Job.getUrl job) = false →
  (∃ t, lastDomainAccesses c !! d = Some t ∧
        now < t + sameDomainDelay (options c) ∧
        jobQueue (doWorkAdmit env now c).1
        = Queue.push job (Some (t + sameDomainDelay (options c)))
            (Queue.remove job (jobQueue c)) ∧
        log (doWorkAdmit env now c).1 = log c ∧
        inFlight (doWorkAdmit env now c).1 = inFlight c ∧
        workers (doWorkAdmit env now c).1 = workers c ∧
        lastDomainAccesses (doWorkAdmit env now c).1
        = lastDomainAccesses c) ∨
  ((∀ t, lastDomainAccesses c !! d = Some t →
         t + sameDomainDelay (options c) ≤ now) ∧
   (inFlight (doWorkAdmit env now c).1 = inFlight c ∨
    lastDomainAccesses (doWorkAdmit env now c).1
    = <[d:=now]> (lastDomainAccesses c) ∧
    ∃ i f, inFlight (doWorkAdmit env now c).1
           = inFlight c ++ [Build_Pending job i f])).
Proof.
  intros Hdelay Hpeek Hd Hdup. unfold doWorkAdmit.
  assert ((Queue.size (jobQueue c) =? 0)%nat = false) as ->
    by by destruct (jobQueue c).
  rewrite Hpeek, Hdup. unfold domainDelay. rewrite Hd.
  destruct (Z.eqb_spec (sameDomainDelay (options c)) 0) as [|_]; [done|].
  destruct (lastDomainAccesses c !! d) as [t|] eqn:Hlast.
  - destruct (Z.ltb_spec now (t + sameDomainDelay (options c))) as [Hlt|Hge].
    + left. exists t. split; [done|]. split; [done|]. shapes. by simpl.
    + right. split; [by intros ? [= <-]|].
      destruct (negb (Workers.canHandle (workers c) job)).
      { left. by destruct (canLaunchWorker env). }
      destruct (Workers.getWorker (workers c) job) as [i|]; [|by left].
      cbv zeta.
      destruct (recordUrl_shape (Job.getUrl job)
                  (set_jobQueue (Queue.remove job (jobQueue c)) c))
        as (du & ->).
      rewrite recordDomain_stamp by done. shapes. simpl.
      repeat case_match; simpl; eauto 10.
  - right. split; [done|].
    destruct (negb (Workers.canHandle (workers c) job)).
    { left. by destruct (canLaunchWorker env). }
    destruct (Workers.getWorker (workers c) job) as [i|]; [|by left].
    cbv zeta.
    destruct (recordUrl_shape (Job.getUrl job)
                (set_jobQueue (Queue.remove job (jobQueue c)) c))
      as (du & ->).
    rewrite recordDomain_stamp by done. shapes. simpl.
    repeat case_match; simpl; eauto 10.
Qed.

Lemma same_domain_delay_gates_dispatch_witness :
  jobQueue (doWorkAdmit envQuiet 500 Scenario3.domainSeen).1
  = [Queue.Entry
       (Job.Build 0%nat 5 (Some "https://a.example/x") (Some "a.example")
          None false 0 [])
       (Some 1100)].
Proof.
  destruct (same_domain_delay_gates_dispatch envQuiet 500
              Scenario3.domainSeen
              (Job.Build 0%nat 5 (Some "https://a.example/x")
                 (Some "a.example") None false 0 [])
              "a.example")
    as [(t & Ht & _ & Hq & _)|[Hlate _]].
  - discriminate.
  - reflexivity.
  - reflexivity.
  - reflexivity.
  - injection Ht as <-. exact Hq.
  - specialize (Hlate 100 eq_refl). simpl in Hlate. lia.
Defined.

(** *** [doWork] without a task function *)

Lemma doWorkAdmit_throws env now c e :
  (doWorkAdmit env now c).2 = Some e →
  e = ErrorObject "No task function defined!" ∧
  ∃ job,
    Queue.peek now (jobQueue c) = Some job ∧
    taskFunction c = None ∧ Job.taskFunction job = None ∧
    jobQueue (doWorkAdmit env now c).1 = Queue.remove job (jobQueue c) ∧
    workers (doWorkAdmit env now c).1 = workers c ∧
    inFlight (doWorkAdmit env now c).1 = inFlight c ∧
    log (doWorkAdmit env now c).1 = log c ∧
    nextJid (doWorkAdmit env now c).1 = nextJid c.
Proof.
  unfold doWorkAdmit.
  destruct (Queue.size (jobQueue c) =? 0)%nat.
  { by destruct (negb _). }
  destruct (Queue.peek now (jobQueue c)) as [job|] eqn:Hpeek; [|done].
  destruct (isDuplicate c (Job.getUrl job)); [done|].
  destruct (domainDelay now c (Job.getDomain job)); [done|].
  destruct (negb (Workers.canHandle (workers c) job)).
  { by destruct (canLaunchWorker env). }
  destruct (Workers.getWorker (workers c) job) as [worker|]; [|done].
  shapes. simpl.
  destruct (Job.taskFunction job) as [f|] eqn:Hf; [done|].
  destruct (taskFunction c) as [f|] eqn:Hc; [done|].
  simpl. intros [= <-]. split; [done|]. by exists job.
Qed.

Lemma atTimeout_frame c :
  jobQueue (atTimeout c) = jobQueue c ∧ inFlight (atTimeout c) = inFlight c ∧
  log (atTimeout c) = log c ∧ nextJid (atTimeout c) = nextJid c ∧
  taskFunction (atTimeout c) = taskFunction c ∧
  workers (atTimeout c) = workers c ∧ options (atTimeout c) = options c ∧
  duplicateCheckUrls (atTimeout c) = duplicateCheckUrls c.
Proof. unfold atTimeout. by destruct (workCallTimeout c). Qed.

Lemma runNoTask_result :
  (λ c, (isArmed (workCallTimeout c) c, (doWorkAdmit envLaunch 21 (atTimeout c)).2,
         Queue.jids (jobQueue c)))
    <$> run Scenario2.runNoTask (launch DEFAULT_OPTIONS)
  = Some (true, Some (ErrorObject "No task function defined!"), [0%nat]).
Proof. vm_compute. reflexivity. Qed.

(** X15.  [doWork] takes the job out of the queue before it looks for the
    function to run.  So when the job has no function of its own and
    [task()] was never called, [doWork] throws "No task function defined!"
    with the job already removed: the job is handed to no worker, it is not
    in the queue any more, and its [execute] callbacks have not been invoked
    and never will be. *)
Theorem doWork_without_task_function_loses_job o acts c env now e :
  run acts (launch o) = Some c →
  isArmed (workCallTimeout c) c = true →
  (doWorkAdmit env now (atTimeout c)).2 = Some e →
  e = ErrorObject "No task function defined!" ∧
  ∃ job,
    Queue.peek now (jobQueue c) = Some job ∧
    taskFunction c = None ∧ Job.taskFunction job = None ∧
    log (doWorkAdmit env now (atTimeout c)).1 = log c ∧
    inFlight (doWorkAdmit env now (atTimeout c)).1 = inFlight c ∧
    ∀ acts' c2,
      run acts' (doWorkAdmit env now (atTimeout c)).1 = Some c2 →
      dropped (Job.jid job) c2.
Proof.
  intros Hrun Harmed Hthrow.
  destruct (atTimeout_frame c) as (Hq & Hf & Hl & Hn & Ht & _).
  destruct (doWorkAdmit_throws env now (atTimeout c) e Hthrow)
    as (-> & job & Hpeek & Htask & Hjob & Hq' & _ & Hf' & Hl' & Hn').
  rewrite Hq in Hpeek, Hq'. rewrite Ht in Htask.
  rewrite Hf in Hf'. rewrite Hl in Hl'. rewrite Hn in Hn'.
  split; [done|]. exists job. repeat (split; [done|]).
  intros acts' c2 Hrun'. apply (dropped_forever _ acts' _ c2 Hrun').
  destruct (reachable_jobsAccounted o acts c Hrun)
    as (Hnd & Hlt & _ & Hset).
  pose proof (peek_in _ _ _ Hpeek) as Hin.
  assert (Job.jid job ∈ liveIds c) as Hlive.
  { apply elem_of_app. by left. }
  split; [|split].
  - rewrite Hn'. by apply Hlt.
  - unfold liveIds, inFlightIds in *. rewrite Hq', Hf'.
    rewrite (jids_remove _ _ Hin) in Hnd. simpl in Hnd.
    by apply NoDup_cons in Hnd as [? _].
  - rewrite Hl'. intros [_ Hnot]%Hset. done.
Qed.

Lemma doWork_without_task_function_loses_job_witness :
  ∃ c, run Scenario2.runNoTask (launch DEFAULT_OPTIONS) = Some c ∧
       ∃ job, Queue.peek 21 (jobQueue c) = Some job ∧
              dropped (Job.jid job) (doWorkAdmit envLaunch 21 (atTimeout c)).1.
Proof.
  pose proof runNoTask_result as Hres.
  destruct (run Scenario2.runNoTask (launch DEFAULT_OPTIONS)) as [c|] eqn:H;
    [|discriminate].
  injection Hres as Harmed Hthrow _.
  exists c. split; [done|].
  destruct (doWork_without_task_function_loses_job DEFAULT_OPTIONS _ c
              envLaunch 21 _ H Harmed Hthrow)
    as (_ & job & Hpeek & _ & _ & _ & _ & Hdrop).
  exists job. split; [done|]. by apply (Hdrop []).
Defined.

(** *** Retries under [skipDuplicateUrls] *)

Lemma elem_of_remove job q en : en ∈ Queue.remove job q → en ∈ q.
Proof.
  induction q as [|e q IH]; simpl; [done|].
  destruct (Job.same (Queue.item e) job); [by right|].
  intros [->|?]%elem_of_cons; [by left|right; by apply IH].
Qed.

Lemma peek_entry now q job :
  Queue.peek now q = Some job → ∃ en, en ∈ q ∧ Queue.item en = job.
Proof.
  induction q as [|e q IH]; simpl; [done|].
  destruct (Queue.ready now e).
  - intros [= <-]. exists e. split; [by left|done].
  - intros (en & Hen & <-)%IH. exists en. split; [by right|done].
Qed.

Lemma recordUrl_known u c :
  skipDuplicateUrls (options c) = true →
  recordUrl (Some u) c
  = set_duplicateCheckUrls ({[u]} ∪ duplicateCheckUrls c) c.
Proof. unfold recordUrl. by intros ->. Qed.

Lemma app_singleton_ne {A} (l : list A) x : l ≠ l ++ [x].
Proof.
  intros H. apply (f_equal length) in H. rewrite length_app in H.
  simpl in H. lia.
Qed.

Lemma doWorkAdmit_records env now c job i f u :
  skipDuplicateUrls (options c) = true →
  inFlight (doWorkAdmit env now c).1 = inFlight c ++ [Build_Pending job i f] →
  Job.getUrl job = Some u →
  u ∈ duplicateCheckUrls (doWorkAdmit env now c).1.
Proof.
  intros Hskip. unfold doWorkAdmit.
  destruct (Queue.size (jobQueue c) =? 0)%nat.
  { destruct (negb _); simpl; by intros ?%app_singleton_ne. }
  destruct (Queue.peek now (jobQueue c)) as [job0|];
    [|by intros ?%app_singleton_ne].
  destruct (isDuplicate c (Job.getUrl job0)).
  { shapes. simpl. by intros ?%app_singleton_ne. }
  destruct (domainDelay now c (Job.getDomain job0)).
  { shapes. simpl. by intros ?%app_singleton_ne. }
  destruct (negb (Workers.canHandle (workers c) job0)).
  { destruct (canLaunchWorker env); simpl; by intros ?%app_singleton_ne. }
  destruct (Workers.getWorker (workers c) job0) as [worker|];
    [|by intros ?%app_singleton_ne].
  cbv zeta. destruct (Job.getUrl job0) as [u0|] eqn:Hu0.
  - rewrite recordUrl_known by done. shapes. simpl.
    repeat case_match; simpl; try by intros ?%app_singleton_ne.
    all: intros [= <- _ _]%app_inv_head Hu; rewrite Hu0 in Hu;
      injection Hu as <-; set_solver.
  - unfold recordUrl at 1. shapes. simpl.
    repeat case_match; simpl; try by intros ?%app_singleton_ne.
    all: intros [= <- _ _]%app_inv_head Hu; congruence.
Qed.

Lemma retriesKnown_from c0 c :
  options c0 = options c → duplicateCheckUrls c ⊆ duplicateCheckUrls c0 →
  inFlight c0 = inFlight c → jobQueue c0 = jobQueue c →
  retriesKnown c → retriesKnown c0.
Proof.
  unfold retriesKnown. intros -> Hd -> -> Hc Hskip.
  destruct (Hc Hskip) as [Hfl Hq]. split.
  - intros p u Hp Hu. apply Hd. by eapply Hfl.
  - intros en u Hen He Hu. apply Hd. by eapply Hq.
Qed.

Lemma retriesKnown_queueJob now d u dm f cb c :
  retriesKnown c → retriesKnown (queueJob now d u dm f cb c).
Proof.
  unfold retriesKnown, queueJob, emit. shapes. simpl.
  intros Hc Hskip. destruct (Hc Hskip) as [Hfl Hq]. split; [done|].
  intros en u' [Hen|Hen%list_elem_of_singleton]%elem_of_app; [by apply Hq|].
  by subst en.
Qed.

Lemma doWorkAdmit_retriesKnown env now c :
  retriesKnown c → retriesKnown (doWorkAdmit env now c).1.
Proof.
  intros Hc.
  destruct (doWorkAdmit_dispatching env now c) as (Ho & Hd & _).
  pose proof (doWorkAdmit_records env now c) as Hrec.
  destruct (doWorkAdmit_holders env now c)
    as (_ & [(_ & Hf & Hq)|(job & i & f & Hpeek & _ & _ & Hf & Hq)]);
    unfold retriesKnown; rewrite Ho; intros Hskip;
    destruct (Hc Hskip) as [Hfl Hqu].
  - rewrite Hf. split; [intros p u Hp Hu; apply Hd; by eapply Hfl|].
    intros en u Hen He Hu. apply Hd.
    destruct Hq as [Hq|(job & Hpeek & [Hq|(d & Hq)])]; rewrite Hq in Hen.
    + by eapply Hqu.
    + apply elem_of_remove in Hen. by eapply Hqu.
    + apply elem_of_app in Hen as [Hen%elem_of_remove|Hen].
      * by eapply Hqu.
      * apply list_elem_of_singleton in Hen as ->. simpl in *.
        destruct (peek_entry _ _ _ Hpeek) as (en & Hen & <-).
        by eapply Hqu.
  - split.
    + rewrite Hf. intros p u [Hp|Hp%list_elem_of_singleton]%elem_of_app Hu.
      * apply Hd. by eapply Hfl.
      * subst p. by eapply Hrec.
    + rewrite Hq. intros en u Hen%elem_of_remove He Hu. apply Hd.
      by eapply Hqu.
Qed.

Lemma handled_retriesKnown k env now c c' :
  handled k env now c = Some c' → retriesKnown c → retriesKnown c'.
Proof.
  unfold handled.
  destruct (inFlight c !! k) as [p|] eqn:Hk; simpl; [|done].
  destruct (workers c !! p_worker p) as [w|] eqn:Hw; simpl; [|done].
  destruct (Worker.handleRest _ _ _ _ _) as [[res w'] calls].
  intros [= <-] Hc.
  set (c0 := set_inFlight _ _).
  destruct (doWorkSettle_dispatching now (p_job p) res c0) as (Ho & Hd & _).
  destruct (doWorkSettle_holders now (p_job p) res c0) as (_ & _ & Hf & Hq).
  unfold retriesKnown. rewrite Ho. intros Hskip.
  destruct (Hc Hskip) as [Hfl Hqu]. split.
  - rewrite Hf. intros p' u Hp'%list_elem_of_delete_inv Hu. apply Hd.
    by eapply Hfl.
  - intros en u Hen He Hu. apply Hd.
    destruct Hq as [Hq|(r & e & d & _ & Hq)]; rewrite Hq in Hen.
    + by eapply Hqu.
    + apply elem_of_app in Hen as [Hen|Hen%list_elem_of_singleton].
      * by eapply Hqu.
      * subst en. apply (Hfl p); [by eapply list_elem_of_lookup_2|done].
Qed.

Lemma step_retriesKnown a c c' :
  step a c = Some c' → retriesKnown c → retriesKnown c'.
Proof.
  destruct a; simpl.
  - intros [= <-]. by apply retriesKnown_from.
  - intros [= <-]. apply retriesKnown_queueJob.
  - intros [= <-]. apply retriesKnown_queueJob.
  - intros [= <-]. by apply retriesKnown_from.
  - intros [= <-]. by apply retriesKnown_from.
  - destruct (isArmed _ _); [|done]. intros [= <-]. shapes.
    by apply retriesKnown_from.
  - destruct (isArmed _ _); [|done]. intros [= <-] Hc.
    apply doWorkAdmit_retriesKnown.
    apply (retriesKnown_from _ c); [..|done]; by destruct (workCallTimeout c).
  - destruct (0 <? launching c)%nat; [|done]. intros [= <-].
    unfold launched. shapes. by apply retriesKnown_from.
  - destruct (0 <? launching c)%nat; [|done]. intros [= <-].
    by apply retriesKnown_from.
  - apply handled_retriesKnown.
  - destruct (isArmed _ _); [|done]. intros [= <-].
    by apply retriesKnown_from.
  - intros [= <-]. destruct (close_holders env c) as (Hq & _ & Hf & _).
    destruct (close_dispatching env c) as (Ho & Hd & _).
    by apply retriesKnown_from.
Qed.

Lemma runRetryUrl_result :
  (λ c, (jobQueue c, log c))
    <$> run Scenario2.runRetryUrl (launch Scenario2.optionsRetrySkip)
  = Some ([Queue.Entry
             (Job.Build 0%nat 5 (Some "https://a") None None false 1
                [ErrorObject "net::ERR_FAILED"]) None],
          [EmitQueue 5 None;
           LaunchWorkerCalled
             (Job.Build 0%nat 5 (Some "https://a") None None false 0 []);
           HandleCalled 0%nat
             (Job.Build 0%nat 5 (Some "https://a") None None false 0 [])
             1%nat 30000;
           EmitTaskError (ErrorObject "net::ERR_FAILED") 5 true]).
Proof. vm_compute. reflexivity. Qed.

(** X16.  With [skipDuplicateUrls], the retry of a job that has a URL never
    runs: the URL went into the duplicate set when the job was handed to a
    worker, so when the job, queued again after its error, is peeked,
    [doWork] removes it from the queue as a duplicate.  It is not handed to
    a worker, no event is emitted and no callback invoked, whatever
    [retryLimit] is. *)
Theorem retry_of_url_job_is_dropped o acts c env now job u :
  skipDuplicateUrls o = true →
  run acts (launch o) = Some c →
  Queue.peek now (jobQueue c) = Some job →
  Job.errors job ≠ [] →
  Job.getUrl job = Some u →
  jobQueue (doWorkAdmit env now (atTimeout c)).1
  = Queue.remove job (jobQueue c) ∧
  log (doWorkAdmit env now (atTimeout c)).1 = log c ∧
  inFlight (doWorkAdmit env now (atTimeout c)).1 = inFlight c ∧
  workers (doWorkAdmit env now (atTimeout c)).1 = workers c.
Proof.
  intros Hskip Hrun Hpeek Herr Hu.
  assert (retriesKnown c) as Hc.
  { eapply (run_invariant retriesKnown); [|done|].
    - intros a c0 c1. apply step_retriesKnown.
    - intros _. split; intros ? ? ?%elem_of_nil; done. }
  rewrite <- (reachable_options o acts c Hrun) in Hskip.
  destruct (Hc Hskip) as [_ Hq].
  destruct (peek_entry _ _ _ Hpeek) as (en & Hen & <-).
  pose proof (Hq en u Hen Herr Hu) as Hknown.
  destruct (atTimeout_frame c) as (Hq' & Hf & Hl & _ & _ & Hw & Ho & Hd).
  destruct (doWorkAdmit_drops_duplicate env now (atTimeout c)
              (Queue.item en) u) as (-> & -> & -> & -> & _);
    by rewrite ?Ho, ?Hq', ?Hd.
Qed.

Lemma retry_of_url_job_is_dropped_witness :
  ∃ c, run Scenario2.runRetryUrl (launch Scenario2.optionsRetrySkip) = Some c ∧
       jobQueue c ≠ [] ∧
       jobQueue (doWorkAdmit envLaunch 40 (atTimeout c)).1 = [].
Proof.
  pose proof runRetryUrl_result as Hres.
  destruct (run Scenario2.runRetryUrl (launch Scenario2.optionsRetrySkip))
    as [c|] eqn:H; [|discriminate].
  injection Hres as Hq _.
  exists c. split; [done|]. split; [by rewrite Hq|].
  destruct (retry_of_url_job_is_dropped Scenario2.optionsRetrySkip _ c
              envLaunch 40
              (Job.Build 0%nat 5 (Some "https://a") None None false 1
                 [ErrorObject "net::ERR_FAILED"]) "https://a" eq_refl H)
    as (-> & _).
  - by rewrite Hq.
  - discriminate.
  - reflexivity.
  - by rewrite Hq.
Defined.

(** *** One job at a time *)










(** *** From [execute()] to the task and back *)

(** X18.  Take a call of [worker.handle] made for a job of [execute()]
    that gets its page at the first attempt, whose task resolves with [v],
    during which the page emits no error, and whose [jobInstance.close()]
    either succeeds or rejects with a value other than [null] and
    [undefined] and is followed by a [repair] that resolves.  It ends with
    [resolve(v)] invoked on the callbacks of that job, once; [reject] is not
    invoked, the job is not queued again and [errorCount] stays as it is.
    The task received the page of the acquired instance, the data of the
    job and the id of the worker. *)
Theorem execute_resolves_with_task_result k env now c p w ji v :
  inFlight c !! k = Some p →
  workers c !! p_worker p = Some w →
  Job.executeCallbacks (p_job p) = true →
  Worker.jobInstanceAt env 0 (Job.data (p_job p)) = Some ji →
  Worker.taskRun env (p_jobFunction p) (Worker.page ji)
    (Job.data (p_job p)) (Worker.id w) (timeout (options c))
  = Worker.TaskResolved v →
  Worker.pageErrorInTask env = None →
  Worker.pageErrorInRelease env = None →
  (∀ e, Worker.closeOutcome env = Some e →
        nullish e = false ∧ Worker.repairAt env 0 = None) →
  ∃ c' es,
    handled k env now c = Some c' ∧
    log c' = log c ++ es ∧
    List.filter isCallback es
    = [CallbackResolve (Job.jid (p_job p)) (Some v)] ∧
    jobQueue c' = jobQueue c ∧ errorCount c' = errorCount c ∧
    inFlight c' = delete k (inFlight c).
Proof.
  intros Hk Hw Hcb Hji Htask Hpt Hpr Hrep.
  unfold handled. rewrite Hk. simpl. rewrite Hw. simpl.
  assert (Worker.handleRest env (p_jobFunction p) (p_job p)
            (timeout (options c)) w
          = (Returned (Worker.WorkData (Some v)),
             Worker.set_activeJobs
               (Worker.spliceJob (p_job p) (Worker.activeJobs w)) w,
             [Worker.CallJobInstance (Job.data (p_job p));
              Worker.CallTask (p_jobFunction p) (Worker.page ji)
                (Job.data (p_job p)) (Worker.id w) (timeout (options c));
              Worker.CallClose (Worker.page ji)]
             ++ (if Worker.closeOutcome env is Some _
                 then [Worker.CallRepair] else []))) as ->.
  { unfold Worker.handleRest, Worker.runTask, Worker.release.
    assert (Worker.acquire env (Job.data (p_job p))
              Worker.BROWSER_INSTANCE_TRIES 0 []
            = Worker.GotInstance ji 0
                [Worker.CallJobInstance (Job.data (p_job p))]) as ->.
    { apply (acquire_after_failures env _ ji 0 Worker.BROWSER_INSTANCE_TRIES
               0 []); unfold Worker.BROWSER_INSTANCE_TRIES; try lia;
        try done. }
    cbn [Worker.page app]. rewrite Htask, Hpt, Hpr.
    destruct (Worker.closeOutcome env) as [e|];
      [destruct (Hrep e eq_refl) as [Hread ->];
       rewrite (readMessage_readable e Hread)|];
      by rewrite ?app_nil_r. }
  eexists _, _. split; [done|].
  unfold doWorkSettle. rewrite Hcb. unfold doWorkFinish, emit. shapes. simpl.
  rewrite <- app_assoc. split; [done|]. simpl.
  by rewrite filter_isCallback_waitForOne.
Qed.

Lemma execute_resolves_with_task_result_witness :
  ∃ c' es,
    handled 0 envDoubles 30
      (set_inFlight [Build_Pending (executeJob 0) 0%nat 1%nat]
         (set_workers
            [Worker.Build 0 (Worker.Build_WorkerInstance None)
               [executeJob 0]]
            (launch DEFAULT_OPTIONS))) = Some c' ∧
    log c' = [] ++ es ∧
    List.filter isCallback es = [CallbackResolve 0%nat (Some 10)].
Proof.
  destruct (execute_resolves_with_task_result 0 envDoubles 30
              (set_inFlight [Build_Pending (executeJob 0) 0%nat 1%nat]
                 (set_workers
                    [Worker.Build 0 (Worker.Build_WorkerInstance None)
                       [executeJob 0]]
                    (launch DEFAULT_OPTIONS)))
              (Build_Pending (executeJob 0) 0%nat 1%nat)
              (Worker.Build 0 (Worker.Build_WorkerInstance None)
                 [executeJob 0])
              (Worker.Build_JobInstance 7%nat) 10)
    as (c' & es & Hh & Hlog & Hes & _); try reflexivity;
    [intros e; discriminate|].
  exists c', es. done.
Defined.

(** *** What [doWork] hands to a worker *)

(** X19.  One call of [doWork] hands at most one job to a worker, and when
    it does: the job is the one that [peek] returned; it is no duplicate
    and no same-domain delay holds it back; the pool answered that it can
    handle the job, and the worker is the one that [getWorker] returned;
    the function is the job's own if it has one and otherwise the one given
    to [task()]; the timeout is the [timeout] option; and by then the job
    has left the queue and is the last of the worker's [activeJobs]. *)
Theorem doWork_hands_over_the_peeked_job env now c :
  ∃ es, log (doWorkAdmit env now c).1 = log c ++ es ∧
    (omap handOver es = [] ∧
     workers (doWorkAdmit env now c).1 = workers c ∧
     inFlight (doWorkAdmit env now c).1 = inFlight c ∨
     ∃ job i w f,
       es = [HandleCalled i job f (timeout (options c))] ∧
       Queue.peek now (jobQueue c) = Some job ∧
       isDuplicate c (Job.getUrl job) = false ∧
       domainDelay now c (Job.getDomain job) = None ∧
       Workers.canHandle (workers c) job = true ∧
       Workers.getWorker (workers c) job = Some i ∧
       workers c !! i = Some w ∧
       (Job.taskFunction job = Some f ∨
        Job.taskFunction job = None ∧ taskFunction c = Some f) ∧
       workers (doWorkAdmit env now c).1
       = <[i:=Worker.handleBegin job w]> (workers c) ∧
       Worker.activeJobs (Worker.handleBegin job w)
       = Worker.activeJobs w ++ [job] ∧
       jobQueue (doWorkAdmit env now c).1
       = Queue.remove job (jobQueue c) ∧
       inFlight (doWorkAdmit env now c).1
       = inFlight c ++ [Build_Pending job i f]).
Proof.
  unfold doWorkAdmit.
  destruct (Queue.size (jobQueue c) =? 0)%nat.
  { destruct (negb _); simpl.
    - eexists. split; [done|]. left.
      split; [|done]. by induction (idleResolvers c).
    - exists []. rewrite app_nil_r. split; [done|]. by left. }
  destruct (Queue.peek now (jobQueue c)) as [job|] eqn:Hpeek;
    [|exists []; rewrite app_nil_r; split; [done|]; by left].
  destruct (isDuplicate c (Job.getUrl job)) eqn:Hdup.
  { shapes. simpl. exists []. rewrite app_nil_r. split; [done|]. by left. }
  destruct (domainDelay now c (Job.getDomain job)) eqn:Hdelay.
  { shapes. simpl. exists []. rewrite app_nil_r. split; [done|]. by left. }
  destruct (Workers.canHandle (workers c) job) eqn:Hcan; simpl; cycle 1.
  { destruct (canLaunchWorker env); simpl;
      [eexists; split; [done|]; by left|].
    exists []. rewrite app_nil_r. split; [done|]. by left. }
  destruct (Workers.getWorker (workers c) job) as [i|] eqn:Hget;
    [|exists []; rewrite app_nil_r; split; [done|]; by left].
  destruct (getWorker_lookup _ _ _ Hget) as (w & Hw).
  shapes. simpl.
  destruct (Job.taskFunction job) as [f|] eqn:Hf; simpl.
  - eexists. split; [done|]. right. exists job, i, w, f.
    rewrite (alter_insert _ _ _ _ Hw). repeat (split; [done|]). auto.
  - destruct (taskFunction c) as [f|] eqn:Hc; simpl.
    + eexists. split; [done|]. right. exists job, i, w, f.
      rewrite (alter_insert _ _ _ _ Hw). repeat (split; [done|]). auto.
    + exists []. rewrite app_nil_r. split; [done|]. by left.
Qed.

(** *** [errorCount] and the events *)














(** *** The lines of the monitor *)

(** X22.  The line that [monitor()] prints for a worker says "IDLE"
    exactly when the worker has no active job; otherwise it lists one
    target per active job, with the job count in front only when there are
    two or more.  The text "NO TARGET (should not be happening)" is never
    printed: its branch needs a worker that is not idle and has no active
    job. *)
Theorem monitor_never_prints_no_target w :
  Monitor.workerUrl (Monitor.workerLine w) ≠ Some Monitor.NoTarget ∧
  (Monitor.workOrIdle (Monitor.workerLine w) = "IDLE"
   ↔ Worker.activeJobs w = []) ∧
  (∀ urls,
     Monitor.workerUrl (Monitor.workerLine w) = Some (Monitor.Targets urls) →
     urls = map Monitor.target (Worker.activeJobs w) ∧ urls ≠ []) ∧
  (∀ n, Monitor.jobCount (Monitor.workerLine w) = Some n →
        n = length (Worker.activeJobs w) ∧ (2 ≤ n)%nat).
Proof.
  unfold Monitor.workerLine, Worker.isIdle.
  destruct (Worker.activeJobs w) as [|j [|j' l]]; simpl;
    (split; [done|]); (split; [done|]); split.
  all: try (intros urls Hu; by simplify_eq).
  all: intros n Hn; simplify_eq. split; [done|lia].
Qed.

(** *** Launching *)





(** *** Until [close()] *)












(** *** What the options switch on *)







End ClusterFacts.

(** ** The built-in implementation [Context] *)

Section ConcurrencyFacts.
Import Concurrency Scenario5.

(** X27.  [Context]: when [createResources] returns, its resources are the
    incognito context that the browser created and the page opened in that
    context, and [freeResources] on them closes the context, not the page:
    together they made the calls [createIncognitoBrowserContext],
    [context.newPage()], [context.close()], and [freeResources] settles as
    [context.close()] does.  When the page cannot be opened in the new
    context, [createResources] rejects with that error and does not close
    the context it created. *)
Theorem context_resources_are_freed_unless_newPage_fails env ctx :
  createIncognitoBrowserContext env = inl ctx →
  match newPage env ctx with
  | inl p =>
    (Context.createResources env).1
    = Returned (Build_ResourceData (Some ctx) p) ∧
    (Context.createResources env).2
    ++ (Context.freeResources env (Build_ResourceData (Some ctx) p)).2
    = [CallCreateIncognitoBrowserContext; CallNewPage ctx;
       CallContextClose ctx] ∧
    (Context.freeResources env (Build_ResourceData (Some ctx) p)).1
    = settle (contextClose env ctx)
  | inr e =>
    (Context.createResources env).1 = Threw e ∧
    (Context.createResources env).2
    = [CallCreateIncognitoBrowserContext; CallNewPage ctx] ∧
    omap closedContext (Context.createResources env).2 = []
  end.
Proof.
  intros Hctx. unfold Context.createResources, Context.freeResources.
  rewrite Hctx. by destruct (newPage env ctx).
Qed.

Lemma context_resources_are_freed_unless_newPage_fails_witness :
  (Context.createResources envNoPageInContext).1
  = Threw (ErrorObject "Target closed") ∧
  (Context.createResources envNoPageInContext).2
  = [CallCreateIncognitoBrowserContext; CallNewPage 3%nat] ∧
  omap closedContext (Context.createResources envNoPageInContext).2 = [].
Proof.
  apply (context_resources_are_freed_unless_newPage_fails envNoPageInContext
           3%nat).
  reflexivity.
Defined.

End ConcurrencyFacts.
